(** * DebugAssist: the diagnosis pipeline, embedded and verified

    A shallow embedding of [debugassist/preprocess.py], [debugassist/rules.py],
    [debugassist/retrieval.py] and [debugassist/predict.py], and of the plan,
    the truncation and the sanitizing of [debugassist/build_dataset.py].

    Text is modelled by [string], i.e. sequences of 8-bit characters; the
    character predicates below are those of Python on code points below 128
    (a character of code 128 or more is neither a space, a digit, a word
    character nor a cased letter here).  Python floats are modelled by the
    rationals they denote ([Q]), on which comparison is exact.

    The regular expressions of the program are kept as syntax trees and run
    by a backtracking matcher that follows the priorities of Python's [re]
    module (greedy and lazy repetition, groups, back-references, look-ahead,
    [\b], [^] and [$]).  scikit-learn and numpy stay abstract: the vector
    space, the cosine similarity and [argsort] are parameters.  A request is
    a computation that leaves a trace (the lines echoed and the calls to
    the model, the playbook and the index) and returns or raises. *)

From Stdlib Require Import Bool Arith Lia List String Ascii NArith ZArith QArith.
From Stdlib Require Import Qabs Permutation Sorted DecimalString.
Import ListNotations.
Close Scope Q_scope.
Open Scope string_scope.
Open Scope bool_scope.

(* ================================================================= *)
(** ** Characters and the [str] methods the program calls *)

Module Str.

Definition code (c : ascii) : N := N_of_ascii c.

Definition between (lo hi : N) (c : ascii) : bool :=
  ((lo <=? code c) && (code c <=? hi))%N.

(** [str.isspace] on one ASCII character: TAB, LF, VT, FF, CR, FS, GS, RS,
    US and the space.  The class [\s] of [re] is the same set there. *)
Definition isspace (c : ascii) : bool := between 9 13 c || between 28 32 c.

(** The class [\d] among the ASCII characters *)
Definition isdigit (c : ascii) : bool := between 48 57 c.
Definition isupper (c : ascii) : bool := between 65 90 c.
Definition islower (c : ascii) : bool := between 97 122 c.
Definition isalpha (c : ascii) : bool := isupper c || islower c.

(** The class [\w] among the ASCII characters: letters, digits and the
    underscore. *)
Definition isword (c : ascii) : bool :=
  isalpha c || isdigit c || (c =? "_")%char.

(** [str.lower] on one ASCII character *)
Definition lower_char (c : ascii) : ascii :=
  if isupper c then ascii_of_N (code c + 32) else c.

(** [str.lower] on ASCII text *)
Fixpoint lower (s : string) : string :=
  match s with
  | EmptyString => EmptyString
  | String c t => String (lower_char c) (lower t)
  end.

Fixpoint lstrip (s : string) : string :=
  match s with
  | EmptyString => EmptyString
  | String c t => if isspace c then lstrip t else s
  end.

Fixpoint rstrip (s : string) : string :=
  match s with
  | EmptyString => EmptyString
  | String c t =>
      match rstrip t with
      | EmptyString => if isspace c then EmptyString else String c EmptyString
      | r => String c r
      end
  end.

(** [str.strip] without argument *)
Definition strip (s : string) : string := rstrip (lstrip s).

(** [needle in hay] *)
Fixpoint contains (needle hay : string) : bool :=
  prefix needle hay ||
  match hay with
  | EmptyString => false
  | String _ t => contains needle t
  end.

(** [s[:n]] for [n >= 0] *)
Fixpoint take (n : nat) (s : string) : string :=
  match n, s with
  | S n', String c t => String c (take n' t)
  | _, _ => EmptyString
  end.

(** [s.replace(a, b)] for single characters *)
Fixpoint replace_char (a b : ascii) (s : string) : string :=
  match s with
  | EmptyString => EmptyString
  | String c t => String (if (c =? a)%char then b else c) (replace_char a b t)
  end.

Definition dquote : ascii := "034"%char.
Definition squote : ascii := "'"%char.
Definition backslash : ascii := "\"%char.
Definition newline : ascii := "010"%char.

(** The class of the two quote characters *)
Definition isquote (c : ascii) : bool :=
  (c =? squote)%char || (c =? dquote)%char.

End Str.

(* ================================================================= *)
(** ** Python's [re]: patterns and the backtracking matcher *)

Module Re.
Import Str.

Inductive regex : Type :=
| Eps
| Lit (c : ascii)                     (* one literal character *)
| Cls (f : ascii -> bool)             (* a character class, [\s], [\d], [.] *)
| Seq (r1 r2 : regex)
| Rep (greedy : bool) (lo : nat) (hi : option nat) (r : regex)
                                      (* r{lo,hi}; [hi = None] is unbounded *)
| WordB                               (* \b *)
| Bol                                 (* ^ *)
| Eol                                 (* $ *)
| Grp (n : nat) (r : regex)           (* capturing group number n *)
| Ref (n : nat)                       (* back-reference to group n *)
| Look (r : regex).                   (* (?=r) *)

Record flags : Type := { ignorecase : bool; multiline : bool }.

(** A compiled pattern, [re.compile(r, flags)]. *)
Record pattern : Type := { re : regex; fl : flags }.

(** A position in the subject: the character just before it (none at the
    start), the text still to read, and the groups captured so far. *)
Record pos : Type := { prev : option ascii; rest : string; caps : list (nat * string) }.

Definition advance (st : pos) (c : ascii) (t : string) : pos :=
  {| prev := Some c; rest := t; caps := caps st |}.

Definition orelse (a b : option pos) : option pos :=
  match a with Some x => Some x | None => b end.

Definition word_before (st : pos) : bool :=
  match prev st with Some c => isword c | None => false end.

Definition word_after (st : pos) : bool :=
  match rest st with String c _ => isword c | EmptyString => false end.

Fixpoint get_cap (n : nat) (cs : list (nat * string)) : option string :=
  match cs with
  | [] => None
  | (i, w) :: cs' => if Nat.eqb i n then Some w else get_cap n cs'
  end.

(** The text read between two positions of the same subject. *)
Definition consumed (st st' : pos) : string :=
  take (length (rest st) - length (rest st')) (rest st).

(** Repetition of [body] between [lo] and [hi] times.  An iteration has to
    read at least one character, so at most [length (rest st)] of them can
    follow one another; [n] starts above that number. *)
Fixpoint rep (body : pos -> (pos -> option pos) -> option pos)
    (greedy : bool) (n lo : nat) (hi : option nat)
    (st : pos) (k : pos -> option pos) : option pos :=
  match n with
  | 0 => if Nat.eqb lo 0 then k st else None
  | S n' =>
      let again :=
        match hi with
        | Some 0 => None
        | _ =>
            body st (fun st' =>
              if (length (rest st') <? length (rest st))%nat
              then rep body greedy n' (pred lo) (option_map pred hi) st' k
              else None)
        end in
      if (0 <? lo)%nat then again
      else if greedy then orelse again (k st)
      else orelse (k st) again
  end.

Section Matcher.
Variable f : flags.

(** A literal and a character of the subject, alike for the matcher: with
    IGNORECASE two ASCII letters are alike whatever their case. *)
Definition chr_eq (a b : ascii) : bool :=
  if ignorecase f then (lower_char a =? lower_char b)%char else (a =? b)%char.

(** Reading a captured word again at the current position. *)
Fixpoint read_word (w : string) (st : pos) : option pos :=
  match w with
  | EmptyString => Some st
  | String a w' =>
      match rest st with
      | String x t => if chr_eq a x then read_word w' (advance st x t) else None
      | EmptyString => None
      end
  end.

(** [m r st k]: match [r] at [st], then hand the position reached to the
    continuation [k]; alternatives are tried in the order of [re]. *)
Fixpoint m (r : regex) (st : pos) (k : pos -> option pos) {struct r} : option pos :=
  match r with
  | Eps => k st
  | Lit c =>
      match rest st with
      | String x t => if chr_eq c x then k (advance st x t) else None
      | EmptyString => None
      end
  | Cls p =>
      match rest st with
      | String x t => if p x then k (advance st x t) else None
      | EmptyString => None
      end
  | Seq a b => m a st (fun st' => m b st' k)
  | Rep g lo hi a => rep (m a) g (S (length (rest st))) lo hi st k
  | WordB => if xorb (word_before st) (word_after st) then k st else None
  | Bol =>
      match prev st with
      | None => k st
      | Some c => if multiline f && (c =? newline)%char then k st else None
      end
  | Eol =>
      match rest st with
      | EmptyString => k st
      | String c t =>
          if (c =? newline)%char &&
             (multiline f || match t with EmptyString => true | _ => false end)
          then k st else None
      end
  | Grp n a =>
      m a st (fun st' =>
        k {| prev := prev st'; rest := rest st';
             caps := (n, consumed st st') :: caps st' |})
  | Ref n =>
      match get_cap n (caps st) with
      | Some w => match read_word w st with Some st' => k st' | None => None end
      | None => None
      end
  | Look a =>
      match m a st Some with
      | Some st' => k {| prev := prev st; rest := rest st; caps := caps st' |}
      | None => None
      end
  end.
End Matcher.

(** One attempt at one position, [Pattern.match] at an offset. *)
Definition match_at (p : pattern) (pv : option ascii) (s : string) : option pos :=
  m (fl p) (re p) {| prev := pv; rest := s; caps := [] |} Some.

(** [Pattern.search]: the leftmost position at which the pattern matches. *)
Fixpoint search_from (p : pattern) (pv : option ascii) (s : string) {struct s} : bool :=
  match match_at p pv s with
  | Some _ => true
  | None =>
      match s with
      | EmptyString => false
      | String c t => search_from p (Some c) t
      end
  end.

Definition search (p : pattern) (s : string) : bool := search_from p None s.

(** [Pattern.sub(repl, s)] for a replacement without escapes: leftmost
    matches, none overlapping, each replaced by [repl].  A match that reads
    nothing is replaced and the scan moves one character on; no pattern of
    the program matches the empty string. *)
Fixpoint sub_from (n : nat) (p : pattern) (repl : string)
    (pv : option ascii) (s : string) : string :=
  match n with
  | 0 => s
  | S n' =>
      match match_at p pv s with
      | Some e =>
          if (length (rest e) <? length s)%nat
          then repl ++ sub_from n' p repl (prev e) (rest e)
          else repl ++ match s with
                       | EmptyString => EmptyString
                       | String c t => String c (sub_from n' p repl (Some c) t)
                       end
      | None =>
          match s with
          | EmptyString => EmptyString
          | String c t => String c (sub_from n' p repl (Some c) t)
          end
      end
  end.

Definition sub (p : pattern) (repl s : string) : string :=
  sub_from (S (length s)) p repl None s.

(** Pattern syntax *)
Definition cat (rs : list regex) : regex := fold_right Seq Eps rs.
Definition star (r : regex) : regex := Rep true 0 None r.
Definition plus (r : regex) : regex := Rep true 1 None r.
Definition lazy_star (r : regex) : regex := Rep false 0 None r.
Definition opt (r : regex) : regex := Rep true 0 (Some 1) r.

Fixpoint lits (s : string) : regex :=
  match s with
  | EmptyString => Eps
  | String c t => Seq (Lit c) (lits t)
  end.

Definition compile (r : regex) : pattern :=
  {| re := r; fl := {| ignorecase := false; multiline := false |} |}.
Definition compile_i (r : regex) : pattern :=
  {| re := r; fl := {| ignorecase := true; multiline := false |} |}.
Definition compile_m (r : regex) : pattern :=
  {| re := r; fl := {| ignorecase := false; multiline := true |} |}.

(** [.] without DOTALL *)
Definition dot (c : ascii) : bool := negb (c =? newline)%char.

End Re.

(* ================================================================= *)
(** ** preprocess.py *)

Module Preprocess.
Import Str Re.

(** [\s+] *)
Definition _WHITESPACE_RE : pattern := compile (plus (Cls isspace)).

Definition not_bslash_nl (c : ascii) : bool :=
  negb (c =? backslash)%char && negb (c =? newline)%char.
Definition not_slash_nl (c : ascii) : bool :=
  negb (c =? "/")%char && negb (c =? newline)%char.
Definition ishex (c : ascii) : bool :=
  isdigit c || between 97 102 c || between 65 70 c.
(** [[A-Za-z]:\\(?:[^\\\n]+\\)*[^\\\n]+] *)
Definition _WINDOWS_PATH_RE : pattern :=
  compile (cat [Cls isalpha; Lit ":"; Lit backslash;
                star (Seq (plus (Cls not_bslash_nl)) (Lit backslash));
                plus (Cls not_bslash_nl)]).

(** [(?:/[^/\n]+)+] *)
Definition _UNIX_PATH_RE : pattern :=
  compile (plus (Seq (Lit "/") (plus (Cls not_slash_nl)))).

(** [\bline\s+\d+\b], IGNORECASE *)
Definition _LINE_NUMBER_RE : pattern :=
  compile_i (cat [WordB; lits "line"; plus (Cls isspace); plus (Cls isdigit); WordB]).

(** [\b\d+\b] *)
Definition _PLAIN_INT_RE : pattern :=
  compile (cat [WordB; plus (Cls isdigit); WordB]).

(** [\b0x[0-9a-fA-F]+\b] *)
Definition _HEX_RE : pattern :=
  compile (cat [WordB; lits "0x"; plus (Cls ishex); WordB]).

(** [(['Q])(?:(?=(\\?))\2.)*?\1], where Q stands for the escaped double
    quote of the source *)
Definition _QUOTED_STR_RE : pattern :=
  compile (cat [Grp 1 (Cls isquote);
                lazy_star (cat [Look (Grp 2 (opt (Lit backslash))); Ref 2; Cls dot]);
                Ref 1]).

(** [normalize_text] on a [str] argument. *)
Definition normalize_text (text : string) : string :=
  let t := lower (strip text) in
  let t := sub _WINDOWS_PATH_RE "<PATH>" t in
  let t := sub _UNIX_PATH_RE "<PATH>" t in
  let t := sub _LINE_NUMBER_RE "line <LINE>" t in
  let t := sub _HEX_RE "<HEX>" t in
  let t := sub _QUOTED_STR_RE "<STR>" t in
  let t := sub _PLAIN_INT_RE "<NUM>" t in
  strip (sub _WHITESPACE_RE " " t).

(** [normalize_text] on the argument as Python passes it: [None] gives the
    empty string. *)
Definition normalize_text_opt (text : option string) : string :=
  match text with
  | None => EmptyString
  | Some t => normalize_text t
  end.

(** [combine_inputs(error_text, code)] *)
Definition combine_inputs (error_text : string) (code : option string) : string :=
  let err := error_text in
  match code with
  | Some c =>
      if negb (c =? EmptyString) && negb (strip c =? EmptyString)
      then err ++ String newline "<CODE>" ++ String newline c
      else err
  | None => err
  end.

End Preprocess.

(* ================================================================= *)
(** ** rules.py *)

Module Rules.
Import Str Re.

(** [\b<words>\b], IGNORECASE *)
Definition word_rule (w : string) : pattern :=
  compile_i (cat [WordB; lits w; WordB]).

(** [\b<words>] without the closing [\b], IGNORECASE *)
Definition open_rule (w : string) : pattern :=
  compile_i (cat [WordB; lits w]).

(** [A-Za-z0-9_ -] *)
Definition iskeychar (c : ascii) : bool :=
  isalpha c || isdigit c || (c =? "_")%char || (c =? " ")%char || (c =? "-")%char.

(** [\bnonetype\b.*\bhas no attribute\b], IGNORECASE *)
Definition nonetype_rule : pattern :=
  compile_i (cat [WordB; lits "nonetype"; WordB; star (Cls dot);
                  WordB; lits "has no attribute"; WordB]).

(** [^\s*['Q][A-Za-z0-9_ -]{1,40}['Q]\s*$], MULTILINE, where Q stands for
    the escaped double quote of the source *)
Definition bare_key_rule : pattern :=
  compile_m (cat [Bol; star (Cls isspace); Cls isquote;
                  Rep true 1 (Some 40) (Cls iskeychar);
                  Cls isquote; star (Cls isspace); Eol]).

Definition _RULES : list (string * pattern) :=
  [ ("import_error", word_rule "moduleNotFoundError");
    ("import_error", word_rule "importerror");
    ("import_error", word_rule "no module named");
    ("import_error", word_rule "cannot import name");

    ("syntax_error", word_rule "syntaxerror");
    ("syntax_error", word_rule "indentationerror");
    ("syntax_error", word_rule "unexpected indent");
    ("syntax_error", word_rule "expected an indented block");

    ("type_error", word_rule "typeerror");
    ("type_error", word_rule "not callable");
    ("type_error", open_rule "unsupported operand type");
    ("type_error", word_rule "has no len()");

    ("value_error", word_rule "valueerror");
    ("value_error", open_rule "invalid literal for int()");
    ("value_error", word_rule "could not convert string to float");
    ("value_error", word_rule "list.remove(x): x not in list");

    ("attribute_error", word_rule "attributeerror");
    ("attribute_error", word_rule "has no attribute");
    ("attribute_error", nonetype_rule);

    ("key_error", word_rule "keyerror");
    ("key_error", bare_key_rule);

    ("index_error", word_rule "indexerror");
    ("index_error", word_rule "list index out of range");

    ("file_error", word_rule "filenotfounderror");
    ("file_error", word_rule "permissionerror");
    ("file_error", word_rule "no such file or directory");
    ("file_error", word_rule "permission denied");

    ("zero_division", word_rule "zerodivisionerror");
    ("zero_division", word_rule "division by zero");
    ("zero_division", word_rule "integer division or modulo by zero");

    ("connection_error", word_rule "requests.exceptions.timeout");
    ("connection_error", word_rule "requests.exceptions.connectionerror");
    ("connection_error", word_rule "read timed out");
    ("connection_error", word_rule "connection refused") ].

(** The loop of [rule_predict] over a rule list: the family of the first
    rule whose pattern is found in [text]. *)
Fixpoint first_match (rules : list (string * pattern)) (text : string) : option string :=
  match rules with
  | [] => None
  | (family, pattern) :: rules' =>
      if search pattern text then Some family else first_match rules' text
  end.

(** [rule_predict(error_text)]; [None] is Python's [None]. *)
Definition rule_predict (error_text : string) : option string :=
  if (error_text =? EmptyString) || (strip error_text =? EmptyString) then None
  else
    let text := strip error_text in
    first_match _RULES text.

End Rules.

(* ================================================================= *)
(** ** Exceptions and results *)

Inductive exn : Type :=
| FileNotFoundError (msg : string)
| ValueError (msg : string)
| IndexError
| AttributeError.

Inductive result (A : Type) : Type :=
| Ok (a : A)
| Raise (e : exn).
Arguments Ok {A} a.
Arguments Raise {A} e.

(** A comprehension whose body may raise: the first exception stops it. *)
Fixpoint for_each {A B : Type} (f : A -> result B) (l : list A) : result (list B) :=
  match l with
  | [] => Ok []
  | a :: l' =>
      match f a with
      | Raise e => Raise e
      | Ok b =>
          match for_each f l' with
          | Raise e => Raise e
          | Ok bs => Ok (b :: bs)
          end
      end
  end.

(* ================================================================= *)
(** ** retrieval.py *)

Module Retrieval.
Import Str Preprocess.

(** A row of the data frame, every cell filled and kept by its [str()]
    text. *)
Record Row : Type :=
  { row_id : string; row_error_family : string;
    row_error_text : string; row_fix_text : string }.

Record SimilarCase : Type :=
  { id : string; error_family : string; error_text : string;
    fix_text : string; score : Q }.

(** Stable insertion into a list of indices that is ascending by key. *)
Fixpoint insert_asc (key : nat -> Q) (i : nat) (l : list nat) : list nat :=
  match l with
  | [] => [i]
  | j :: l' => if Qle_bool (key i) (key j) then i :: l else j :: insert_asc key i l'
  end.

(** numpy's default [argsort] is ascending but fixes no order among equal
    keys, so [query] below takes its [argsort] as a parameter.  This is one
    ascending [argsort], the one that keeps equal keys in index order (what
    [kind="stable"] gives); it stands for no more than an order that
    [argsort] is free to return. *)
Definition argsort_stable (xs : list Q) : list nat :=
  fold_right (insert_asc (fun i => nth i xs 0%Q)) [] (seq 0 (List.length xs)).

Section Index.
(** scikit-learn and numpy, as the program sees them: the rows of a TF-IDF
    matrix, the cosine similarity of two rows, and [ndarray.argsort]. *)
Variable Vec : Type.
Variable cosine_similarity : Vec -> Vec -> Q.
Variable argsort : list Q -> list nat.

Record Vectorizer : Type := { transform : string -> Vec }.

Record RetrievalIndex : Type :=
  { df : list Row; vectorizer : Vectorizer; matrix : list Vec }.

(** [RetrievalIndex.__init__] *)
Definition __init__ (df0 : list Row) (vectorizer0 : Vectorizer) : RetrievalIndex :=
  let texts := map (fun r => normalize_text (row_error_text r)) df0 in
  {| df := df0; vectorizer := vectorizer0;
     matrix := map (transform vectorizer0) texts |}.

(** The similarities of a query to every stored row. *)
Definition similarities (self : RetrievalIndex) (text : string) : list Q :=
  let q := normalize_text text in
  let q_vec := transform (vectorizer self) q in
  map (cosine_similarity q_vec) (matrix self).

(** [sims.argsort()[::-1][:top_k]] for a positive [top_k] *)
Definition top_idx (sims : list Q) (top_k : Z) : list nat :=
  firstn (Z.to_nat top_k) (rev (argsort sims)).

(** The body of the loop of [query]: [df.iloc[i]] and [sims[i]]. *)
Definition similar_case (self : RetrievalIndex) (sims : list Q) (i : nat)
  : result SimilarCase :=
  match nth_error (df self) i, nth_error sims i with
  | Some row, Some s =>
      Ok {| id := row_id row; error_family := row_error_family row;
            error_text := row_error_text row; fix_text := row_fix_text row;
            score := s |}
  | _, _ => Raise IndexError
  end.

(** [RetrievalIndex.query] *)
Definition query (self : RetrievalIndex) (text : string) (top_k : Z)
  : result (list SimilarCase) :=
  if (top_k <=? 0)%Z then Ok []
  else
    let sims := similarities self text in
    for_each (similar_case self sims) (top_idx sims top_k).
End Index.

Arguments transform {Vec} v x.
Arguments df {Vec} r.
Arguments vectorizer {Vec} r.
Arguments matrix {Vec} r.
Arguments __init__ {Vec} df0 vectorizer0.

End Retrieval.

(* ================================================================= *)
(** ** predict.py *)

Module Predict.
Import Str Preprocess Rules Retrieval.

(** What a request does that can be observed: the lines it echoes and the
    calls it makes to its collaborators, in order. *)
Inductive event : Type :=
| Echo (line : string)                      (* typer.echo(line) *)
| LoadModel                                 (* _load_model() *)
| Transform (x : string)                    (* vectorizer.transform([x]) *)
| ClfPredict                                (* clf.predict(x_vec) *)
| ClfPredictProba                           (* clf.predict_proba(x_vec) *)
| LoadPlaybooks                             (* _load_playbooks(PLAYBOOK_PATH) *)
| LoadDefault                               (* RetrievalIndex.load_default() *)
| Query (text : string) (top_k : Z).        (* retrieval.query(text, top_k) *)

(** A computation that leaves a trace and returns or raises. *)
Definition M (A : Type) : Type := (list event * result A)%type.

Definition ret {A : Type} (a : A) : M A := ([], Ok a).
Definition raise {A : Type} (e : exn) : M A := ([], Raise e).
Definition emit (ev : event) : M unit := ([ev], Ok tt).
Definition echo (line : string) : M unit := emit (Echo line).
Definition lift {A : Type} (r : result A) : M A := ([], r).

Definition bind {A B : Type} (c : M A) (k : A -> M B) : M B :=
  match c with
  | (t, Raise e) => (t, Raise e)
  | (t, Ok a) => let (t', r) := k a in ((t ++ t')%list, r)
  end.

Notation "x <- c ;; k" := (bind c (fun x => k))
  (at level 61, c at next level, right associativity).
Notation "c ;;; k" := (bind c (fun _ => k))
  (at level 61, right associativity).

(** A [for] loop over a list. *)
Fixpoint for_ {A : Type} (l : list A) (body : A -> M unit) : M unit :=
  match l with
  | [] => ret tt
  | a :: l' => body a ;;; for_ l' body
  end.

Definition NL : string := String newline EmptyString.
Definition DQ : string := String dquote EmptyString.

(** The float written [0.35] in the source, as the rational it denotes. *)
Definition LOW_CONF_THRESHOLD : Q := 3152519739159347 # 9007199254740992.
Definition TOP_N_ALTERNATIVES : nat := 3.

(** *** Formatting *)

Definition digits (n : Z) : string := NilEmpty.string_of_uint (N.to_uint (Z.to_N n)).

Fixpoint zeros (n : nat) : string :=
  match n with
  | 0 => EmptyString
  | S n' => String "0" (zeros n')
  end.

(** [str.zfill]: zeros on the left up to width [w]. *)
Definition zfill (w : nat) (s : string) : string :=
  zeros (w - String.length s) ++ s.

(** The integer nearest to a non-negative rational, ties to the even one. *)
Definition round_half_even (q : Q) : Z :=
  let d := Zpos (Qden q) in
  let lo := (Qnum q / d)%Z in
  match (2 * (Qnum q mod d) ?= d)%Z with
  | Lt => lo
  | Gt => (lo + 1)%Z
  | Eq => if Z.even lo then lo else (lo + 1)%Z
  end.

(** [format(x, ".<d>f")] for [d > 0] *)
Definition format_f (d : nat) (x : Q) : string :=
  let p := (10 ^ Z.of_nat d)%Z in
  let n := round_half_even (Qabs x * inject_Z p)%Q in
  (if Qle_bool 0 x then EmptyString else "-")
  ++ digits (n / p) ++ "." ++ zfill d (digits (n mod p)).

(** *** Collaborators: the playbook and the files on disk *)

(** A section of the playbook that is a YAML mapping.  [checklist] and the
    tips of a key phrase are [None] when the YAML value there is not a list;
    an absent entry is an empty list.  Scalars are kept by their [str()]
    text. *)
Record Section_ : Type :=
  { checklist : option (list string);
    keyword_tips : option (list (string * option (list string))) }.

(** What the playbook holds under a family: a mapping, or a value of
    another kind (null, a scalar, a list), which has no method [get]. *)
Inductive Entry : Type :=
| Mapping (section : Section_)
| NotMapping.

(** The playbook: a dictionary, by its string keys. *)
Definition Playbooks : Type := list (string * Entry).

(** What [yaml.safe_load] makes of the playbook file. *)
Inductive Document : Type :=
| Falsy                       (* [None], [False], [0], an empty string or list *)
| NotDict                     (* another value that is not a dictionary *)
| Dict (data : Playbooks).

Fixpoint lookup (family : string) (playbooks : Playbooks) : option Entry :=
  match playbooks with
  | [] => None
  | (k, v) :: rest => if k =? family then Some v else lookup family rest
  end.

Definition mem (s : string) (seen : list string) : bool :=
  existsb (String.eqb s) seen.

(** The last loop of [_playbook_suggestions]: first occurrences, in order. *)
Fixpoint dedup (seen : list string) (suggestions : list string) : list string :=
  match suggestions with
  | [] => []
  | s :: rest => if mem s seen then dedup seen rest else s :: dedup (s :: seen) rest
  end.

Definition _playbook_suggestions (playbooks : Playbooks) (family raw_text : string)
  : result (list string) :=
  match lookup family playbooks with
  | None => Ok []
  | Some NotMapping => Raise AttributeError       (* [section.get] *)
  | Some (Mapping section) =>
      let from_checklist :=
        match checklist section with Some l => l | None => [] end in
      let from_tips :=
        match keyword_tips section with
        | Some kt =>
            let lowered := lower raw_text in
            flat_map (fun '(key_phrase, tips) =>
                        if contains (lower key_phrase) lowered
                        then match tips with Some l => l | None => [] end
                        else []) kt
        | None => []
        end in
      Ok (dedup [] (from_checklist ++ from_tips)%list)
  end.

(** *** Printing *)

Definition _print_header (family method : string) (confidence : option Q) : M unit :=
  echo EmptyString ;;;
  echo "       * DebugAssist *" ;;;
  echo "==============================" ;;;
  match confidence with
  | Some c =>
      echo (NL ++ "Predicted family: " ++ family ++ "   (via " ++ method
               ++ ", confidence=" ++ format_f 2 c ++ ")")
  | None =>
      echo (NL ++ "Predicted family: " ++ family ++ "   (via " ++ method ++ ")")
  end.

Definition _print_single_checklist (title : string) (suggestions : list string) : M unit :=
  echo (NL ++ title) ;;;
  match suggestions with
  | [] => echo "  (No playbook suggestions found for this category yet.)"
  | _ => for_ suggestions (fun s => echo ("  - " ++ s))
  end.

Definition _print_multi_checklists_for_low_confidence (playbooks : Playbooks)
    (top_candidates : list (string * Q)) (raw_input : string) : M unit :=
  match top_candidates with
  | [] =>
      echo (NL ++ "Fix checklist:") ;;;
      echo "  (No probability information available.)"
  | _ =>
      echo (NL ++ "Low confidence — showing fix checklists for top candidates:") ;;;
      for_ top_candidates (fun '(fam, score) =>
        suggestions <- lift (_playbook_suggestions playbooks fam raw_input) ;;
        let title := "Fix Checklist (" ++ fam ++ ") (score: " ++ format_f 2 score ++ "):" in
        _print_single_checklist title suggestions)
  end.

Definition _print_request_exact_error : M unit :=
  echo (NL ++ "To improve accuracy, paste the exact error/traceback output from your terminal/IDE.") ;;;
  echo (NL ++ "Example:") ;;;
  echo ("  python3 -m debugassist.predict --text " ++ DQ
          ++ "Traceback (most recent call last): ..." ++ DQ ++ NL).

Definition preview (limit : nat) (s : string) : string :=
  if (limit <? String.length s)%nat then take limit s ++ "..." else s.

(** The loop of [_print_similar_cases], [i] counting from [start]. *)
Fixpoint print_cases (i : nat) (cases : list SimilarCase) : M unit :=
  match cases with
  | [] => ret tt
  | c :: rest =>
      echo (NL ++ "  #" ++ digits (Z.of_nat i) ++ "  score=" ++ format_f 3 (score c)
               ++ "  label=" ++ error_family c ++ "  id=" ++ id c) ;;;
      echo ("     error: " ++ preview 160 (replace_char newline " " (error_text c))) ;;;
      echo ("     fix:   " ++ preview 200 (strip (fix_text c))) ;;;
      print_cases (S i) rest
  end.

Definition _print_similar_cases (cases : list SimilarCase) : M unit :=
  echo (NL ++ "Similar solved cases:") ;;;
  match cases with
  | [] => echo "  (No similar cases found.)"
  | _ => print_cases 1 cases ;;; echo EmptyString
  end.

(** [sorted(l, key=key, reverse=True)]: descending, equal keys in their
    original order. *)
Fixpoint insert_desc {A : Type} (key : A -> Q) (x : A) (l : list A) : list A :=
  match l with
  | [] => [x]
  | y :: l' =>
      if Qle_bool (key y) (key x) then x :: l else y :: insert_desc key x l'
  end.

Definition sorted_reverse {A : Type} (key : A -> Q) (l : list A) : list A :=
  fold_right (insert_desc key) [] l.

Section Orchestrator.
Variable Vec : Type.
Variable cosine_similarity : Vec -> Vec -> Q.
Variable argsort : list Q -> list nat.

(** The classifier object: [predict_proba] is [None] when the object has
    no such attribute. *)
Record Classifier : Type :=
  { predict : Vec -> string;
    predict_proba : option (Vec -> list Q);
    classes_ : list string }.

(** The files the program reads, each [None] when it does not exist.
    The data set is [Some None] when a required column is missing, and
    [Some (Some rows)] when it has the four columns and every cell. *)
Record env : Type :=
  { tfidf_joblib : option (Vectorizer Vec);
    clf_joblib : option Classifier;
    playbooks_yaml : option Document;
    debug_cases_csv : option (option (list Row)) }.

Definition _load_playbooks (e : env) : M Playbooks :=
  emit LoadPlaybooks ;;;
  match playbooks_yaml e with
  | None =>
      raise (FileNotFoundError
        "playbooks.yaml not found at debugassist/playbooks.yaml. Create debugassist/playbooks.yaml first.")
  | Some document =>
      let data :=                               (* [yaml.safe_load(f) or {}] *)
        match document with
        | Falsy => Dict []
        | _ => document
        end in
      match data with
      | Dict data => ret data
      | _ =>
          raise (ValueError "playbooks.yaml must parse to a dictionary at the top level.")
      end
  end.

Definition _load_model (e : env) : M (Vectorizer Vec * Classifier) :=
  emit LoadModel ;;;
  match tfidf_joblib e, clf_joblib e with
  | Some vectorizer, Some clf => ret (vectorizer, clf)
  | _, _ =>
      raise (FileNotFoundError
        ("Model files not found. Run:" ++ NL
         ++ "  1) python3 -m debugassist.build_dataset --total 1200" ++ NL
         ++ "  2) python3 -m debugassist.train" ++ NL))
  end.

(** [RetrievalIndex.load_default] *)
Definition load_default (e : env) : M (RetrievalIndex Vec) :=
  emit LoadDefault ;;;
  match debug_cases_csv e with
  | None =>
      raise (FileNotFoundError
        "Dataset not found at data/debug_cases.csv. Run build_dataset.py first.")
  | Some csv =>
      match tfidf_joblib e with
      | None =>
          raise (FileNotFoundError
            "Vectorizer not found at models/tfidf.joblib. Run train.py first.")
      | Some vectorizer =>
          match csv with
          | None =>
              raise (ValueError
                "CSV must contain columns: ['error_family', 'error_text', 'fix_text', 'id']")
          | Some rows => ret (__init__ rows vectorizer)
          end
      end
  end.

Definition pair_at (classes : list string) (proba : list Q) (i : nat)
  : result (string * Q) :=
  match nth_error classes i, nth_error proba i with
  | Some c, Some p => Ok (c, p)
  | _, _ => Raise IndexError
  end.

Definition _predict_family_ml (vectorizer : Vectorizer Vec) (clf : Classifier)
    (combined_text : string) : M (string * option Q * list (string * Q)) :=
  let x := normalize_text combined_text in
  emit (Transform x) ;;;
  let x_vec := transform vectorizer x in
  emit ClfPredict ;;;
  let label := predict clf x_vec in
  match predict_proba clf with
  | Some predict_proba_ =>
      emit ClfPredictProba ;;;
      let proba := predict_proba_ x_vec in
      let classes := classes_ clf in
      all <- lift (for_each (pair_at classes proba) (seq 0 (List.length classes))) ;;
      let pairs := sorted_reverse snd all in
      let top_candidates := firstn TOP_N_ALTERNATIVES pairs in
      match top_candidates with
      | (c, p) :: _ => ret (c, Some p, top_candidates)
      | [] => ret (label, None, top_candidates)
      end
  | None => ret (label, None, [])
  end.

(** Lines 202 to 211 of [main]: rules first, the model only when the
    rules give no family.  The result is (family, method, confidence,
    top_candidates). *)
Definition classify (e : env) (text raw_input : string)
  : M (string * string * option Q * list (string * Q)) :=
  match rule_predict text with
  | Some family => ret (family, "rules", None, [])
  | None =>
      mdl <- _load_model e ;;
      let '(vectorizer, clf) := mdl in
      r <- _predict_family_ml vectorizer clf raw_input ;;
      let '(family, confidence, top_candidates) := r in
      ret (family, "ml", confidence, top_candidates)
  end.

(** The test of line 217. *)
Definition low_confidence (method : string) (confidence : option Q) : bool :=
  (method =? "ml") &&
  match confidence with
  | Some c => negb (Qle_bool LOW_CONF_THRESHOLD c)
  | None => false
  end.

(** Lines 227 to 229 of [main]. *)
Definition similar_cases (e : env) (raw_input : string) (top_k : Z) : M unit :=
  retrieval <- load_default e ;;
  emit (Query raw_input top_k) ;;;
  similar <- lift (query Vec cosine_similarity argsort retrieval raw_input top_k) ;;
  _print_similar_cases similar.

Definition main (e : env) (text : string) (code : option string) (top_k : Z) : M unit :=
  let raw_input := combine_inputs text code in
  c <- classify e text raw_input ;;
  let '(family, method, confidence, top_candidates) := c in
  playbooks <- _load_playbooks e ;;
  _print_header family method confidence ;;;
  if low_confidence method confidence then
    _print_multi_checklists_for_low_confidence playbooks top_candidates raw_input ;;;
    _print_request_exact_error
  else
    suggestions <- lift (_playbook_suggestions playbooks family raw_input) ;;
    _print_single_checklist "Fix checklist:" suggestions ;;;
    similar_cases e raw_input top_k.
End Orchestrator.

Arguments predict {Vec} c v.
Arguments predict_proba {Vec} c.
Arguments classes_ {Vec} c.
Arguments tfidf_joblib {Vec} e.
Arguments clf_joblib {Vec} e.
Arguments playbooks_yaml {Vec} e.
Arguments debug_cases_csv {Vec} e.

End Predict.

Import Str Re Preprocess Rules Retrieval Predict.


(* ================================================================= *)
(** ** build_dataset.py: truncated traces, sanitized fixes and the plan of
    the data set *)

Module BuildDataset.
Import Str Re.

Definition ERROR_FAMILIES : list string :=
  [ "import_error"; "syntax_error"; "type_error"; "value_error";
    "attribute_error"; "key_error"; "index_error"; "file_error";
    "zero_division"; "connection_error" ].

(** [s.strip(chars)], [chars] given as a class of characters *)
Fixpoint lstrip_chars (p : ascii -> bool) (s : string) : string :=
  match s with
  | EmptyString => EmptyString
  | String c t => if p c then lstrip_chars p t else s
  end.

Fixpoint rstrip_chars (p : ascii -> bool) (s : string) : string :=
  match s with
  | EmptyString => EmptyString
  | String c t =>
      match rstrip_chars p t with
      | EmptyString => if p c then EmptyString else String c EmptyString
      | r => String c r
      end
  end.

Definition strip_chars (p : ascii -> bool) (s : string) : string :=
  rstrip_chars p (lstrip_chars p s).

Definition isnewline (c : ascii) : bool := (c =? newline)%char.

(** The line boundaries of [str.splitlines]: LF, VT, FF, CR, FS, GS, RS and
    NEL; CR LF is one boundary. *)
Definition islinebreak (c : ascii) : bool :=
  between 10 13 c || between 28 30 c || (code c =? 133)%N.

Definition CR : ascii := "013"%char.

(** [str.splitlines] *)
Fixpoint splitlines (s : string) : list string :=
  match s with
  | EmptyString => []
  | String c t =>
      if islinebreak c then
        EmptyString ::
        match t with
        | String c' t' =>
            if (c =? CR)%char && (c' =? newline)%char then splitlines t'
            else splitlines t
        | EmptyString => []
        end
      else
        match splitlines t with
        | [] => [String c EmptyString]
        | l :: ls => String c l :: ls
        end
  end.

(** [sep.join(xs)] *)
Fixpoint join (sep : string) (xs : list string) : string :=
  match xs with
  | [] => EmptyString
  | x :: rest =>
      match rest with
      | [] => x
      | _ => x ++ sep ++ join sep rest
      end
  end.

(** The floats written [0.20], [0.40] and [0.55] in the source, as the
    rationals they denote. *)
Definition lit_0_20 : Q := 3602879701896397 # 18014398509481984.
Definition lit_0_40 : Q := 3602879701896397 # 9007199254740992.
Definition lit_0_55 : Q := 2476979795053773 # 4503599627370496.

(** [a < b] on floats *)
Definition lt_float (a b : Q) : bool := negb (Qle_bool b a).

(** [_maybe_truncate(trace)], [r] being the value that [random.random()]
    returns.  Past the first test [lines] has more than three elements, so
    [lines[-1]] and [lines[0]] exist. *)
Definition _maybe_truncate (r : Q) (trace : string) : string :=
  let lines := splitlines (strip_chars isnewline trace) in
  if (List.length lines <=? 3)%nat then strip_chars isnewline trace
  else if lt_float r lit_0_20 then last lines EmptyString
  else if lt_float r lit_0_40 then
    join (String newline EmptyString) (skipn (List.length lines - 2) lines)
  else if lt_float r lit_0_55 && prefix "Traceback" (hd EmptyString lines) then
    join (String newline EmptyString) (tl lines)
  else strip_chars isnewline trace.

(** [_sanitize_fix(fix)]: [re.sub(r"\s+", " ", fix).strip()] *)
Definition _sanitize_fix (fix_text : string) : string :=
  strip (sub (compile (plus (Cls isspace))) " " fix_text).

(** What [_plan_counts] can raise: [typer.BadParameter], and the errors of
    [fams[i]] and of [counts[key] += 1]. *)
Inductive plan_error : Type :=
| BadParameter (msg : string)
| PlanIndexError
| PlanKeyError (key : string).

(** [counts[key] += 1] on a dictionary kept in insertion order. *)
Fixpoint increment (key : string) (counts : list (string * Z))
  : plan_error + list (string * Z) :=
  match counts with
  | [] => inl (PlanKeyError key)
  | (k, n) :: rest =>
      if k =? key then inr ((k, (n + 1)%Z) :: rest)
      else match increment key rest with
           | inl e => inl e
           | inr rest' => inr ((k, n) :: rest')
           end
  end.

(** [for i in range(rem): counts[fams[i]] += 1], [idx] being the values of
    [i] still to come. *)
Fixpoint distribute (fams : list string) (idx : list nat)
    (counts : list (string * Z)) : plan_error + list (string * Z) :=
  match idx with
  | [] => inr counts
  | i :: idx' =>
      match nth_error fams i with
      | None => inl PlanIndexError
      | Some fam =>
          match increment fam counts with
          | inl e => inl e
          | inr counts' => distribute fams idx' counts'
          end
      end
  end.

Section Plan.
(** [random.shuffle] on a copy of the list, the generator being in the
    state the call finds it in. *)
Variable shuffle : list string -> list string.

(** [_plan_counts(total, per_class)]; [None] is Python's [None]. *)
Definition _plan_counts (total per_class : option Z)
  : plan_error + list (string * Z) :=
  match total, per_class with
  | None, None | Some _, Some _ =>
      inl (BadParameter "Provide exactly one of --total or --per-class")
  | _, Some per_class =>
      if (per_class <=? 0)%Z then inl (BadParameter "--per-class must be > 0")
      else inr (map (fun fam => (fam, per_class)) ERROR_FAMILIES)
  | Some total, None =>
      if (total <=? 0)%Z then inl (BadParameter "--total must be > 0")
      else
        let base := (total / Z.of_nat (List.length ERROR_FAMILIES))%Z in
        let rem_ := (total mod Z.of_nat (List.length ERROR_FAMILIES))%Z in
        let counts := map (fun fam => (fam, base)) ERROR_FAMILIES in
        let fams := shuffle ERROR_FAMILIES in
        distribute fams (seq 0 (Z.to_nat rem_)) counts
  end.
End Plan.

End BuildDataset.

Import BuildDataset.
(* ================================================================= *)
(** ** Vocabulary of the properties *)

(** *** Text *)

(** Empty or made of whitespace only. *)
Fixpoint blank (s : string) : bool :=
  match s with
  | EmptyString => true
  | String c t => isspace c && blank t
  end.

(** The traceback line of the masking example: [File "a.py", line 42]. *)
Definition traceback_line : string :=
  "File " ++ DQ ++ "a.py" ++ DQ ++ ", line 42".

(** Characters that no mask of [normalize_text] needs: everything but
    digits, quotes, the slash and the backslash. *)
Definition plain_char (c : ascii) : bool :=
  negb (isdigit c || isquote c || (c =? "/")%char || (c =? backslash)%char).

(** Every character of [s] is in the class [p]. *)
Fixpoint all_chars (p : ascii -> bool) (s : string) : bool :=
  match s with
  | EmptyString => true
  | String c t => p c && all_chars p t
  end.

Definition plain (s : string) : bool := all_chars plain_char s.

(** A text of ASCII characters, on which the character classes and the
    case folding of this development are those of Python. *)
Definition ascii_char (c : ascii) : bool := (code c <? 128)%N.
Definition ascii_text (s : string) : bool := all_chars ascii_char s.
Definition plainP (s : string) : Prop := plain s = true.

(** *** Patterns *)

(** Patterns that read nothing. *)
Definition zero_width (r : regex) : bool :=
  match r with
  | Eps | WordB | Bol | Eol => true
  | _ => false
  end.

(** A class that the first character read by a pattern has to belong to. *)
Fixpoint head_class (f : flags) (r : regex) : option (ascii -> bool) :=
  match r with
  | Lit c => Some (chr_eq f c)
  | Cls p => Some p
  | Seq a b => if zero_width a then head_class f b else head_class f a
  | Rep _ lo _ a => if (0 <? lo)%nat then head_class f a else None
  | Grp _ a => head_class f a
  | _ => None
  end.

(** The first character of [s] exists and is in [p]. *)
Definition head_in (p : ascii -> bool) (s : string) : bool :=
  match s with
  | EmptyString => false
  | String c _ => p c
  end.

(** *** Whitespace *)

(** Every run of whitespace replaced by one space; [inws] tells that the
    run has begun. *)
Fixpoint collapse (inws : bool) (s : string) : string :=
  match s with
  | EmptyString => EmptyString
  | String c t =>
      if isspace c
      then if inws then collapse true t else String " " (collapse true t)
      else String c (collapse false t)
  end.

(** The character before the position reached by reading the longest
    prefix in [p]. *)
Fixpoint last_in (p : ascii -> bool) (pv : option ascii) (s : string) : option ascii :=
  match s with
  | String c t => if p c then last_in p (Some c) t else pv
  | EmptyString => pv
  end.

(** The only whitespace is single spaces, never two in a row. *)
Fixpoint tidy (s : string) : bool :=
  match s with
  | EmptyString => true
  | String c t =>
      (if isspace c then (c =? " ")%char && negb (head_in isspace t) else true)
      && tidy t
  end.

(** Characters that [str.lower] leaves alone. *)
Definition lowered_char (c : ascii) : bool := (lower_char c =? c)%char.

(** *** Lines and bare keys *)

(** [s.split(newline)]: the lines of a text. *)
Fixpoint lines (s : string) : list string :=
  match s with
  | EmptyString => [EmptyString]
  | String c t =>
      if (c =? newline)%char then EmptyString :: lines t
      else match lines t with
           | l :: ls => String c l :: ls
           | [] => [String c EmptyString]
           end
  end.

(** What follows an opening quote and [n] key characters: more key
    characters and, last, a closing quote in [close], with 1 to 40 key
    characters in all. *)
Fixpoint key_tail (close : ascii -> bool) (n : nat) (s : string) : bool :=
  match s with
  | EmptyString => false
  | String c t =>
      match t with
      | EmptyString => close c && (1 <=? n)%nat && (n <=? 40)%nat
      | _ => iskeychar c && key_tail close (S n) t
      end
  end.

(** A quoted key: a quote, 1 to 40 key characters, a quote.  With [same]
    the closing quote has to be the opening one. *)
Definition key_token (same : bool) (s : string) : bool :=
  match s with
  | EmptyString => false
  | String q r => isquote q && key_tail (if same then Ascii.eqb q else isquote) 0 r
  end.

(** A line that holds a quoted key and, around it, whitespace only. *)
Definition key_line (same : bool) (l : string) : bool := key_token same (strip l).

(** The character before the position that follows [s]. *)
Fixpoint last_char (pv : option ascii) (s : string) : option ascii :=
  match s with
  | EmptyString => pv
  | String c t => last_char (Some c) t
  end.

(** The position before [s] ends a line; the position after [pv] begins
    one. *)
Definition at_eol (s : string) : bool :=
  match s with
  | EmptyString => true
  | String c _ => (c =? newline)%char
  end.

Definition at_bol (pv : option ascii) : bool :=
  match pv with
  | None => true
  | Some c => (c =? newline)%char
  end.

(** What a match of the bare-key pattern at a position needs: the position
    begins a line and the text from there is whitespace, a quote, 1 to 40
    key characters, a quote, whitespace, and then the end of a line. *)
Definition key_match (pv : option ascii) (s : string) : Prop :=
  at_bol pv = true /\
  exists ws q1 body q2 ws2 tl,
    s = ws ++ String q1 (body ++ String q2 (ws2 ++ tl)) /\
    all_chars isspace ws = true /\ isquote q1 = true /\
    all_chars iskeychar body = true /\
    (1 <= length body <= 40)%nat /\
    isquote q2 = true /\ all_chars isspace ws2 = true /\ at_eol tl = true.

(** The text up to the first newline. *)
Definition first_line (s : string) : string := hd EmptyString (lines s).

Definition no_newline (c : ascii) : bool := negb (c =? newline)%char.

(** A key between a single and a double quote. *)
Definition mismatched_key : string := String squote "user_id" ++ String dquote EmptyString.

(** *** Ranking *)

(** Index [i] comes before index [j] in an ascending order of the keys [xs]
    that keeps equal keys in index order. *)
Definition stable_lt (xs : list Q) (i j : nat) : Prop :=
  (nth i xs 0 < nth j xs 0)%Q \/ ((nth i xs 0 == nth j xs 0)%Q /\ (i < j)%nat).

(** [argsort] returns the indices of its argument, each once. *)
Definition argsort_indices (argsort : list Q -> list nat) : Prop :=
  forall xs, Permutation (argsort xs) (seq 0 (List.length xs)).

(** [argsort] is ascending and keeps equal keys in index order. *)
Definition argsort_is_stable (argsort : list Q -> list nat) : Prop :=
  forall xs, StronglySorted (stable_lt xs) (argsort xs).

(** Index [i] comes before index [j] in an ascending order of the keys [xs]
    that lists equal keys by descending index. *)
Definition antistable_lt (xs : list Q) (i j : nat) : Prop :=
  (nth i xs 0 < nth j xs 0)%Q \/ ((nth i xs 0 == nth j xs 0)%Q /\ (j < i)%nat).

(** [argsort] is ascending and lists equal keys by descending index. *)
Definition argsort_is_antistable (argsort : list Q -> list nat) : Prop :=
  forall xs, StronglySorted (antistable_lt xs) (argsort xs).

(** How [query] ranks two results of equal score: [R i j] relates the corpus
    positions [i] of the result ranked first and [j] of the one ranked
    after it. *)
Definition tie_order (R : nat -> nat -> Prop) (Vec : Type)
    (cosine_similarity : Vec -> Vec -> Q) (argsort : list Q -> list nat) : Prop :=
  forall (corpus : list Row) (v : Vectorizer Vec) (text : string) (top_k : Z)
         (rs : list SimilarCase) (p q : nat) (a b : SimilarCase),
    let self := __init__ corpus v in
    let sims := similarities Vec cosine_similarity self text in
    query Vec cosine_similarity argsort self text top_k = Ok rs ->
    nth_error rs p = Some a -> nth_error rs q = Some b -> (p < q)%nat ->
    (score a == score b)%Q ->
    exists i j, R i j /\
      similar_case Vec self sims i = Ok a /\ similar_case Vec self sims j = Ok b.

(** Any two results of [query], whatever their scores: the one ranked first
    is at a corpus position that [argsort] lists after the position of the
    other. *)
Definition reverse_of_argsort (Vec : Type)
    (cosine_similarity : Vec -> Vec -> Q) (argsort : list Q -> list nat) : Prop :=
  forall (corpus : list Row) (v : Vectorizer Vec) (text : string) (top_k : Z)
         (rs : list SimilarCase) (p q : nat) (a b : SimilarCase),
    let self := __init__ corpus v in
    let sims := similarities Vec cosine_similarity self text in
    query Vec cosine_similarity argsort self text top_k = Ok rs ->
    nth_error rs p = Some a -> nth_error rs q = Some b -> (p < q)%nat ->
    exists i j pi pj,
      similar_case Vec self sims i = Ok a /\ similar_case Vec self sims j = Ok b /\
      nth_error (argsort sims) pi = Some i /\ nth_error (argsort sims) pj = Some j /\
      (pj < pi)%nat.

(** *** Traces *)

(** The calls of the statistical path: loading the model, vectorizing and
    classifying. *)
Definition is_ml_event (ev : event) : bool :=
  match ev with
  | LoadModel | Transform _ | ClfPredict | ClfPredictProba => true
  | _ => false
  end.

(** The calls of similar-case retrieval. *)
Definition is_retrieval_event (ev : event) : bool :=
  match ev with
  | LoadDefault | Query _ _ => true
  | _ => false
  end.

Definition is_echo (ev : event) : bool :=
  match ev with
  | Echo _ => true
  | _ => false
  end.

(** The trace of a computation. *)
Definition trace {A : Type} (c : M A) : list event := fst c.

(** The floats written [0.30] and [0.40], as the rationals they denote. *)
Definition float_0_30 : Q := 5404319552844595 # 18014398509481984.
Definition float_0_40 : Q := 3602879701896397 # 9007199254740992.

(** *** What a request prints *)

(** A list of lines, echoed one after the other. *)
Definition echoes (lines : list string) : list event := map Echo lines.

(** The banner and the prediction. *)
Definition header_lines (family method : string) (confidence : option Q)
  : list string :=
  [ EmptyString;
    "       * DebugAssist *";
    "==============================";
    match confidence with
    | Some c =>
        NL ++ "Predicted family: " ++ family ++ "   (via " ++ method
           ++ ", confidence=" ++ format_f 2 c ++ ")"
    | None =>
        NL ++ "Predicted family: " ++ family ++ "   (via " ++ method ++ ")"
    end ].

(** A checklist: its title, then a line for each suggestion, or a line that
    says there is none. *)
Definition checklist_lines (title : string) (suggestions : list string)
  : list string :=
  (NL ++ title) ::
  match suggestions with
  | [] => ["  (No playbook suggestions found for this category yet.)"]
  | _ => map (fun s => "  - " ++ s) suggestions
  end.

(** The title of the checklist of a candidate of a low-confidence answer,
    and the line that announces these checklists. *)
Definition candidate_title (cand : string * Q) : string :=
  "Fix Checklist (" ++ fst cand ++ ") (score: " ++ format_f 2 (snd cand) ++ "):".

Definition low_confidence_title : string :=
  NL ++ "Low confidence — showing fix checklists for top candidates:".

(** The request for the exact error. *)
Definition exact_error_lines : list string :=
  [ NL ++ "To improve accuracy, paste the exact error/traceback output from your terminal/IDE.";
    NL ++ "Example:";
    "  python3 -m debugassist.predict --text " ++ DQ
      ++ "Traceback (most recent call last): ..." ++ DQ ++ NL ].

(** The similar cases, numbered from [i]: three lines each. *)
Fixpoint case_lines (i : nat) (cases : list SimilarCase) : list string :=
  match cases with
  | [] => []
  | c :: rest =>
      (NL ++ "  #" ++ digits (Z.of_nat i) ++ "  score=" ++ format_f 3 (score c)
          ++ "  label=" ++ error_family c ++ "  id=" ++ id c)
      :: ("     error: " ++ preview 160 (replace_char newline " " (error_text c)))
      :: ("     fix:   " ++ preview 200 (strip (fix_text c)))
      :: case_lines (S i) rest
  end.

Definition similar_lines (cases : list SimilarCase) : list string :=
  (NL ++ "Similar solved cases:") ::
  match cases with
  | [] => ["  (No similar cases found.)"]
  | _ => (case_lines 1 cases ++ [EmptyString])%list
  end.

(** The environment [e] with another playbook document. *)
Definition with_playbooks {Vec : Type} (e : env Vec) (document : Document)
  : env Vec :=
  {| tfidf_joblib := tfidf_joblib e;
     clf_joblib := clf_joblib e;
     playbooks_yaml := Some document;
     debug_cases_csv := debug_cases_csv e |}.

(** *** Sample inputs *)

(** A stand-in for the vector space: a text is its own vector, and two
    vectors have similarity 1 when they are equal and 0 otherwise. *)
Definition text_vectorizer : Vectorizer string := {| transform := fun x => x |}.

Definition same_text (a b : string) : Q := if a =? b then 1%Q else 0%Q.

(** Two cases with the same error text, so with the same similarity to any
    query. *)
Definition two_cases : list Row :=
  [ {| row_id := "c1"; row_error_family := "key_error";
       row_error_text := "KeyError: 'user_id'"; row_fix_text := "Use dict.get." |};
    {| row_id := "c2"; row_error_family := "key_error";
       row_error_text := "KeyError: 'user_id'"; row_fix_text := "Check the key first." |} ].

(** A classifier over the ten families whose best three probabilities are
    0.30, 0.28 and 0.25. *)
Definition sample_clf : Classifier string :=
  {| predict := fun _ => "type_error";
     predict_proba := Some (fun _ =>
       [ (25#100)%Q; (3#100)%Q; (2#100)%Q; (3#100)%Q; (2#100)%Q;
         (3#100)%Q; (2#100)%Q; (30#100)%Q; (28#100)%Q; (2#100)%Q ]);
     classes_ :=
       [ "attribute_error"; "connection_error"; "file_error"; "import_error";
         "index_error"; "key_error"; "syntax_error"; "type_error";
         "value_error"; "zero_division" ] |}.

(** A classifier that has no [predict_proba]. *)
Definition sample_clf_no_proba : Classifier string :=
  {| predict := fun _ => "type_error"; predict_proba := None; classes_ := [] |}.

(** A classifier over four families whose probabilities are 0.2, 0.2, 0.2
    and 0.4. *)
Definition sample_clf_40 : Classifier string :=
  {| predict := fun _ => "type_error";
     predict_proba := Some (fun _ => [ (2#10)%Q; (2#10)%Q; (2#10)%Q; (4#10)%Q ]);
     classes_ := [ "import_error"; "index_error"; "key_error"; "type_error" ] |}.

(** A playbook with two sections, and one whose entry for [value_error] is
    null. *)
Definition sample_playbooks : Playbooks :=
  [ ("type_error",
     Mapping
       {| checklist := Some ["Check the types of the operands."];
          keyword_tips := Some [("not callable", Some ["Remove the call parentheses."])] |});
    ("key_error",
     Mapping
       {| checklist := Some ["Check that the key exists."]; keyword_tips := Some [] |}) ].

Definition broken_playbooks : Playbooks :=
  (sample_playbooks ++ [("value_error", NotMapping)])%list.

Definition sample_env (clf : Classifier string) : env string :=
  {| tfidf_joblib := Some text_vectorizer;
     clf_joblib := Some clf;
     playbooks_yaml := Some (Dict sample_playbooks);
     debug_cases_csv := Some (Some two_cases) |}.

(** An ascending [argsort] that lists equal keys by descending index. *)
Fixpoint insert_after (key : nat -> Q) (i : nat) (l : list nat) : list nat :=
  match l with
  | [] => [i]
  | j :: l' =>
      if Qle_bool (key j) (key i) then j :: insert_after key i l' else i :: l
  end.

Definition argsort_antistable (xs : list Q) : list nat :=
  fold_right (insert_after (fun i => nth i xs 0%Q)) [] (seq 0 (List.length xs)).


(** The six mask patterns of [normalize_text], in the order it applies
    them. *)
Definition mask_patterns : list pattern :=
  [_WINDOWS_PATH_RE; _UNIX_PATH_RE; _LINE_NUMBER_RE; _HEX_RE; _QUOTED_STR_RE;
   _PLAIN_INT_RE].

(** No mask pattern is found in [t]. *)
Definition unmasked (t : string) : bool :=
  forallb (fun p => negb (search p t)) mask_patterns.

(** The 256 characters. *)
Definition all_ascii_chars : list ascii := map ascii_of_nat (seq 0 256).

(** A class that does not tell a letter from its lowercase. *)
Definition class_blind (p : ascii -> bool) : bool :=
  forallb (fun c => Bool.eqb (p (lower_char c)) (p c)) all_ascii_chars.

(** Patterns that match a text exactly when they match its lowercase:
    literals under IGNORECASE, classes blind to case, no groups. *)
Fixpoint case_blind (f : flags) (r : regex) : bool :=
  match r with
  | Eps | WordB | Bol | Eol => true
  | Lit _ => ignorecase f
  | Cls p => class_blind p
  | Seq a b => case_blind f a && case_blind f b
  | Rep _ _ _ a => case_blind f a
  | Grp _ _ | Ref _ | Look _ => false
  end.

(** A position in the lowercased subject. *)
Definition low (st : pos) : pos :=
  {| prev := option_map lower_char (prev st); rest := lower (rest st);
     caps := caps st |}.

(** Two continuations that go together: one on the subject, the other on
    its lowercase. *)
Definition together (k k' : pos -> option pos) : Prop :=
  forall st, k' (low st) = option_map low (k st).

(** A word boundary between the character [pv] (none at the start of the
    text) and the text [s] that follows. *)
Definition boundary (pv : option ascii) (s : string) : bool :=
  xorb (match pv with Some c => isword c | None => false end) (head_in isword s).

(** The phrase [w] occurs in [text], whatever the case of its letters, with
    a word boundary before it and, when [closed], one after it. *)
Definition occurs_phrase (closed : bool) (w text : string) : Prop :=
  exists pre mid post,
    text = pre ++ mid ++ post /\ lower mid = lower w /\
    boundary (last_char None pre) (mid ++ post) = true /\
    (closed = true -> boundary (last_char (last_char None pre) mid) post = true).

(** A rule list without its rule number [n], counting from 0. *)
Definition without_rule (n : nat) (rules : list (string * pattern))
  : list (string * pattern) :=
  (firstn n rules ++ skipn (S n) rules)%list.
(** [argsort] is ascending: the keys of its result never decrease. *)
Definition argsort_ascending (argsort : list Q -> list nat) : Prop :=
  forall xs, StronglySorted (fun i j => (nth i xs 0 <= nth j xs 0)%Q) (argsort xs).

(** Three cases, the second of which has the text of the query used below. *)
Definition mixed_cases : list Row :=
  [ {| row_id := "m1"; row_error_family := "type_error";
       row_error_text := "TypeError: 'int' object is not callable";
       row_fix_text := "Remove the call." |};
    {| row_id := "m2"; row_error_family := "key_error";
       row_error_text := "KeyError: 'user_id'"; row_fix_text := "Use dict.get." |};
    {| row_id := "m3"; row_error_family := "index_error";
       row_error_text := "IndexError: list index out of range";
       row_fix_text := "Check the length." |} ].
(** The key phrases of a section are ASCII texts. *)
Definition ascii_keys (section : Section_) : bool :=
  match keyword_tips section with
  | Some kt => forallb (fun kv => ascii_text (fst kv)) kt
  | None => true
  end.

(** The probabilities of [l] never increase. *)
Definition descending {A : Type} (key : A -> Q) (l : list A) : Prop :=
  StronglySorted (fun a b => (key b <= key a)%Q) l.

(** A classifier with a tie for the highest probability, and one that gives
    a probability too few. *)
Definition tied_clf : Classifier string :=
  {| predict := fun _ => "key_error";
     predict_proba := Some (fun _ => [ (2#10)%Q; (4#10)%Q; (2#5)%Q ]);
     classes_ := [ "index_error"; "key_error"; "type_error" ] |}.

Definition short_clf : Classifier string :=
  {| predict := fun _ => "key_error";
     predict_proba := Some (fun _ => [ (1#2)%Q ]);
     classes_ := [ "index_error"; "key_error" ] |}.
(** The sample files with some of them missing. *)
Definition env_without (model playbook dataset : bool) : env string :=
  {| tfidf_joblib := if model then None else Some text_vectorizer;
     clf_joblib := if model then None else Some sample_clf;
     playbooks_yaml := if playbook then None else Some (Dict sample_playbooks);
     debug_cases_csv := if dataset then None else Some (Some two_cases) |}.

(** A classifier that is sure of its answer. *)
Definition sure_clf : Classifier string :=
  {| predict := fun _ => "key_error";
     predict_proba := Some (fun _ => [ (1#10)%Q; (9#10)%Q ]);
     classes_ := [ "index_error"; "key_error" ] |}.
(** The sum of the counts of a plan. *)
Definition plan_size (counts : list (string * Z)) : Z :=
  fold_right Z.add 0%Z (map snd counts).

(** Exactly one of the two options is given, and it is positive. *)
Definition plan_request_ok (total per_class : option Z) : bool :=
  match total, per_class with
  | Some n, None | None, Some n => (0 <? n)%Z
  | _, _ => false
  end.

(** The only line boundaries of [s] are newlines. *)
Definition newline_breaks_only (s : string) : bool :=
  all_chars (fun c => implb (islinebreak c) (isnewline c)) s.

(** A rendered traceback of four lines. *)
Definition sample_trace : string :=
  "Traceback (most recent call last):" ++ NL
  ++ "  File main.py, line 3, in <module>" ++ NL
  ++ "    import yaml" ++ NL
  ++ "ModuleNotFoundError: No module named 'yaml'" ++ NL.

(* ================================================================= *)
(** * Properties *)

(** ** Strings *)

(** Case analysis over the 256 characters. *)
Ltac all_ascii :=
  let c := fresh "c" in
  intros c; destruct c as [[] [] [] [] [] [] [] []]; vm_compute;
  try reflexivity; intros; discriminate.

Lemma lstrip_blank (s : string) : blank s = true -> lstrip s = EmptyString.
Proof.
  induction s as [|c t IH]; simpl; [reflexivity|].
  intros H. apply andb_true_iff in H. destruct H as [Hc Ht].
  rewrite Hc. auto.
Qed.

Lemma strip_blank (s : string) : blank s = true -> strip s = EmptyString.
Proof.
  intros H. unfold strip. rewrite (lstrip_blank s H). reflexivity.
Qed.

(** ** The matcher *)

Lemma rep_S body g n lo hi st k :
  rep body g (S n) lo hi st k =
  let again :=
    match hi with
    | Some 0 => None
    | _ => body st (fun st' =>
             if (length (rest st') <? length (rest st))%nat
             then rep body g n (pred lo) (option_map pred hi) st' k
             else None)
    end in
  if (0 <? lo)%nat then again
  else if g then orelse again (k st) else orelse (k st) again.
Proof. reflexivity. Qed.

Lemma m_cls f p st k :
  m f (Cls p) st k =
  match rest st with
  | String x t => if p x then k (advance st x t) else None
  | EmptyString => None
  end.
Proof. reflexivity. Qed.

Lemma ltb_tail (c : ascii) (t : string) :
  (length t <? length (String c t))%nat = true.
Proof. apply Nat.ltb_lt. simpl. lia. Qed.

Lemma rep_0 body g lo hi st k :
  rep body g 0 lo hi st k = if Nat.eqb lo 0 then k st else None.
Proof. reflexivity. Qed.

Lemma pos_eta st : {| prev := prev st; rest := rest st; caps := caps st |} = st.
Proof. destruct st; reflexivity. Qed.

Section MatcherFacts.
Variable f : flags.

Lemma m_seq a b st k : m f (Seq a b) st k = m f a st (fun st' => m f b st' k).
Proof. reflexivity. Qed.

Lemma m_rep g lo hi a st k :
  m f (Rep g lo hi a) st k = rep (m f a) g (S (length (rest st))) lo hi st k.
Proof. reflexivity. Qed.

Lemma rep_first body g n lo hi st k :
  (0 < lo)%nat ->
  body st (fun st' =>
    if (length (rest st') <? length (rest st))%nat
    then rep body g n (pred lo) (option_map pred hi) st' k else None) = None ->
  rep body g (S n) lo hi st k = None.
Proof.
  intros Hlo Hb. simpl.
  destruct lo as [|lo]; [lia|]. simpl.
  destruct hi as [[|h]|]; auto.
Qed.

Lemma zero_width_pass a st k :
  zero_width a = true -> m f a st k = None \/ m f a st k = k st.
Proof.
  destruct a; try discriminate; intros _; simpl; auto.
  - destruct (xorb _ _); auto.
  - destruct (prev st); auto. destruct (_ && _); auto.
  - destruct (rest st); auto. destruct (_ && _); auto.
Qed.

(** A pattern cannot match where the first character it has to read is
    not in its head class. *)
Lemma head_class_fail r : forall p st k,
  head_class f r = Some p -> head_in p (rest st) = false -> m f r st k = None.
Proof.
  induction r; intros p st k Hh Hs; simpl in Hh; try discriminate.
  - injection Hh as <-. simpl. destruct (rest st); simpl in *; [reflexivity|].
    rewrite Hs. reflexivity.
  - injection Hh as <-. simpl. destruct (rest st); simpl in *; [reflexivity|].
    rewrite Hs. reflexivity.
  - rewrite m_seq. destruct (zero_width r1) eqn:Z.
    + destruct (zero_width_pass r1 st (fun st' => m f r2 st' k) Z) as [E|E];
        rewrite E; [reflexivity|]. eapply IHr2; eauto.
    + eapply IHr1; eauto.
  - destruct (0 <? lo)%nat eqn:L; [|discriminate].
    apply Nat.ltb_lt in L. rewrite m_rep. apply rep_first; [exact L|].
    eapply IHr; eauto.
  - simpl. eapply IHr; eauto.
Qed.

Section Closed.
(** A set of subjects closed under dropping the first character. *)
Variable ok : string -> Prop.
Hypothesis ok_tail : forall c t, ok (String c t) -> ok t.

Lemma read_word_ok w : forall st st',
  ok (rest st) -> read_word f w st = Some st' -> ok (rest st').
Proof.
  induction w as [|a w IH]; intros st st' Hst H; simpl in H.
  - injection H as <-. exact Hst.
  - destruct (rest st) as [|x t] eqn:E; [discriminate|].
    destruct (chr_eq f a x); [|discriminate].
    apply (IH (advance st x t) st'); [simpl; eauto | exact H].
Qed.

Lemma rep_fail body g k :
  (forall st k', ok (rest st) ->
     (forall st', ok (rest st') -> k' st' = None) -> body st k' = None) ->
  (forall st', ok (rest st') -> k st' = None) ->
  forall n lo hi st, ok (rest st) -> rep body g n lo hi st k = None.
Proof.
  intros Hbody Hk. induction n as [|n IH]; intros lo hi st Hst; simpl.
  - destruct (Nat.eqb lo 0); auto.
  - assert (A : match hi with
                | Some 0 => None
                | _ => body st (fun st' =>
                    if (length (rest st') <? length (rest st))%nat
                    then rep body g n (pred lo) (option_map pred hi) st' k
                    else None)
                end = None).
    { assert (B : body st (fun st' =>
                    if (length (rest st') <? length (rest st))%nat
                    then rep body g n (pred lo) (option_map pred hi) st' k
                    else None) = None).
      { apply Hbody; [exact Hst|]. intros st' Hst'.
        destruct (_ <? _)%nat; auto. }
      destruct hi as [[|h]|]; auto. }
    rewrite A. rewrite (Hk st Hst).
    destruct (0 <? lo)%nat, g; reflexivity.
Qed.

(** Reading on from a subject of the set, a pattern fails when what
    follows it fails on every subject of the set. *)
Lemma m_fail r : forall st k,
  ok (rest st) -> (forall st', ok (rest st') -> k st' = None) -> m f r st k = None.
Proof.
  induction r; intros st k Hst Hk; try rewrite m_rep; try rewrite m_seq;
    [simpl | simpl | simpl | | | simpl | simpl | simpl | simpl | simpl | simpl].
  - auto.
  - destruct (rest st) as [|x t] eqn:E; [reflexivity|].
    destruct (chr_eq f c x); [|reflexivity].
    apply Hk. simpl. eauto.
  - destruct (rest st) as [|x t] eqn:E; [reflexivity|].
    destruct (f0 x); [|reflexivity].
    apply Hk. simpl. eauto.
  - apply IHr1; [exact Hst|]. intros st' Hst'. apply IHr2; assumption.
  - apply rep_fail; assumption.
  - destruct (xorb _ _); auto.
  - destruct (prev st); auto. destruct (_ && _); auto.
  - destruct (rest st) eqn:E.
    + apply Hk. rewrite E. exact Hst.
    + destruct (_ && _); auto. apply Hk. rewrite E. exact Hst.
  - apply IHr; [exact Hst|]. intros st' Hst'. apply Hk. exact Hst'.
  - destruct (get_cap n (caps st)) as [w|]; [|reflexivity].
    destruct (read_word f w st) as [st'|] eqn:E; [|reflexivity].
    apply Hk. eapply read_word_ok; eauto.
  - destruct (m f r st Some) as [st'|]; [|reflexivity].
    apply Hk. exact Hst.
Qed.

Lemma seq_fail a b st k :
  ok (rest st) ->
  (forall st', ok (rest st') -> m f b st' k = None) ->
  m f (Seq a b) st k = None.
Proof. intros Hst Hb. rewrite m_seq. apply m_fail; assumption. Qed.

(** No match anywhere, so nothing to replace. *)
Lemma sub_from_none p repl :
  (forall pv s, ok s -> match_at p pv s = None) ->
  forall n pv s, ok s -> sub_from n p repl pv s = s.
Proof.
  intros Hp. induction n as [|n IH]; intros pv s Hs; simpl; [reflexivity|].
  rewrite (Hp pv s Hs). destruct s as [|c t]; [reflexivity|].
  rewrite (IH (Some c) t (ok_tail _ _ Hs)). reflexivity.
Qed.
End Closed.
End MatcherFacts.

(** ** The rule classifier *)

Lemma first_match_skip (before rules : list (string * pattern)) (text : string) :
  (forall r, In r before -> search (snd r) text = false) ->
  first_match (before ++ rules)%list text = first_match rules text.
Proof.
  induction before as [|[fam pat] before IH]; intros H; simpl; [reflexivity|].
  pose proof (H (fam, pat) (or_introl eq_refl)) as Hm. simpl in Hm.
  rewrite Hm.
  apply IH. intros r Hr. apply H. right. exact Hr.
Qed.

Lemma no_rule_matches_empty :
  forallb (fun r => negb (search (snd r) EmptyString)) _RULES = true.
Proof. vm_compute. reflexivity. Qed.

Lemma rule_predict_nonblank (error_text : string) :
  strip error_text <> EmptyString ->
  rule_predict error_text = first_match _RULES (strip error_text).
Proof.
  intros H. unfold rule_predict.
  destruct error_text as [|c t]; [exfalso; apply H; reflexivity|].
  destruct (strip (String c t)) as [|c' t'] eqn:E; [exfalso; apply H; reflexivity|].
  reflexivity.
Qed.

(** C7. An empty or whitespace-only input gets no decision from the rules:
    [rule_predict] returns [None] (it has no other way to end on such an
    input: the function is total and returns a family or [None]). *)
Theorem rule_predict_blank (error_text : string) :
  blank error_text = true -> rule_predict error_text = None.
Proof.
  intros H. unfold rule_predict.
  rewrite (strip_blank error_text H). simpl.
  rewrite orb_true_r. reflexivity.
Qed.

Lemma rule_predict_blank_witness :
  blank (String " " (String newline (String "009" EmptyString))) = true /\
  rule_predict (String " " (String newline (String "009" EmptyString))) = None.
Proof.
  split; [reflexivity|].
  apply rule_predict_blank. reflexivity.
Defined.

(** C4. The rules are tried in the order of [_RULES]: when the pattern of a
    rule is found in the text and the pattern of no rule declared before it
    is, [rule_predict] returns the family of that rule; a rule of another
    family declared after it does not win, though its pattern is found as
    well and wherever in the text it is.  The text searched is the stripped
    input, as [rule_predict] passes it. *)
Theorem rule_precedence (error_text : string)
    (before after : list (string * pattern)) (family : string) (pat : pattern) :
  _RULES = (before ++ (family, pat) :: after)%list ->
  search pat (strip error_text) = true ->
  (forall r, In r before -> search (snd r) (strip error_text) = false) ->
  rule_predict error_text = Some family /\
  (forall family' pat',
     In (family', pat') after -> search pat' (strip error_text) = true ->
     family' <> family -> rule_predict error_text <> Some family').
Proof.
  intros Hsplit Hhit Hmiss.
  assert (Hne : strip error_text <> EmptyString).
  { intros E. rewrite E in Hhit.
    pose proof no_rule_matches_empty as Hall.
    rewrite forallb_forall in Hall.
    specialize (Hall (family, pat)).
    rewrite Hsplit in Hall.
    assert (Hin : In (family, pat) (before ++ (family, pat) :: after)%list)
      by (apply in_or_app; right; left; reflexivity).
    specialize (Hall Hin). simpl in Hall. rewrite Hhit in Hall. discriminate. }
  assert (Hres : rule_predict error_text = Some family).
  { rewrite (rule_predict_nonblank _ Hne), Hsplit.
    rewrite (first_match_skip _ _ _ Hmiss). simpl.
    rewrite Hhit. reflexivity. }
  split; [exact Hres|].
  intros family' pat' _ _ Hdiff. rewrite Hres. congruence.
Qed.

Lemma rule_precedence_witness :
  search (word_rule "list index out of range")
         (strip "list index out of range: KeyError") = true /\
  rule_predict "list index out of range: KeyError" = Some "key_error" /\
  rule_predict "list index out of range: KeyError" <> Some "index_error".
Proof.
  split; [vm_compute; reflexivity|].
  destruct (rule_precedence "list index out of range: KeyError"
              (firstn 19 _RULES) (skipn 20 _RULES) "key_error" (word_rule "keyerror"))
    as [H1 H2].
  - reflexivity.
  - vm_compute. reflexivity.
  - assert (H : forallb (fun r => negb (search (snd r)
                  (strip "list index out of range: KeyError")))
                  (firstn 19 _RULES) = true) by (vm_compute; reflexivity).
    intros r Hr. rewrite forallb_forall in H. apply negb_true_iff, H, Hr.
  - split; [exact H1|].
    apply (H2 "index_error" (word_rule "list index out of range")).
    + vm_compute. auto.
    + vm_compute. reflexivity.
    + discriminate.
Defined.

(** ** The normalizer *)

Lemma plain_tail c t : plain (String c t) = true -> plain t = true.
Proof. unfold plain. simpl. intros H. apply andb_true_iff in H. tauto. Qed.

Lemma plain_head p s :
  (forall c, plain_char c = true -> p c = false) ->
  plain s = true -> head_in p s = false.
Proof.
  intros Hp H. destruct s as [|c t]; [reflexivity|]. simpl.
  apply Hp. unfold plain in H. simpl in H. apply andb_true_iff in H. tauto.
Qed.

Lemma plain_not_digit : forall c, plain_char c = true -> isdigit c = false.
Proof. all_ascii. Qed.
Lemma plain_not_quote : forall c, plain_char c = true -> isquote c = false.
Proof. all_ascii. Qed.
Lemma plain_not_slash f : forall c, plain_char c = true ->
  chr_eq {| ignorecase := f; multiline := false |} "/" c = false.
Proof. destruct f; all_ascii. Qed.
Lemma plain_not_backslash : forall c, plain_char c = true ->
  chr_eq (fl _WINDOWS_PATH_RE) backslash c = false.
Proof. all_ascii. Qed.
Lemma plain_not_zero : forall c, plain_char c = true ->
  chr_eq (fl _HEX_RE) "0" c = false.
Proof. all_ascii. Qed.

Lemma windows_path_none pv s : plainP s -> match_at _WINDOWS_PATH_RE pv s = None.
Proof.
  intros H. unfold match_at.
  change (re _WINDOWS_PATH_RE) with
    (Seq (Cls isalpha) (Seq (Lit ":") (cat [Lit backslash;
       star (Seq (plus (Cls not_bslash_nl)) (Lit backslash));
       plus (Cls not_bslash_nl)]))).
  apply (seq_fail _ plainP plain_tail); [exact H|]. intros st1 H1.
  apply (seq_fail _ plainP plain_tail); [exact H1|]. intros st2 H2.
  eapply head_class_fail; [reflexivity|].
  apply plain_head; [apply plain_not_backslash | exact H2].
Qed.

Lemma unix_path_none pv s : plainP s -> match_at _UNIX_PATH_RE pv s = None.
Proof.
  intros H. unfold match_at.
  eapply head_class_fail; [reflexivity|].
  apply plain_head; [apply (plain_not_slash false) | exact H].
Qed.

Lemma line_number_none pv s : plainP s -> match_at _LINE_NUMBER_RE pv s = None.
Proof.
  intros H. unfold match_at.
  change (re _LINE_NUMBER_RE) with
    (Seq WordB (Seq (lits "line") (Seq (plus (Cls isspace))
       (cat [plus (Cls isdigit); WordB])))).
  do 3 (apply (seq_fail _ plainP plain_tail); [assumption|]; intros ? ?).
  eapply head_class_fail; [reflexivity|].
  apply plain_head; [apply plain_not_digit | assumption].
Qed.

Lemma hex_none pv s : plainP s -> match_at _HEX_RE pv s = None.
Proof.
  intros H. unfold match_at.
  eapply head_class_fail; [reflexivity|].
  apply plain_head; [apply plain_not_zero | exact H].
Qed.

Lemma quoted_str_none pv s : plainP s -> match_at _QUOTED_STR_RE pv s = None.
Proof.
  intros H. unfold match_at.
  eapply head_class_fail; [reflexivity|].
  apply plain_head; [apply plain_not_quote | exact H].
Qed.

Lemma plain_int_none pv s : plainP s -> match_at _PLAIN_INT_RE pv s = None.
Proof.
  intros H. unfold match_at.
  eapply head_class_fail; [reflexivity|].
  apply plain_head; [apply plain_not_digit | exact H].
Qed.

Lemma lstrip_length s : (length (lstrip s) <= length s)%nat.
Proof.
  induction s as [|c t IH]; simpl; [lia|]. destruct (isspace c); simpl; lia.
Qed.

Lemma rep_space_greedy f : forall n st,
  (length (rest st) < n)%nat ->
  rep (m f (Cls isspace)) true n 0 None st Some =
  Some {| prev := last_in isspace (prev st) (rest st);
          rest := lstrip (rest st); caps := caps st |}.
Proof.
  induction n as [|n IH]; intros [pv s cs] Hn; [inversion Hn|].
  rewrite rep_S, m_cls. cbn [rest prev caps] in *. cbv zeta.
  destruct s as [|c t]; [reflexivity|].
  cbn [last_in lstrip]. destruct (isspace c) eqn:Ec; [|reflexivity].
  cbn [advance rest prev caps]. rewrite ltb_tail.
  rewrite IH by (simpl in *; lia). reflexivity.
Qed.

Lemma match_at_whitespace pv s :
  match_at _WHITESPACE_RE pv s =
  match s with
  | String c t =>
      if isspace c
      then Some {| prev := last_in isspace (Some c) t; rest := lstrip t; caps := [] |}
      else None
  | EmptyString => None
  end.
Proof.
  unfold match_at.
  change (re _WHITESPACE_RE) with (Rep true 1 None (Cls isspace)).
  rewrite m_rep, rep_S, m_cls. cbn [rest prev caps]. cbv zeta.
  destruct s as [|c t]; [reflexivity|].
  destruct (isspace c); [|reflexivity].
  cbn [advance rest prev caps]. rewrite ltb_tail.
  rewrite rep_space_greedy by (simpl; lia). reflexivity.
Qed.

Lemma collapse_lstrip t : collapse true t = collapse false (lstrip t).
Proof.
  induction t as [|c t IH]; simpl; [reflexivity|].
  destruct (isspace c) eqn:E; [exact IH|]. simpl. rewrite E. reflexivity.
Qed.

Lemma sub_whitespace : forall n pv s,
  (length s < n)%nat -> sub_from n _WHITESPACE_RE " " pv s = collapse false s.
Proof.
  induction n as [|n IH]; intros pv s Hn; [inversion Hn|].
  simpl. rewrite match_at_whitespace. destruct s as [|c t]; [reflexivity|].
  simpl in Hn. destruct (isspace c) eqn:E; simpl; rewrite E.
  - pose proof (lstrip_length t) as L.
    assert (L' : (length (lstrip t) <? S (length t))%nat = true)
      by (apply Nat.ltb_lt; lia).
    rewrite IH by lia. rewrite L', collapse_lstrip. reflexivity.
  - rewrite IH by lia. reflexivity.
Qed.

(** *** strip, lower and collapse on character sets *)

Lemma all_chars_lstrip p s : all_chars p s = true -> all_chars p (lstrip s) = true.
Proof.
  induction s as [|c t IH]; simpl; [reflexivity|]. intros H.
  destruct (isspace c); [|exact H].
  apply andb_true_iff in H. tauto.
Qed.

Lemma all_chars_rstrip p s : all_chars p s = true -> all_chars p (rstrip s) = true.
Proof.
  induction s as [|c t IH]; simpl; [reflexivity|]. intros H.
  apply andb_true_iff in H. destruct H as [Hc Ht].
  specialize (IH Ht). destruct (rstrip t) as [|x r].
  - destruct (isspace c); simpl; [reflexivity|]. rewrite Hc. reflexivity.
  - change (p c && all_chars p (String x r) = true). rewrite Hc, IH. reflexivity.
Qed.

Lemma all_chars_strip p s : all_chars p s = true -> all_chars p (strip s) = true.
Proof. intros H. apply all_chars_rstrip, all_chars_lstrip, H. Qed.

Lemma all_chars_collapse p b s :
  p " "%char = true -> all_chars p s = true -> all_chars p (collapse b s) = true.
Proof.
  intros Hsp. revert b. induction s as [|c t IH]; intros b H; simpl; [reflexivity|].
  simpl in H. apply andb_true_iff in H. destruct H as [Hc Ht].
  destruct (isspace c); [destruct b|]; simpl; rewrite ?Hsp, ?Hc; simpl; auto.
Qed.

Lemma all_chars_lower p s :
  (forall c, p c = true -> p (lower_char c) = true) ->
  all_chars p s = true -> all_chars p (lower s) = true.
Proof.
  intros Hp. induction s as [|c t IH]; simpl; [reflexivity|]. intros H.
  apply andb_true_iff in H. destruct H as [Hc Ht].
  rewrite (Hp c Hc), (IH Ht). reflexivity.
Qed.

Lemma lower_char_plain : forall c, plain_char c = true -> plain_char (lower_char c) = true.
Proof. all_ascii. Qed.

Lemma lower_char_lowered : forall c, lowered_char (lower_char c) = true.
Proof. all_ascii. Qed.

Lemma lowered_lower s : all_chars lowered_char (lower s) = true.
Proof.
  induction s as [|c t IH]; simpl; [reflexivity|].
  rewrite lower_char_lowered, IH. reflexivity.
Qed.

Lemma lower_lowered s : all_chars lowered_char s = true -> lower s = s.
Proof.
  induction s as [|c t IH]; simpl; [reflexivity|]. intros H.
  apply andb_true_iff in H. destruct H as [Hc Ht].
  apply Ascii.eqb_eq in Hc. rewrite Hc, (IH Ht). reflexivity.
Qed.

(** *** strip is idempotent *)

Lemma lstrip_head s : head_in isspace (lstrip s) = false.
Proof.
  induction s as [|c t IH]; simpl; [reflexivity|].
  destruct (isspace c) eqn:E; [exact IH|]. simpl. exact E.
Qed.

Lemma lstrip_fixed s : head_in isspace s = false -> lstrip s = s.
Proof. destruct s as [|c t]; simpl; [reflexivity|]. intros ->. reflexivity. Qed.

Lemma rstrip_head s : head_in isspace s = false -> head_in isspace (rstrip s) = false.
Proof.
  destruct s as [|c t]; simpl; [reflexivity|]. intros E.
  destruct (rstrip t); [rewrite E|]; simpl; auto.
Qed.

Lemma rstrip_rstrip s : rstrip (rstrip s) = rstrip s.
Proof.
  induction s as [|c t IH]; simpl; [reflexivity|].
  destruct (rstrip t) as [|x r] eqn:E.
  - destruct (isspace c) eqn:Ec; simpl; [reflexivity|]. rewrite Ec. reflexivity.
  - change (rstrip (String c (String x r))) with
      (match rstrip (String x r) with
       | EmptyString => if isspace c then EmptyString else String c EmptyString
       | r' => String c r'
       end).
    rewrite IH. reflexivity.
Qed.

Lemma strip_strip s : strip (strip s) = strip s.
Proof.
  unfold strip.
  rewrite (lstrip_fixed (rstrip (lstrip s))) by apply rstrip_head, lstrip_head.
  apply rstrip_rstrip.
Qed.

(** *** collapsed text *)

Lemma collapse_tidy s : forall b,
  tidy (collapse b s) = true /\ head_in isspace (collapse true s) = false.
Proof.
  induction s as [|c t IH]; intros b; simpl; [auto|].
  destruct (IH true) as [T1 H1]. destruct (IH false) as [T0 _].
  destruct (isspace c) eqn:E.
  - split; [|exact H1]. destruct b; [exact T1|].
    simpl. rewrite H1, T1. reflexivity.
  - simpl. rewrite E, T0. auto.
Qed.

Lemma tidy_lstrip s : tidy s = true -> tidy (lstrip s) = true.
Proof.
  induction s as [|c t IH]; [reflexivity|]. intros H.
  cbn [lstrip]. destruct (isspace c); [|exact H].
  simpl in H. apply andb_true_iff in H. tauto.
Qed.

Lemma rstrip_head_eq t x r : rstrip t = String x r -> head_in isspace t = isspace x.
Proof.
  destruct t as [|c t']; simpl; [discriminate|].
  destruct (rstrip t'); [destruct (isspace c) eqn:Ec|]; intros H; inversion H;
    subst; congruence.
Qed.

Lemma tidy_rstrip s : tidy s = true -> tidy (rstrip s) = true.
Proof.
  induction s as [|c t IH]; simpl; [reflexivity|]. intros H.
  apply andb_true_iff in H. destruct H as [Hc Ht]. specialize (IH Ht).
  destruct (rstrip t) as [|x r] eqn:E.
  - destruct (isspace c) eqn:Ec; simpl; [reflexivity|]. rewrite Ec. reflexivity.
  - change (((if isspace c then (c =? " ")%char && negb (isspace x) else true)
             && tidy (String x r)) = true).
    rewrite IH, andb_true_r. rewrite (rstrip_head_eq _ _ _ E) in Hc. exact Hc.
Qed.

Lemma collapse_head s : head_in isspace s = false -> collapse true s = collapse false s.
Proof. destruct s as [|c t]; simpl; [reflexivity|]. intros ->. reflexivity. Qed.

Lemma collapse_fixed s : tidy s = true -> collapse false s = s.
Proof.
  induction s as [|c t IH]; simpl; [reflexivity|]. intros H.
  apply andb_true_iff in H. destruct H as [Hc Ht].
  destruct (isspace c).
  - apply andb_true_iff in Hc. destruct Hc as [Hc Hh].
    apply Ascii.eqb_eq in Hc. apply negb_true_iff in Hh.
    rewrite (collapse_head _ Hh), (IH Ht), Hc. reflexivity.
  - rewrite (IH Ht). reflexivity.
Qed.

(** *** normalize_text on text without digits, quotes, slashes, backslashes *)

Lemma sub_plain p repl s :
  (forall pv t, plainP t -> match_at p pv t = None) ->
  plain s = true -> sub p repl s = s.
Proof.
  intros Hp Hs. unfold sub.
  apply (sub_from_none plainP plain_tail p repl Hp). exact Hs.
Qed.

Lemma normalize_plain s :
  plain s = true ->
  normalize_text s = strip (collapse false (lower (strip s))).
Proof.
  intros H. unfold normalize_text.
  assert (P : plain (lower (strip s)) = true).
  { apply all_chars_lower; [exact lower_char_plain|].
    apply all_chars_strip. exact H. }
  rewrite (sub_plain _ _ _ windows_path_none P).
  rewrite (sub_plain _ _ _ unix_path_none P).
  rewrite (sub_plain _ _ _ line_number_none P).
  rewrite (sub_plain _ _ _ hex_none P).
  rewrite (sub_plain _ _ _ quoted_str_none P).
  rewrite (sub_plain _ _ _ plain_int_none P).
  unfold sub. rewrite sub_whitespace by lia. reflexivity.
Qed.

(** C1, as the code has it.  On an ASCII text without digits, quotes,
    slashes and backslashes no mask applies, and normalizing the normalized
    text gives the same text again. *)
Theorem normalize_idempotent_plain (s : string) :
  ascii_text s = true -> plain s = true ->
  normalize_text (normalize_text s) = normalize_text s.
Proof.
  intros _ H. rewrite (normalize_plain s H).
  set (v := collapse false (lower (strip s))).
  assert (Pv : plain v = true).
  { apply all_chars_collapse; [reflexivity|].
    apply all_chars_lower; [exact lower_char_plain|].
    apply all_chars_strip. exact H. }
  assert (Lv : all_chars lowered_char v = true).
  { apply all_chars_collapse; [reflexivity|]. apply lowered_lower. }
  assert (Tv : tidy v = true) by apply collapse_tidy.
  rewrite normalize_plain by (apply all_chars_strip; exact Pv).
  rewrite strip_strip.
  rewrite (lower_lowered (strip v)) by (apply all_chars_strip; exact Lv).
  rewrite (collapse_fixed (strip v)) by (apply tidy_rstrip, tidy_lstrip; exact Tv).
  apply strip_strip.
Qed.

Lemma normalize_idempotent_plain_witness :
  ascii_text "  Traceback (most recent call last):
   NameError: name x is not defined " = true /\
  plain "  Traceback (most recent call last):
   NameError: name x is not defined " = true /\
  normalize_text (normalize_text "  Traceback (most recent call last):
   NameError: name x is not defined ")
  = normalize_text "  Traceback (most recent call last):
   NameError: name x is not defined ".
Proof.
  split; [reflexivity|]. split; [reflexivity|].
  apply normalize_idempotent_plain; reflexivity.
Defined.

(** C9. The normalized traceback line carries the masked line number,
    [line <LINE>], and no [42]. *)
Theorem normalize_masks_line_number :
  normalize_text traceback_line = "file <STR>, line <LINE>" /\
  contains "line <LINE>" (normalize_text traceback_line) = true /\
  contains "42" (normalize_text traceback_line) = false.
Proof. vm_compute. repeat split. Qed.

(** C1, as stated, fails: a masked path is [<PATH>], which a second pass
    lowercases.  Nor is it a matter of case only: joining two lines can
    make a path that the first pass did not see. *)
Lemma normalize_not_idempotent :
  normalize_text "/a" = "<PATH>" /\
  normalize_text (normalize_text "/a") = "<path>" /\
  normalize_text "c:\
x" = "c:\ x" /\
  normalize_text (normalize_text "c:\
x") = "<PATH>" /\
  ~ (forall s, normalize_text (normalize_text s) = normalize_text s).
Proof.
  assert (H1 : normalize_text "/a" = "<PATH>") by (vm_compute; reflexivity).
  assert (H2 : normalize_text (normalize_text "/a") = "<path>") by (vm_compute; reflexivity).
  split; [exact H1|]. split; [exact H2|].
  split; [vm_compute; reflexivity|]. split; [vm_compute; reflexivity|].
  intros H. specialize (H "/a"). rewrite H2, H1 in H. discriminate.
Qed.

(** ** The bare-key rule *)

Section Classes.
Variable f : flags.
Variable p : ascii -> bool.

(** A repetition of a class that succeeds has read a prefix in the class,
    of a permitted length, and what follows has succeeded from there. *)
Lemma rep_cls_sound g k r : forall n lo hi st,
  rep (m f (Cls p)) g n lo hi st k = Some r ->
  exists pre post,
    rest st = pre ++ post /\ all_chars p pre = true /\
    (lo <= length pre)%nat /\ (forall h, hi = Some h -> (length pre <= h)%nat) /\
    k {| prev := last_char (prev st) pre; rest := post; caps := caps st |} = Some r.
Proof.
  assert (Z : forall lo hi st, Nat.eqb lo 0 = true -> k st = Some r ->
    exists pre post,
      rest st = pre ++ post /\ all_chars p pre = true /\
      (lo <= length pre)%nat /\ (forall h, hi = Some h -> (length pre <= h)%nat) /\
      k {| prev := last_char (prev st) pre; rest := post; caps := caps st |} = Some r).
  { intros lo hi st Hlo Hk. apply Nat.eqb_eq in Hlo. subst lo.
    exists EmptyString, (rest st). simpl. rewrite pos_eta.
    repeat split; auto; intros; lia. }
  induction n as [|n IH]; intros lo hi st H.
  - rewrite rep_0 in H. destruct (Nat.eqb lo 0) eqn:E; [|discriminate]. auto.
  - rewrite rep_S in H. cbv zeta in H.
    set (again := match hi with Some 0 => None | _ => _ end) in H.
    assert (C : again = Some r \/ (Nat.eqb lo 0 = true /\ k st = Some r)).
    { destruct lo as [|lo]; simpl in H; [|auto].
      destruct g, again, (k st); simpl in H; try discriminate; auto. }
    destruct C as [C|[C1 C2]]; [|auto].
    clear H. subst again.
    assert (B : m f (Cls p) st (fun st' =>
                  if (length (rest st') <? length (rest st))%nat
                  then rep (m f (Cls p)) g n (pred lo) (option_map pred hi) st' k
                  else None) = Some r /\ hi <> Some 0%nat).
    { destruct hi as [[|h]|]; [discriminate| |]; (split; [exact C | discriminate]). }
    destruct B as [B Hh]. rewrite m_cls in B.
    destruct (rest st) as [|x t] eqn:E; [discriminate|].
    destruct (p x) eqn:Px; [|discriminate].
    cbn [advance rest] in B.
    destruct (length t <? length (String x t))%nat; [|discriminate].
    apply IH in B. destruct B as (pre & post & E1 & A1 & L1 & H1 & K1).
    cbn [advance rest prev caps] in *.
    exists (String x pre), post. simpl. rewrite Px, A1, E1.
    repeat split; auto.
    + lia.
    + intros h Eh. subst hi. specialize (H1 (pred h) eq_refl).
      destruct h; [congruence|]. simpl in H1. lia.
Qed.

(** Conversely, when some prefix in the class has a permitted length and
    what follows succeeds after it, the repetition succeeds. *)
Lemma rep_cls_complete g k : forall pre n lo hi st post,
  (length (rest st) < n)%nat ->
  rest st = pre ++ post -> all_chars p pre = true ->
  (lo <= length pre)%nat -> (forall h, hi = Some h -> (length pre <= h)%nat) ->
  k {| prev := last_char (prev st) pre; rest := post; caps := caps st |} <> None ->
  rep (m f (Cls p)) g n lo hi st k <> None.
Proof.
  induction pre as [|x pre IH]; intros n lo hi st post Hn E A L H K;
    (destruct n as [|n]; [inversion Hn|]); rewrite rep_S; cbv zeta.
  - simpl in L. assert (lo = 0)%nat by lia. subst lo. simpl in E, K.
    rewrite <- E, pos_eta in K. simpl.
    destruct g; [destruct (match hi with Some 0 => None | _ => _ end)|];
      destruct (k st); simpl; congruence.
  - simpl in A. apply andb_true_iff in A. destruct A as [Px A].
    assert (B : match hi with
                | Some 0 => None
                | _ => m f (Cls p) st (fun st' =>
                    if (length (rest st') <? length (rest st))%nat
                    then rep (m f (Cls p)) g n (pred lo) (option_map pred hi) st' k
                    else None)
                end <> None).
    { assert (B : m f (Cls p) st (fun st' =>
                    if (length (rest st') <? length (rest st))%nat
                    then rep (m f (Cls p)) g n (pred lo) (option_map pred hi) st' k
                    else None) <> None).
      { simpl in E. rewrite m_cls, E. rewrite Px.
        cbn [advance rest]. rewrite ltb_tail.
        apply (IH n (pred lo) (option_map pred hi) _ post).
        - rewrite E in Hn. simpl in *. lia.
        - reflexivity.
        - exact A.
        - simpl in L. lia.
        - intros h Eh. destruct hi as [h'|]; [|discriminate].
          injection Eh as <-. specialize (H h' eq_refl). simpl in H. lia.
        - exact K. }
      destruct hi as [[|h]|]; auto.
      specialize (H 0%nat eq_refl). simpl in H. lia. }
    destruct (0 <? lo)%nat; [exact B|].
    destruct g; [|destruct (k st); simpl; [discriminate|exact B]].
    destruct (match hi with Some 0 => None | _ => _ end); simpl; congruence.
Qed.
End Classes.

Lemma search_from_inv p : forall s pv,
  search_from p pv s = true ->
  exists s1 s2, s = s1 ++ s2 /\ match_at p (last_char pv s1) s2 <> None.
Proof.
  induction s as [|c t IH]; intros pv H; simpl in H.
  - exists EmptyString, EmptyString. split; [reflexivity|].
    simpl. destruct (match_at p pv EmptyString); [discriminate|discriminate].
  - destruct (match_at p pv (String c t)) eqn:E.
    + exists EmptyString, (String c t). split; [reflexivity|]. simpl. congruence.
    + destruct (IH _ H) as (s1 & s2 & E1 & M).
      exists (String c s1), s2. split; [simpl; congruence|exact M].
Qed.

Lemma search_from_intro p : forall s1 s2 pv,
  match_at p (last_char pv s1) s2 <> None -> search_from p pv (s1 ++ s2) = true.
Proof.
  induction s1 as [|c t IH]; intros s2 pv H; simpl in *.
  - destruct s2; simpl; destruct (match_at p pv _); congruence.
  - destruct (match_at p pv _); [reflexivity|]. apply IH. exact H.
Qed.

Lemma bare_key_re :
  re bare_key_rule =
  Seq Bol (Seq (star (Cls isspace)) (Seq (Cls isquote)
    (Seq (Rep true 1 (Some 40) (Cls iskeychar)) (Seq (Cls isquote)
      (Seq (star (Cls isspace)) (Seq Eol Eps)))))).
Proof. reflexivity. Qed.

Lemma m_bol_multiline st k :
  m (fl bare_key_rule) Bol st k = if at_bol (prev st) then k st else None.
Proof. simpl. destruct (prev st); reflexivity. Qed.

Lemma m_eol_multiline st :
  m (fl bare_key_rule) (Seq Eol Eps) st Some = if at_eol (rest st) then Some st else None.
Proof.
  simpl. destruct (rest st); [reflexivity|].
  rewrite andb_true_r. reflexivity.
Qed.

Lemma key_match_sound pv s e : match_at bare_key_rule pv s = Some e -> key_match pv s.
Proof.
  unfold match_at. rewrite bare_key_re. intros H.
  rewrite m_seq, m_bol_multiline in H. cbn [prev] in H.
  destruct (at_bol pv) eqn:B; [|discriminate]. split; [exact B|].
  rewrite m_seq in H. unfold star in H. rewrite m_rep in H.
  apply rep_cls_sound in H.
  destruct H as (ws & r1 & E1 & A1 & _ & _ & H). cbn [rest prev caps] in *.
  rewrite m_seq, m_cls in H. cbn [rest] in H.
  destruct r1 as [|q1 r2]; [discriminate|].
  destruct (isquote q1) eqn:Q1; [|discriminate].
  rewrite m_seq, m_rep in H. apply rep_cls_sound in H.
  destruct H as (body & r3 & E2 & A2 & L2 & U2 & H). cbn [advance rest prev caps] in *.
  rewrite m_seq, m_cls in H. cbn [rest] in H.
  destruct r3 as [|q2 r4]; [discriminate|].
  destruct (isquote q2) eqn:Q2; [|discriminate].
  rewrite m_seq, m_rep in H. apply rep_cls_sound in H.
  destruct H as (ws2 & tl & E3 & A3 & _ & _ & H). cbn [advance rest prev caps] in *.
  rewrite m_eol_multiline in H. cbn [rest] in H.
  destruct (at_eol tl) eqn:T; [|discriminate].
  exists ws, q1, body, q2, ws2, tl.
  rewrite E1, E2, E3. specialize (U2 40%nat eq_refl).
  repeat split; auto.
Qed.

Lemma key_match_complete pv s : key_match pv s -> match_at bare_key_rule pv s <> None.
Proof.
  intros [B (ws & q1 & body & q2 & ws2 & tl & E & A1 & Q1 & A2 & [L2 U2] & Q2 & A3 & T)].
  unfold match_at. rewrite bare_key_re.
  rewrite m_seq, m_bol_multiline. cbn [prev]. rewrite B.
  rewrite m_seq. unfold star. rewrite m_rep.
  apply (rep_cls_complete _ _ _ _ ws _ _ _ _ (String q1 (body ++ String q2 (ws2 ++ tl))));
    cbn [rest prev caps]; auto; try lia; try discriminate.
  rewrite m_seq, m_cls. cbn [rest]. rewrite Q1.
  rewrite m_seq, m_rep.
  apply (rep_cls_complete _ _ _ _ body _ _ _ _ (String q2 (ws2 ++ tl)));
    cbn [advance rest prev caps]; auto; try lia.
  { intros h Eh. injection Eh as <-. exact U2. }
  rewrite m_seq, m_cls. cbn [rest]. rewrite Q2.
  rewrite m_seq, m_rep.
  apply (rep_cls_complete _ _ _ _ ws2 _ _ _ _ tl);
    cbn [advance rest prev caps]; auto; try lia; try discriminate.
  rewrite m_eol_multiline. cbn [rest]. rewrite T. discriminate.
Qed.

Lemma append_assoc (a b c : string) : (a ++ b) ++ c = a ++ (b ++ c).
Proof. induction a as [|x a IH]; simpl; [reflexivity|]. rewrite IH. reflexivity. Qed.

Lemma lines_first s : lines s = first_line s :: tl (lines s).
Proof.
  unfold first_line. destruct s as [|c t]; simpl; [reflexivity|].
  destruct (c =? newline)%char; [reflexivity|]. destruct (lines t); reflexivity.
Qed.

Lemma lines_cons c t :
  lines (String c t) =
  if (c =? newline)%char then EmptyString :: lines t
  else String c (first_line t) :: tl (lines t).
Proof.
  simpl. destruct (c =? newline)%char; [reflexivity|].
  rewrite (lines_first t). reflexivity.
Qed.

Lemma lines_app_newline a b :
  lines (a ++ String newline b) = (lines a ++ lines b)%list.
Proof.
  induction a as [|c a IH].
  - reflexivity.
  - change (String c a ++ String newline b) with (String c (a ++ String newline b)).
    rewrite !lines_cons. destruct (c =? newline)%char.
    + rewrite IH. reflexivity.
    + unfold first_line. rewrite IH. rewrite (lines_first a). reflexivity.
Qed.

Lemma last_char_bol : forall s pv,
  at_bol (last_char pv s) = true ->
  (s = EmptyString /\ at_bol pv = true) \/ exists s', s = s' ++ String newline EmptyString.
Proof.
  induction s as [|c t IH]; intros pv H; simpl in H; [auto|]. right.
  destruct (IH _ H) as [[-> B]|[s' ->]].
  - exists EmptyString. simpl in B. apply Ascii.eqb_eq in B. subst c. reflexivity.
  - exists (String c s'). reflexivity.
Qed.

Lemma existsb_app_r {A} (p : A -> bool) (l1 l2 : list A) :
  existsb p l2 = true -> existsb p (l1 ++ l2)%list = true.
Proof. intros H. rewrite existsb_app, H. apply orb_true_r. Qed.

(** A line found after the beginning of a line is a line of the whole. *)
Lemma lines_after_bol b s1 s2 :
  at_bol (last_char None s1) = true ->
  existsb (key_line b) (lines s2) = true ->
  existsb (key_line b) (lines (s1 ++ s2)) = true.
Proof.
  intros B H. destruct (last_char_bol _ _ B) as [[-> _]|[s' ->]]; [exact H|].
  rewrite append_assoc. simpl. rewrite lines_app_newline.
  apply existsb_app_r. exact H.
Qed.

Lemma key_line_space b c l : isspace c = true -> key_line b (String c l) = key_line b l.
Proof. intros E. unfold key_line, strip. simpl. rewrite E. reflexivity. Qed.

Lemma lines_skip_space b y : forall ws,
  all_chars isspace ws = true ->
  key_line b (first_line y) = true ->
  existsb (key_line b) (lines (ws ++ y)) = true.
Proof.
  induction ws as [|c ws IH]; intros A H.
  - simpl. rewrite lines_first. simpl. rewrite H. reflexivity.
  - simpl in A. apply andb_true_iff in A. destruct A as [Ec A].
    specialize (IH A H).
    change (String c ws ++ y) with (String c (ws ++ y)). rewrite lines_cons.
    destruct (c =? newline)%char.
    + cbn [existsb]. rewrite IH. apply orb_true_r.
    + rewrite lines_first in IH. cbn [existsb] in *.
      rewrite (key_line_space b c _ Ec). exact IH.
Qed.

Lemma first_line_cons c t :
  no_newline c = true -> first_line (String c t) = String c (first_line t).
Proof.
  unfold no_newline, first_line. intros H. apply negb_true_iff in H.
  rewrite lines_cons, H. reflexivity.
Qed.

Lemma first_line_app a b :
  all_chars no_newline a = true -> first_line (a ++ b) = a ++ first_line b.
Proof.
  induction a as [|c a IH]; intros H; [reflexivity|].
  simpl in H. apply andb_true_iff in H. destruct H as [Hc H].
  change (String c a ++ b) with (String c (a ++ b)).
  rewrite (first_line_cons _ _ Hc), (IH H). reflexivity.
Qed.

Lemma first_line_eol tl0 : at_eol tl0 = true -> first_line tl0 = EmptyString.
Proof.
  destruct tl0 as [|c t]; [reflexivity|]. simpl. intros E.
  unfold first_line. rewrite lines_cons, E. reflexivity.
Qed.

Lemma first_line_space ws tl0 :
  all_chars isspace ws = true -> at_eol tl0 = true ->
  all_chars isspace (first_line (ws ++ tl0)) = true.
Proof.
  intros A T. induction ws as [|c ws IH].
  - simpl. rewrite (first_line_eol _ T). reflexivity.
  - simpl in A. apply andb_true_iff in A. destruct A as [Ec A].
    change (String c ws ++ tl0) with (String c (ws ++ tl0)).
    unfold first_line. rewrite lines_cons. destruct (c =? newline)%char; [reflexivity|].
    simpl. rewrite Ec. exact (IH A).
Qed.

Lemma all_chars_impl (p q : ascii -> bool) s :
  (forall c, p c = true -> q c = true) -> all_chars p s = true -> all_chars q s = true.
Proof.
  intros I. induction s as [|c t IH]; simpl; [reflexivity|]. intros H.
  apply andb_true_iff in H. destruct H as [Hc H]. rewrite (I c Hc), (IH H). reflexivity.
Qed.

Lemma keychar_no_newline : forall c, iskeychar c = true -> no_newline c = true.
Proof. all_ascii. Qed.
Lemma quote_no_newline : forall c, isquote c = true -> no_newline c = true.
Proof. all_ascii. Qed.
Lemma quote_not_space : forall c, isquote c = true -> isspace c = false.
Proof. all_ascii. Qed.

Lemma rstrip_app_space x : forall w, all_chars isspace w = true -> rstrip (x ++ w) = rstrip x.
Proof.
  assert (R : forall w, all_chars isspace w = true -> rstrip w = EmptyString).
  { induction w as [|c w IH]; simpl; [reflexivity|]. intros H.
    apply andb_true_iff in H. destruct H as [Hc H]. rewrite (IH H), Hc. reflexivity. }
  intros w A. induction x as [|c x IH]; simpl; [exact (R w A)|].
  rewrite IH. reflexivity.
Qed.

Lemma rstrip_end q : forall a,
  isspace q = false -> rstrip (a ++ String q EmptyString) = a ++ String q EmptyString.
Proof.
  intros a Hq. induction a as [|c a IH]; simpl; [rewrite Hq; reflexivity|].
  rewrite IH. destruct a; reflexivity.
Qed.

Lemma key_tail_cons close n c c' t :
  key_tail close n (String c (String c' t)) =
  iskeychar c && key_tail close (S n) (String c' t).
Proof. reflexivity. Qed.

Lemma key_tail_app close q2 : forall body n,
  all_chars iskeychar body = true ->
  key_tail close n (body ++ String q2 EmptyString) =
  close q2 && (1 <=? n + length body)%nat && (n + length body <=? 40)%nat.
Proof.
  induction body as [|c body IH]; intros n A.
  - simpl. rewrite Nat.add_0_r. reflexivity.
  - simpl in A. apply andb_true_iff in A. destruct A as [Hc A].
    specialize (IH (S n) A).
    replace (n + length (String c body))%nat with (S n + length body)%nat
      by (simpl; lia).
    rewrite <- IH.
    destruct body as [|c' body']; simpl append; rewrite key_tail_cons, Hc; reflexivity.
Qed.

Lemma key_tail_inv close : forall r n,
  key_tail close n r = true ->
  exists body q2, r = body ++ String q2 EmptyString /\
    all_chars iskeychar body = true /\ close q2 = true /\
    (1 <= n + length body <= 40)%nat.
Proof.
  induction r as [|c r IH]; intros n H; [discriminate|].
  destruct r as [|c' r']; [|rewrite key_tail_cons in H].
  - exists EmptyString, c. cbn [key_tail] in H. simpl.
    apply andb_true_iff in H. destruct H as [H H3].
    apply andb_true_iff in H. destruct H as [H1 H2].
    apply Nat.leb_le in H2, H3. repeat split; auto; lia.
  - apply andb_true_iff in H. destruct H as [Hc H].
    destruct (IH _ H) as (body & q2 & E & A & Q & L).
    exists (String c body), q2. simpl. rewrite E, Hc, A.
    repeat split; auto; lia.
Qed.

(** The first line of a quoted key followed by whitespace up to the end of
    the line is a key line. *)
Lemma key_line_first q1 body q2 ws2 tl0 :
  isquote q1 = true -> all_chars iskeychar body = true ->
  (1 <= length body <= 40)%nat -> isquote q2 = true ->
  all_chars isspace ws2 = true -> at_eol tl0 = true ->
  key_line false (first_line (String q1 (body ++ String q2 (ws2 ++ tl0)))) = true.
Proof.
  intros Q1 A L Q2 A3 T.
  rewrite (first_line_cons _ _ (quote_no_newline _ Q1)).
  rewrite first_line_app by (apply (all_chars_impl iskeychar); [exact keychar_no_newline|exact A]).
  rewrite (first_line_cons _ _ (quote_no_newline _ Q2)).
  pose proof (first_line_space ws2 tl0 A3 T) as W.
  set (w := first_line (ws2 ++ tl0)) in *.
  unfold key_line, strip. simpl lstrip. rewrite (quote_not_space _ Q1).
  change (String q1 (body ++ String q2 w))
    with (String q1 (body ++ String q2 (EmptyString ++ w))).
  replace (String q1 (body ++ String q2 (EmptyString ++ w)))
    with ((String q1 body ++ String q2 EmptyString) ++ w)
    by (rewrite append_assoc; reflexivity).
  rewrite (rstrip_app_space _ _ W).
  rewrite (rstrip_end _ _ (quote_not_space _ Q2)).
  change (String q1 body ++ String q2 EmptyString)
    with (String q1 (body ++ String q2 EmptyString)).
  cbn [key_token]. rewrite Q1, (key_tail_app _ _ _ _ A), Q2. cbn [Nat.add].
  destruct L as [L1 L2].
  rewrite (proj2 (Nat.leb_le _ _) L1), (proj2 (Nat.leb_le _ _) L2). reflexivity.
Qed.


Lemma first_line_split s : exists s3, s = first_line s ++ s3 /\ at_eol s3 = true.
Proof.
  induction s as [|c t IH].
  - exists EmptyString. split; reflexivity.
  - unfold first_line. rewrite lines_cons. destruct (c =? newline)%char eqn:E.
    + exists (String c t). simpl. rewrite E. split; reflexivity.
    + destruct IH as (s3 & E3 & T). exists s3. simpl. rewrite <- E3. split; auto.
Qed.

Lemma lines_tail_in l : forall s pv,
  In l (tl (lines s)) ->
  exists s1 s3, s = s1 ++ l ++ s3 /\ s1 <> EmptyString /\
    at_bol (last_char pv s1) = true /\ at_eol s3 = true.
Proof.
  induction s as [|c t IH]; intros pv H; [destruct H|].
  rewrite lines_cons in H. destruct (c =? newline)%char eqn:E.
  - cbn [tl] in H. rewrite lines_first in H. destruct H as [<-|H].
    + destruct (first_line_split t) as (s3 & E3 & T).
      exists (String c EmptyString), s3. simpl. rewrite <- E3, E.
      repeat split; auto; discriminate.
    + destruct (IH (Some c) H) as (s1 & s3 & E1 & N & B & T).
      exists (String c s1), s3. simpl. rewrite <- E1.
      repeat split; auto; discriminate.
  - cbn [tl] in H.
    destruct (IH (Some c) H) as (s1 & s3 & E1 & N & B & T).
    exists (String c s1), s3. simpl. rewrite <- E1.
    repeat split; auto; discriminate.
Qed.

Lemma lines_in l s :
  In l (lines s) ->
  exists s1 s3, s = s1 ++ l ++ s3 /\
    at_bol (last_char None s1) = true /\ at_eol s3 = true.
Proof.
  rewrite lines_first. intros [<-|H].
  - destruct (first_line_split s) as (s3 & E3 & T).
    exists EmptyString, s3. simpl. auto.
  - destruct (lines_tail_in l s None H) as (s1 & s3 & E & _ & B & T). eauto.
Qed.

Lemma lstrip_split l : exists ws, l = ws ++ lstrip l /\ all_chars isspace ws = true.
Proof.
  induction l as [|c l IH].
  - exists EmptyString. split; reflexivity.
  - simpl. destruct (isspace c) eqn:E.
    + destruct IH as (ws & E1 & A). exists (String c ws). simpl.
      rewrite <- E1, E, A. split; reflexivity.
    + exists EmptyString. split; reflexivity.
Qed.

Lemma rstrip_split x : exists ws, x = rstrip x ++ ws /\ all_chars isspace ws = true.
Proof.
  induction x as [|c x IH].
  - exists EmptyString. split; reflexivity.
  - destruct IH as (ws & E1 & A). simpl. destruct (rstrip x) as [|c' r].
    + simpl in E1. subst x. destruct (isspace c) eqn:E.
      * exists (String c ws). simpl. rewrite E, A. split; reflexivity.
      * exists ws. split; [reflexivity|exact A].
    + exists ws. simpl. simpl in E1. rewrite <- E1. split; [reflexivity|exact A].
Qed.


(** C10, as the code has it.  The bare-key pattern is found in a text
    exactly when some line of the text is, up to surrounding whitespace, a
    quote, 1 to 40 characters among letters, digits, underscore, space and
    hyphen, and a quote; the two quotes are each a single or a double one
    and need not be the same.  A line with any other character between the
    quotes, with more than 40 characters there, or with other text beside
    the token, is no such line.  [rule_predict] searches the stripped
    input. *)
Theorem bare_key_characterised (text : string) :
  search bare_key_rule text = true <-> existsb (key_line false) (lines text) = true.
Proof.
  split.
  - (* a match gives a key line *)
    intros H. apply search_from_inv in H. destruct H as (s1 & s2 & -> & M).
    destruct (match_at bare_key_rule (last_char None s1) s2) as [e|] eqn:E; [|congruence].
    apply key_match_sound in E.
    destruct E as [B (ws & q1 & body & q2 & ws2 & tl0 & -> & A1 & Q1 & A2 & L & Q2 & A3 & T)].
    apply lines_after_bol; [exact B|].
    apply lines_skip_space; [exact A1|].
    apply key_line_first; assumption.
  - (* a key line gives a match *)
    intros H. apply existsb_exists in H. destruct H as (l & Hin & K).
    destruct (lines_in _ _ Hin) as (s1 & s3 & -> & B & T).
    unfold key_line, strip in K.
    destruct (lstrip_split l) as (ws & El & A1).
    destruct (rstrip_split (lstrip l)) as (ws2 & Er & A3).
    destruct (rstrip (lstrip l)) as [|q1 r] eqn:Es; [discriminate|].
    cbn [key_token] in K. apply andb_true_iff in K. destruct K as [Q1 K].
    apply key_tail_inv in K. destruct K as (body & q2 & -> & A2 & Q2 & L).
    apply search_from_intro.
    destruct (match_at bare_key_rule (last_char None s1) (l ++ s3)) eqn:M; [discriminate|].
    exfalso. revert M. apply key_match_complete. split; [exact B|].
    exists ws, q1, body, q2, ws2, s3.
    repeat split; auto; try lia.
    rewrite El, Er. simpl. rewrite !append_assoc. simpl. rewrite append_assoc. reflexivity.
Qed.

(** C10, as stated, fails: a key opened by a single quote and closed by a
    double quote fires the rule, and no line of it is a token in single or
    in double quotes. *)
Lemma bare_key_mismatched_quotes :
  search bare_key_rule (strip mismatched_key) = true /\
  rule_predict mismatched_key = Some "key_error" /\
  existsb (key_line true) (lines (strip mismatched_key)) = false /\
  ~ (forall text, search bare_key_rule text = true ->
                  existsb (key_line true) (lines text) = true).
Proof.
  assert (H1 : search bare_key_rule (strip mismatched_key) = true) by (vm_compute; reflexivity).
  assert (H3 : existsb (key_line true) (lines (strip mismatched_key)) = false)
    by (vm_compute; reflexivity).
  split; [exact H1|]. split; [vm_compute; reflexivity|]. split; [exact H3|].
  intros H. specialize (H _ H1). rewrite H3 in H. discriminate.
Qed.

(** The three ways of not being a bare key, and the longest key. *)
Lemma bare_key_examples :
  search bare_key_rule "'user.id'" = false /\
  search bare_key_rule "'user_id' not found" = false /\
  search bare_key_rule "'aaaaaaaaaabbbbbbbbbbccccccccccddddddddddx'" = false /\
  search bare_key_rule "'aaaaaaaaaabbbbbbbbbbccccccccccdddddddddd'" = true /\
  search bare_key_rule "Traceback:
    'user_id'  " = true.
Proof. vm_compute. repeat split. Qed.

(** ** The retrieval index *)

Lemma for_each_ok {A B} (f : A -> result B) (l : list A) :
  (forall a, In a l -> exists b, f a = Ok b) ->
  exists bs, for_each f l = Ok bs /\ List.length bs = List.length l.
Proof.
  induction l as [|a l IH]; intros H; simpl.
  - exists []. auto.
  - destruct (H a (or_introl eq_refl)) as [b ->].
    destruct IH as (bs & -> & L); [intros x Hx; apply H; right; exact Hx|].
    exists (b :: bs). simpl. auto.
Qed.

Lemma for_each_nth {A B} (f : A -> result B) : forall l bs p b,
  for_each f l = Ok bs -> nth_error bs p = Some b ->
  exists a, nth_error l p = Some a /\ f a = Ok b.
Proof.
  induction l as [|a l IH]; intros bs p b H Hp; simpl in H.
  - injection H as <-. destruct p; discriminate.
  - destruct (f a) as [b0|] eqn:Fa; [|discriminate].
    destruct (for_each f l) as [bs0|] eqn:Fl; [|discriminate].
    injection H as <-. destruct p as [|p]; simpl in Hp.
    + injection Hp as <-. exists a. auto.
    + destruct (IH _ _ _ eq_refl Hp) as (a' & E & F). exists a'. auto.
Qed.

Lemma sorted_nth {A} (R : A -> A -> Prop) : forall l p q x y,
  StronglySorted R l -> (p < q)%nat ->
  nth_error l p = Some x -> nth_error l q = Some y -> R x y.
Proof.
  induction l as [|a l IH]; intros p q x y S Hpq Hp Hq.
  - destruct p; discriminate.
  - inversion S as [|? ? S' F]; subst. destruct q as [|q]; [lia|].
    simpl in Hq. destruct p as [|p]; simpl in Hp.
    + injection Hp as <-. rewrite Forall_forall in F. apply F.
      eapply nth_error_In; eauto.
    + apply (IH p q x y S'); [lia | exact Hp | exact Hq].
Qed.

Lemma in_firstn {A} (x : A) : forall n l, In x (firstn n l) -> In x l.
Proof.
  induction n as [|n IH]; intros [|a l] H; simpl in H; try contradiction.
  destruct H as [H|H]; [left; exact H | right; apply IH; exact H].
Qed.

Section RetrievalFacts.
Variable Vec : Type.
Variable cosine_similarity : Vec -> Vec -> Q.
Variable argsort : list Q -> list nat.

Lemma similarities_length (corpus : list Row) (v : Vectorizer Vec) text :
  List.length (similarities Vec cosine_similarity (__init__ corpus v) text)
  = List.length corpus.
Proof. unfold similarities, __init__. simpl. rewrite !length_map. reflexivity. Qed.

Lemma similar_case_ok (corpus : list Row) (v : Vectorizer Vec) text i :
  (i < List.length corpus)%nat ->
  exists c, similar_case Vec (__init__ corpus v)
              (similarities Vec cosine_similarity (__init__ corpus v) text) i = Ok c.
Proof.
  intros Hi. unfold similar_case.
  destruct (nth_error (df (__init__ corpus v)) i) as [row|] eqn:E1.
  - destruct (nth_error (similarities Vec cosine_similarity (__init__ corpus v) text) i)
      as [s|] eqn:E2; [eauto|].
    apply nth_error_None in E2. rewrite similarities_length in E2. lia.
  - apply nth_error_None in E1. simpl in E1. lia.
Qed.

Lemma top_idx_in_range sims top_k i :
  argsort_indices argsort ->
  In i (top_idx argsort sims top_k) -> (i < List.length sims)%nat.
Proof.
  intros P H. unfold top_idx in H. apply in_firstn in H.
  apply in_rev in H. apply (Permutation_in _ (P sims)) in H.
  apply in_seq in H. lia.
Qed.

Lemma top_idx_length sims top_k :
  argsort_indices argsort ->
  List.length (top_idx argsort sims top_k)
  = Nat.min (Z.to_nat top_k) (List.length sims).
Proof.
  intros P. unfold top_idx.
  rewrite length_firstn, length_rev, (Permutation_length (P sims)), length_seq.
  reflexivity.
Qed.

(** C6. [query] with [top_k <= 0] returns the empty list, and with
    [top_k > 0] it returns exactly [min(top_k, corpus size)] results: no
    exception either way, whenever [argsort] returns the indices of its
    argument. *)
Theorem query_length (corpus : list Row) (v : Vectorizer Vec) (text : string) (top_k : Z) :
  argsort_indices argsort ->
  ((top_k <= 0)%Z ->
     query Vec cosine_similarity argsort (__init__ corpus v) text top_k = Ok []) /\
  ((0 < top_k)%Z ->
     exists rs,
       query Vec cosine_similarity argsort (__init__ corpus v) text top_k = Ok rs /\
       List.length rs = Nat.min (Z.to_nat top_k) (List.length corpus)).
Proof.
  intros P. unfold query. split; intros H.
  - apply Z.leb_le in H. rewrite H. reflexivity.
  - assert (E : (top_k <=? 0)%Z = false) by (apply Z.leb_gt; exact H).
    rewrite E.
    destruct (for_each_ok
      (similar_case Vec (__init__ corpus v)
         (similarities Vec cosine_similarity (__init__ corpus v) text))
      (top_idx argsort (similarities Vec cosine_similarity (__init__ corpus v) text) top_k))
      as (rs & Hrs & L).
    { intros i Hi. apply similar_case_ok.
      apply (top_idx_in_range _ _ _ P) in Hi.
      rewrite similarities_length in Hi. exact Hi. }
    exists rs. split; [exact Hrs|].
    rewrite L, (top_idx_length _ _ P), similarities_length. reflexivity.
Qed.

Lemma similar_case_score (self : RetrievalIndex Vec) sims i c :
  similar_case Vec self sims i = Ok c -> nth i sims 0%Q = score c.
Proof.
  unfold similar_case. intros H.
  destruct (nth_error (df self) i); [|discriminate].
  destruct (nth_error sims i) as [s|] eqn:E; [|discriminate].
  injection H as <-. simpl. apply nth_error_nth. exact E.
Qed.

Lemma rev_positions (l : list nat) p q i j :
  (p < q)%nat -> nth_error (rev l) p = Some i -> nth_error (rev l) q = Some j ->
  exists p' q', (q' < p')%nat /\ nth_error l p' = Some i /\ nth_error l q' = Some j.
Proof.
  intros Hpq Ei Ej. rewrite nth_error_rev in Ei, Ej.
  destruct (p <? List.length l)%nat eqn:Lp; [|discriminate].
  destruct (q <? List.length l)%nat eqn:Lq; [|discriminate].
  apply Nat.ltb_lt in Lp, Lq.
  exists (List.length l - S p)%nat, (List.length l - S q)%nat.
  repeat split; auto. lia.
Qed.

Lemma query_reverse_of_argsort : reverse_of_argsort Vec cosine_similarity argsort.
Proof.
  intros corpus v text top_k rs p q a b self sims Hq Ha Hb Hpq.
  unfold query in Hq. destruct (top_k <=? 0)%Z.
  { injection Hq as <-. destruct p; discriminate. }
  fold self in Hq. fold sims in Hq.
  destruct (for_each_nth _ _ _ _ _ Hq Ha) as (i & Ei & Fi).
  destruct (for_each_nth _ _ _ _ _ Hq Hb) as (j & Ej & Fj).
  unfold top_idx in Ei, Ej. rewrite nth_error_firstn in Ei, Ej.
  destruct (p <? Z.to_nat top_k)%nat; [|discriminate].
  destruct (q <? Z.to_nat top_k)%nat; [|discriminate].
  destruct (rev_positions _ p q i j Hpq Ei Ej) as (pi & pj & L & Pi & Pj).
  exists i, j, pi, pj. auto.
Qed.

(** C2, as the code has it.  [query] has no tie-break of its own: a result
    ranked before another is one that [argsort] lists after it.  So with an
    [argsort] that keeps equal keys in index order, of two results of equal
    score the one from the later position in the corpus comes first, and
    with an [argsort] that lists equal keys by descending index it is the
    one from the earlier position. *)
Theorem ties_follow_argsort :
  reverse_of_argsort Vec cosine_similarity argsort /\
  (argsort_is_stable argsort -> tie_order gt Vec cosine_similarity argsort) /\
  (argsort_is_antistable argsort -> tie_order lt Vec cosine_similarity argsort).
Proof.
  split; [exact query_reverse_of_argsort|]. split.
  - intros St corpus v text top_k rs p q a b self sims Hq Ha Hb Hpq Hs.
    subst self sims.
    destruct (query_reverse_of_argsort corpus v text top_k rs p q a b Hq Ha Hb Hpq)
      as (i & j & pi & pj & Fi & Fj & Pi & Pj & L).
    exists i, j. split; [|auto].
    pose proof (sorted_nth _ _ pj pi j i (St _) L Pj Pi)
      as R.
    destruct R as [R|[_ R]]; [|exact R].
    exfalso. rewrite (similar_case_score _ _ _ _ Fi) in R.
    rewrite (similar_case_score _ _ _ _ Fj) in R.
    rewrite Hs in R. exact (Qlt_irrefl _ R).
  - intros St corpus v text top_k rs p q a b self sims Hq Ha Hb Hpq Hs.
    subst self sims.
    destruct (query_reverse_of_argsort corpus v text top_k rs p q a b Hq Ha Hb Hpq)
      as (i & j & pi & pj & Fi & Fj & Pi & Pj & L).
    exists i, j. split; [|auto].
    pose proof (sorted_nth _ _ pj pi j i (St _) L Pj Pi)
      as R.
    destruct R as [R|[_ R]]; [|exact R].
    exfalso. rewrite (similar_case_score _ _ _ _ Fi) in R.
    rewrite (similar_case_score _ _ _ _ Fj) in R.
    rewrite Hs in R. exact (Qlt_irrefl _ R).
Qed.
End RetrievalFacts.

(** *** The stable [argsort] *)

Lemma insert_asc_perm key i l : Permutation (insert_asc key i l) (i :: l).
Proof.
  induction l as [|j l IH]; simpl; [apply Permutation_refl|].
  destruct (Qle_bool (key i) (key j)); [apply Permutation_refl|].
  apply perm_trans with (j :: i :: l); [apply perm_skip; exact IH | apply perm_swap].
Qed.

Lemma argsort_stable_indices : argsort_indices argsort_stable.
Proof.
  intros xs. unfold argsort_stable. generalize (List.length xs) as n. intros n.
  generalize 0%nat as start. induction n as [|n IH]; intros start; simpl.
  - apply Permutation_refl.
  - eapply perm_trans; [apply insert_asc_perm|]. apply perm_skip. apply IH.
Qed.

Lemma key_le_of_stable_lt xs i j : stable_lt xs i j -> (nth i xs 0 <= nth j xs 0)%Q.
Proof.
  intros [H|[H _]]; [apply Qlt_le_weak; exact H|]. rewrite H. apply Qle_refl.
Qed.

Lemma insert_asc_sorted xs i l :
  StronglySorted (stable_lt xs) l -> Forall (fun j => (i < j)%nat) l ->
  StronglySorted (stable_lt xs) (insert_asc (fun k => nth k xs 0%Q) i l).
Proof.
  induction l as [|j l IH]; intros S G; simpl.
  - constructor; constructor.
  - inversion S as [|? ? S' F]; subst. inversion G as [|? ? Gj G']; subst.
    destruct (Qle_bool (nth i xs 0%Q) (nth j xs 0%Q)) eqn:E.
    + apply Qle_bool_iff in E. constructor; [exact S|].
      assert (B : forall x, (i < x)%nat -> (nth i xs 0 <= nth x xs 0)%Q -> stable_lt xs i x).
      { intros x Hx Hle. apply Qle_lteq in Hle. destruct Hle; [left|right]; auto. }
      constructor; [apply B; assumption|].
      rewrite Forall_forall in *. intros x Hx. apply B; [apply G'; exact Hx|].
      eapply Qle_trans; [exact E|]. apply key_le_of_stable_lt. apply F. exact Hx.
    + constructor; [apply IH; assumption|].
      assert (Lt : (nth j xs 0 < nth i xs 0)%Q).
      { apply Qnot_le_lt. intros C. apply Qle_bool_iff in C. congruence. }
      rewrite Forall_forall in *. intros x Hx.
      apply (Permutation_in _ (insert_asc_perm _ i l)) in Hx.
      destruct Hx as [<-|Hx]; [left; exact Lt | apply F; exact Hx].
Qed.

Lemma argsort_stable_is_stable : argsort_is_stable argsort_stable.
Proof.
  intros xs. unfold argsort_stable.
  assert (H : forall n start,
    StronglySorted (stable_lt xs)
      (fold_right (insert_asc (fun k => nth k xs 0%Q)) [] (seq start n)) /\
    Forall (fun j => (start <= j)%nat)
      (fold_right (insert_asc (fun k => nth k xs 0%Q)) [] (seq start n))).
  { induction n as [|n IH]; intros start; simpl; [split; constructor|].
    destruct (IH (S start)) as [S G]. split.
    - apply insert_asc_sorted; [exact S|].
      eapply Forall_impl; [|exact G]. intros; simpl in *; lia.
    - rewrite Forall_forall in *. intros x Hx.
      apply (Permutation_in _ (insert_asc_perm _ _ _)) in Hx.
      destruct Hx as [<-|Hx]; [lia|]. specialize (G x Hx). simpl in G. lia. }
  apply H.
Qed.

(** *** An ascending [argsort] with equal keys by descending index *)

Lemma insert_after_perm key i l : Permutation (insert_after key i l) (i :: l).
Proof.
  induction l as [|j l IH]; simpl; [apply Permutation_refl|].
  destruct (Qle_bool (key j) (key i)); [|apply Permutation_refl].
  apply perm_trans with (j :: i :: l); [apply perm_skip; exact IH | apply perm_swap].
Qed.

Lemma argsort_antistable_indices : argsort_indices argsort_antistable.
Proof.
  intros xs. unfold argsort_antistable. generalize (List.length xs) as n. intros n.
  generalize 0%nat as start. induction n as [|n IH]; intros start; simpl.
  - apply Permutation_refl.
  - eapply perm_trans; [apply insert_after_perm|]. apply perm_skip. apply IH.
Qed.

Lemma key_le_of_antistable_lt xs i j :
  antistable_lt xs i j -> (nth i xs 0 <= nth j xs 0)%Q.
Proof.
  intros [H|[H _]]; [apply Qlt_le_weak; exact H|]. rewrite H. apply Qle_refl.
Qed.

Lemma insert_after_sorted xs i l :
  StronglySorted (antistable_lt xs) l -> Forall (fun j => (i < j)%nat) l ->
  StronglySorted (antistable_lt xs) (insert_after (fun k => nth k xs 0%Q) i l).
Proof.
  induction l as [|j l IH]; intros S G; simpl.
  - constructor; constructor.
  - inversion S as [|? ? S' F]; subst. inversion G as [|? ? Gj G']; subst.
    destruct (Qle_bool (nth j xs 0%Q) (nth i xs 0%Q)) eqn:E.
    + apply Qle_bool_iff in E. constructor; [apply IH; assumption|].
      rewrite Forall_forall in *. intros x Hx.
      apply (Permutation_in _ (insert_after_perm _ i l)) in Hx.
      destruct Hx as [<-|Hx]; [|apply F; exact Hx].
      apply Qle_lteq in E. destruct E as [E|E]; [left; exact E|right; auto].
    + assert (Lt : (nth i xs 0 < nth j xs 0)%Q).
      { apply Qnot_le_lt. intros C. apply Qle_bool_iff in C. congruence. }
      constructor; [exact S|].
      constructor; [left; exact Lt|].
      rewrite Forall_forall in *. intros x Hx. left.
      eapply Qlt_le_trans; [exact Lt|]. apply key_le_of_antistable_lt. apply F. exact Hx.
Qed.

Lemma argsort_antistable_is_antistable : argsort_is_antistable argsort_antistable.
Proof.
  intros xs. unfold argsort_antistable.
  assert (H : forall n start,
    StronglySorted (antistable_lt xs)
      (fold_right (insert_after (fun k => nth k xs 0%Q)) [] (seq start n)) /\
    Forall (fun j => (start <= j)%nat)
      (fold_right (insert_after (fun k => nth k xs 0%Q)) [] (seq start n))).
  { induction n as [|n IH]; intros start; simpl; [split; constructor|].
    destruct (IH (S start)) as [S G]. split.
    - apply insert_after_sorted; [exact S|].
      eapply Forall_impl; [|exact G]. intros; simpl in *; lia.
    - rewrite Forall_forall in *. intros x Hx.
      apply (Permutation_in _ (insert_after_perm _ _ _)) in Hx.
      destruct Hx as [<-|Hx]; [lia|]. specialize (G x Hx). simpl in G. lia. }
  apply H.
Qed.

Lemma query_length_witness :
  query string same_text argsort_stable (__init__ two_cases text_vectorizer)
        "KeyError: 'user_id'" 0 = Ok [] /\
  exists rs,
    query string same_text argsort_stable (__init__ two_cases text_vectorizer)
          "KeyError: 'user_id'" 5 = Ok rs /\
    List.length rs = 2%nat.
Proof.
  destruct (query_length string same_text argsort_stable two_cases text_vectorizer
              "KeyError: 'user_id'" 0 argsort_stable_indices) as [H0 _].
  destruct (query_length string same_text argsort_stable two_cases text_vectorizer
              "KeyError: 'user_id'" 5 argsort_stable_indices) as [_ H5].
  split; [apply H0; lia|]. apply H5. lia.
Defined.

Lemma ties_follow_argsort_witness :
  (exists i j, (i > j)%nat /\
     similar_case string (__init__ two_cases text_vectorizer)
       (similarities string same_text (__init__ two_cases text_vectorizer)
          "KeyError: 'user_id'") i
       = Ok {| id := "c2"; error_family := "key_error";
               error_text := "KeyError: 'user_id'";
               fix_text := "Check the key first."; score := 1 |} /\
     similar_case string (__init__ two_cases text_vectorizer)
       (similarities string same_text (__init__ two_cases text_vectorizer)
          "KeyError: 'user_id'") j
       = Ok {| id := "c1"; error_family := "key_error";
               error_text := "KeyError: 'user_id'";
               fix_text := "Use dict.get."; score := 1 |}) /\
  (exists i j, (i < j)%nat /\
     similar_case string (__init__ two_cases text_vectorizer)
       (similarities string same_text (__init__ two_cases text_vectorizer)
          "KeyError: 'user_id'") i
       = Ok {| id := "c1"; error_family := "key_error";
               error_text := "KeyError: 'user_id'";
               fix_text := "Use dict.get."; score := 1 |} /\
     similar_case string (__init__ two_cases text_vectorizer)
       (similarities string same_text (__init__ two_cases text_vectorizer)
          "KeyError: 'user_id'") j
       = Ok {| id := "c2"; error_family := "key_error";
               error_text := "KeyError: 'user_id'";
               fix_text := "Check the key first."; score := 1 |}).
Proof.
  split.
  - apply (proj1 (proj2 (ties_follow_argsort string same_text argsort_stable))
             argsort_stable_is_stable
             two_cases text_vectorizer "KeyError: 'user_id'" 2%Z
             [ {| id := "c2"; error_family := "key_error";
                  error_text := "KeyError: 'user_id'";
                  fix_text := "Check the key first."; score := 1 |};
               {| id := "c1"; error_family := "key_error";
                  error_text := "KeyError: 'user_id'";
                  fix_text := "Use dict.get."; score := 1 |} ] 0%nat 1%nat).
    + vm_compute. reflexivity.
    + reflexivity.
    + reflexivity.
    + apply Nat.lt_0_succ.
    + reflexivity.
  - apply (proj2 (proj2 (ties_follow_argsort string same_text argsort_antistable))
             argsort_antistable_is_antistable
             two_cases text_vectorizer "KeyError: 'user_id'" 2%Z
             [ {| id := "c1"; error_family := "key_error";
                  error_text := "KeyError: 'user_id'";
                  fix_text := "Use dict.get."; score := 1 |};
               {| id := "c2"; error_family := "key_error";
                  error_text := "KeyError: 'user_id'";
                  fix_text := "Check the key first."; score := 1 |} ] 0%nat 1%nat).
    + vm_compute. reflexivity.
    + reflexivity.
    + reflexivity.
    + apply Nat.lt_0_succ.
    + reflexivity.
Defined.

(** C2, as stated, fails: with an ascending [argsort] that keeps equal keys
    in index order, one of the orders numpy's [argsort] is free to return,
    of two cases with the same similarity the second of the corpus is
    ranked first. *)
Lemma ties_not_by_corpus_order :
  query string same_text argsort_stable (__init__ two_cases text_vectorizer)
        "KeyError: 'user_id'" 2
  = Ok [ {| id := "c2"; error_family := "key_error";
            error_text := "KeyError: 'user_id'"; fix_text := "Check the key first.";
            score := 1 |};
         {| id := "c1"; error_family := "key_error";
            error_text := "KeyError: 'user_id'"; fix_text := "Use dict.get.";
            score := 1 |} ] /\
  ~ tie_order lt string same_text argsort_stable.
Proof.
  assert (Hq : query string same_text argsort_stable (__init__ two_cases text_vectorizer)
        "KeyError: 'user_id'" 2
  = Ok [ {| id := "c2"; error_family := "key_error";
            error_text := "KeyError: 'user_id'"; fix_text := "Check the key first.";
            score := 1 |};
         {| id := "c1"; error_family := "key_error";
            error_text := "KeyError: 'user_id'"; fix_text := "Use dict.get.";
            score := 1 |} ]) by (vm_compute; reflexivity).
  split; [exact Hq|]. intros H.
  specialize (H two_cases text_vectorizer "KeyError: 'user_id'" 2%Z _ 0%nat 1%nat _ _
                Hq eq_refl eq_refl (Nat.lt_0_succ 0) (Qeq_refl _)).
  destruct H as (i & j & Hij & Hi & Hj).
  destruct i as [|[|i]]; [discriminate Hi | | destruct i; discriminate Hi].
  destruct j as [|[|j]]; [ | discriminate Hj | destruct j; discriminate Hj].
  lia.
Qed.

(** ** The orchestrator *)

Lemma bind_ok {A B} (t : list event) (a : A) (k : A -> M B) :
  bind (t, Ok a) k = ((t ++ trace (k a))%list, snd (k a)).
Proof. unfold bind, trace. destruct (k a). reflexivity. Qed.

Lemma bind_unit {B} (c : M unit) (k : unit -> M B) :
  snd c = Ok tt -> bind c k = ((trace c ++ trace (k tt))%list, snd (k tt)).
Proof. destruct c as [t r]. simpl. intros ->. apply bind_ok. Qed.

Lemma bind_lines {B} (c : M unit) (lines : list string) (k : unit -> M B) :
  c = (echoes lines, Ok tt) ->
  bind c k = ((echoes lines ++ trace (k tt))%list, snd (k tt)).
Proof. intros ->. apply bind_ok. Qed.

Lemma echo_ok line : echo line = ([Echo line], Ok tt).
Proof. reflexivity. Qed.

Lemma for_ok {A} (body : A -> M unit) :
  (forall a, snd (body a) = Ok tt) ->
  forall l, for_ l body = (flat_map (fun a => trace (body a)) l, Ok tt).
Proof.
  intros H. induction l as [|a l IH]; simpl; [reflexivity|].
  rewrite (bind_unit _ _ (H a)), IH. reflexivity.
Qed.

Lemma echoes_app a b : echoes (a ++ b) = (echoes a ++ echoes b)%list.
Proof. apply map_app. Qed.

(** A loop whose body prints lines. *)
Lemma for_lines {A} (body : A -> M unit) (lines : A -> list string) : forall l,
  (forall a, In a l -> body a = (echoes (lines a), Ok tt)) ->
  for_ l body = (echoes (flat_map lines l), Ok tt).
Proof.
  induction l as [|a l IH]; intros H; [reflexivity|].
  cbn [for_ flat_map]. rewrite (H a (or_introl eq_refl)), bind_ok.
  rewrite IH by (intros b Hb; apply H; right; exact Hb).
  rewrite echoes_app. reflexivity.
Qed.

Lemma flat_map_one {A B} (f : A -> B) (l : list A) :
  flat_map (fun a => [f a]) l = map f l.
Proof. induction l as [|a l IH]; [reflexivity|]. cbn [flat_map map app]. rewrite IH. reflexivity. Qed.

(** *** What the printing functions print *)

Lemma print_header_lines family method confidence :
  _print_header family method confidence
  = (echoes (header_lines family method confidence), Ok tt).
Proof. destruct confidence; reflexivity. Qed.

Lemma print_single_checklist_lines title suggestions :
  _print_single_checklist title suggestions
  = (echoes (checklist_lines title suggestions), Ok tt).
Proof.
  unfold _print_single_checklist, checklist_lines. rewrite echo_ok, bind_ok.
  destruct suggestions as [|s l]; [reflexivity|].
  cbv iota.
  rewrite (for_lines (fun s => echo ("  - " ++ s)) (fun s => ["  - " ++ s]) (s :: l)
             (fun a _ => eq_refl)).
  rewrite flat_map_one. reflexivity.
Qed.

Lemma print_request_exact_error_lines :
  _print_request_exact_error = (echoes exact_error_lines, Ok tt).
Proof. reflexivity. Qed.

Lemma print_cases_lines cases : forall i,
  print_cases i cases = (echoes (case_lines i cases), Ok tt).
Proof.
  induction cases as [|c l IH]; intros i; [reflexivity|].
  cbn [print_cases case_lines]. rewrite !echo_ok, !bind_ok, IH. reflexivity.
Qed.

Lemma print_similar_cases_lines cases :
  _print_similar_cases cases = (echoes (similar_lines cases), Ok tt).
Proof.
  unfold _print_similar_cases, similar_lines. rewrite echo_ok, bind_ok.
  destruct cases as [|c l]; [reflexivity|].
  rewrite print_cases_lines, bind_ok, echo_ok.
  unfold trace. cbn [fst snd app echoes map]. rewrite map_app. reflexivity.
Qed.

Lemma print_multi_lines playbooks cand cands raw
    (suggestions : string -> list string) :
  (forall x, In x (cand :: cands) ->
     _playbook_suggestions playbooks (fst x) raw = Ok (suggestions (fst x))) ->
  _print_multi_checklists_for_low_confidence playbooks (cand :: cands) raw =
  (echoes (low_confidence_title
           :: flat_map (fun x => checklist_lines (candidate_title x) (suggestions (fst x)))
                (cand :: cands)),
   Ok tt).
Proof.
  intros H. unfold _print_multi_checklists_for_low_confidence.
  rewrite echo_ok, bind_ok.
  rewrite (for_lines _ (fun x => checklist_lines (candidate_title x) (suggestions (fst x)))).
  - reflexivity.
  - intros [fam p] Hin. pose proof (H _ Hin) as E. cbn [fst] in E. rewrite E.
    unfold lift. rewrite bind_ok. unfold candidate_title.
    cbn [fst snd]. rewrite print_single_checklist_lines. reflexivity.
Qed.

Section OrchestratorFacts.
Variable Vec : Type.
Variable cosine_similarity : Vec -> Vec -> Q.
Variable argsort : list Q -> list nat.

(** [_predict_family_ml], case by case. *)
Lemma predict_family_ml_cases (v : Vectorizer Vec) (clf : Classifier Vec) text :
  let x := normalize_text text in
  let x_vec := transform v x in
  _predict_family_ml Vec v clf text =
  match predict_proba clf with
  | None => ([Transform x; ClfPredict], Ok (predict clf x_vec, None, []))
  | Some proba =>
      match for_each (pair_at (classes_ clf) (proba x_vec))
              (seq 0 (List.length (classes_ clf))) with
      | Raise e => ([Transform x; ClfPredict; ClfPredictProba], Raise e)
      | Ok all =>
          let top := firstn TOP_N_ALTERNATIVES (sorted_reverse snd all) in
          ([Transform x; ClfPredict; ClfPredictProba],
           Ok match top with
              | (c, p) :: _ => (c, Some p, top)
              | [] => (predict clf x_vec, None, top)
              end)
      end
  end.
Proof.
  intros x x_vec. unfold _predict_family_ml. fold x. fold x_vec.
  destruct (predict_proba clf) as [proba|]; [|reflexivity].
  unfold emit, lift. rewrite !bind_ok.
  destruct (for_each _ _) as [all|e]; [|reflexivity].
  rewrite bind_ok. cbv zeta.
  destruct (firstn TOP_N_ALTERNATIVES (sorted_reverse snd all)) as [|[c p] top];
    reflexivity.
Qed.

(** A prediction with a confidence has asked for the probabilities, and its
    family and confidence are those of its first candidate. *)
Lemma predict_family_ml_conf (v : Vectorizer Vec) (clf : Classifier Vec) text
    family c cands :
  snd (_predict_family_ml Vec v clf text) = Ok (family, Some c, cands) ->
  (exists rest, cands = (family, c) :: rest) /\
  _predict_family_ml Vec v clf text
  = ([Transform (normalize_text text); ClfPredict; ClfPredictProba],
     Ok (family, Some c, cands)).
Proof.
  rewrite predict_family_ml_cases. cbv zeta.
  destruct (predict_proba clf) as [proba|]; [|discriminate].
  destruct (for_each _ _) as [all|e]; [|discriminate].
  destruct (firstn TOP_N_ALTERNATIVES (sorted_reverse snd all)) as [|[c0 p0] top];
    [discriminate|].
  cbn [snd]. intros H. injection H as <- <- <-. split; [eauto|reflexivity].
Qed.

(** The loaders leave one event each. *)
Lemma load_model_run (e : env Vec) r :
  snd (_load_model Vec e) = Ok r -> _load_model Vec e = ([LoadModel], Ok r).
Proof.
  unfold _load_model.
  destruct (tfidf_joblib e); [destruct (clf_joblib e)|]; cbn; congruence.
Qed.

Lemma load_playbooks_run (e : env Vec) playbooks :
  snd (_load_playbooks Vec e) = Ok playbooks ->
  _load_playbooks Vec e = ([LoadPlaybooks], Ok playbooks).
Proof.
  unfold _load_playbooks.
  destruct (playbooks_yaml e) as [[| |data]|]; cbn; congruence.
Qed.

Lemma load_default_run (e : env Vec) idx :
  snd (load_default Vec e) = Ok idx -> load_default Vec e = ([LoadDefault], Ok idx).
Proof.
  unfold load_default.
  destruct (debug_cases_csv e) as [[rows|]|]; destruct (tfidf_joblib e);
    cbn; congruence.
Qed.

Lemma load_playbooks_ok (e : env Vec) playbooks :
  playbooks_yaml e = Some (Dict playbooks) ->
  _load_playbooks Vec e = ([LoadPlaybooks], Ok playbooks).
Proof. unfold _load_playbooks. intros ->. reflexivity. Qed.

Lemma load_model_ok (e : env Vec) v clf :
  tfidf_joblib e = Some v -> clf_joblib e = Some clf ->
  _load_model Vec e = ([LoadModel], Ok (v, clf)).
Proof. unfold _load_model. intros -> ->. reflexivity. Qed.

Lemma classify_rules (e : env Vec) text raw family :
  rule_predict text = Some family ->
  classify Vec e text raw = ([], Ok (family, "rules", None, [])).
Proof. unfold classify. intros ->. reflexivity. Qed.

Lemma classify_ml (e : env Vec) text raw v clf tr r :
  rule_predict text = None ->
  snd (_load_model Vec e) = Ok (v, clf) ->
  _predict_family_ml Vec v clf raw = (tr, Ok r) ->
  classify Vec e text raw =
  (LoadModel :: tr, Ok (fst (fst r), "ml", snd (fst r), snd r)).
Proof.
  intros Hr Hm Hp. unfold classify. rewrite Hr.
  rewrite (load_model_run e _ Hm), bind_ok. cbv beta iota zeta.
  rewrite Hp, bind_ok. destruct r as [[family confidence] cands].
  unfold ret, trace. simpl. rewrite app_nil_r. reflexivity.
Qed.

(** What follows the classification: the playbook, the header, and one of
    the two branches. *)
Lemma main_after_classify (e : env Vec) text code top_k tr family method
    confidence cands playbooks :
  classify Vec e text (combine_inputs text code)
    = (tr, Ok (family, method, confidence, cands)) ->
  snd (_load_playbooks Vec e) = Ok playbooks ->
  forall branch,
    branch =
      (if low_confidence method confidence then
         _print_multi_checklists_for_low_confidence playbooks cands
           (combine_inputs text code) ;;;
         _print_request_exact_error
       else
         suggestions <- lift (_playbook_suggestions playbooks family
                                (combine_inputs text code)) ;;
         _print_single_checklist "Fix checklist:" suggestions ;;;
         similar_cases Vec cosine_similarity argsort e (combine_inputs text code) top_k) ->
  main Vec cosine_similarity argsort e text code top_k =
    ((tr ++ LoadPlaybooks :: echoes (header_lines family method confidence)
         ++ trace branch)%list,
     snd branch).
Proof.
  intros Hc Hp branch ->. unfold main. rewrite Hc, bind_ok. cbv beta iota zeta.
  rewrite (load_playbooks_run e _ Hp), bind_ok.
  rewrite (bind_lines _ _ _ (print_header_lines family method confidence)).
  unfold trace. cbn [fst snd app]. reflexivity.
Qed.

Lemma bind_starts {A B} (c : M A) (k : A -> M B) :
  exists rest, trace (bind c k) = (trace c ++ rest)%list.
Proof.
  destruct c as [t [a|ex]].
  - rewrite bind_ok. eexists. reflexivity.
  - exists []. cbn. rewrite app_nil_r. reflexivity.
Qed.

Lemma load_default_trace (e : env Vec) : trace (load_default Vec e) = [LoadDefault].
Proof.
  unfold load_default.
  destruct (debug_cases_csv e) as [[rows|]|]; destruct (tfidf_joblib e); reflexivity.
Qed.

(** Retrieval begins by loading the index. *)
Lemma similar_cases_starts (e : env Vec) raw top_k :
  exists rest,
    trace (similar_cases Vec cosine_similarity argsort e raw top_k) = LoadDefault :: rest.
Proof.
  unfold similar_cases.
  destruct (bind_starts (load_default Vec e)
              (fun retrieval =>
                 emit (Query raw top_k) ;;;
                 similar <- lift (query Vec cosine_similarity argsort retrieval raw top_k) ;;
                 _print_similar_cases similar)) as [rest H].
  exists rest. rewrite H, load_default_trace. reflexivity.
Qed.

Lemma similar_cases_lines (e : env Vec) raw top_k idx similar :
  snd (load_default Vec e) = Ok idx ->
  query Vec cosine_similarity argsort idx raw top_k = Ok similar ->
  similar_cases Vec cosine_similarity argsort e raw top_k =
    (LoadDefault :: Query raw top_k :: echoes (similar_lines similar), Ok tt).
Proof.
  intros Hl Hq. unfold similar_cases.
  rewrite (load_default_run e _ Hl), bind_ok.
  unfold emit, lift. rewrite bind_ok, Hq, bind_ok, print_similar_cases_lines.
  reflexivity.
Qed.

(** The branch of the single checklist. *)
Lemma single_branch (e : env Vec) raw top_k playbooks family suggestions :
  _playbook_suggestions playbooks family raw = Ok suggestions ->
  (s <- lift (_playbook_suggestions playbooks family raw) ;;
   _print_single_checklist "Fix checklist:" s ;;;
   similar_cases Vec cosine_similarity argsort e raw top_k)
  = ((echoes (checklist_lines "Fix checklist:" suggestions)
        ++ trace (similar_cases Vec cosine_similarity argsort e raw top_k))%list,
     snd (similar_cases Vec cosine_similarity argsort e raw top_k)).
Proof.
  intros H. rewrite H. unfold lift. rewrite bind_ok.
  rewrite (bind_lines _ _ _ (print_single_checklist_lines _ _)).
  unfold trace. cbn [fst snd app]. reflexivity.
Qed.

(** *** Which events a request can leave *)

Lemma Forall_bind {A B} (P : event -> Prop) (c : M A) (k : A -> M B) :
  Forall P (trace c) -> (forall a, Forall P (trace (k a))) ->
  Forall P (trace (bind c k)).
Proof.
  destruct c as [t [a|e]]; intros Hc Hk; [|exact Hc].
  rewrite bind_ok. unfold trace at 1. cbn [fst].
  apply Forall_app. split; [exact Hc|apply Hk].
Qed.

Lemma Forall_for {A} (P : event -> Prop) (body : A -> M unit) l :
  (forall a, Forall P (trace (body a))) -> Forall P (trace (for_ l body)).
Proof.
  intros H. induction l as [|a l IH]; simpl; [constructor|].
  apply Forall_bind; auto.
Qed.

Ltac trace_tac :=
  repeat first
    [ apply Forall_bind; [|intros]
    | apply Forall_for; intros
    | progress (unfold echo, emit, raise, ret, lift, trace; cbn [fst])
    | match goal with
      | |- Forall _ [] => constructor
      | |- Forall _ (_ :: _) => constructor; [reflexivity|]
      | |- Forall _ (fst (match ?x with _ => _ end)) => destruct x
      | |- Forall _ (fst (if ?x then _ else _)) => destruct x
      end ].

Lemma echoes_echo lines : Forall (fun ev => is_echo ev = true) (echoes lines).
Proof. induction lines; constructor; [reflexivity|assumption]. Qed.

Lemma print_single_checklist_echo title suggestions :
  Forall (fun ev => is_echo ev = true) (trace (_print_single_checklist title suggestions)).
Proof. rewrite print_single_checklist_lines. apply echoes_echo. Qed.

Lemma print_header_echo family method confidence :
  Forall (fun ev => is_echo ev = true) (trace (_print_header family method confidence)).
Proof. rewrite print_header_lines. apply echoes_echo. Qed.

Lemma print_cases_echo cases : forall i,
  Forall (fun ev => is_echo ev = true) (trace (print_cases i cases)).
Proof. intros i. rewrite print_cases_lines. apply echoes_echo. Qed.

Lemma echo_not_ml l :
  Forall (fun ev => is_echo ev = true) l -> Forall (fun ev => is_ml_event ev = false) l.
Proof. apply Forall_impl. intros [] H; try discriminate; reflexivity. Qed.

Lemma echo_not_retrieval l :
  Forall (fun ev => is_echo ev = true) l ->
  Forall (fun ev => is_retrieval_event ev = false) l.
Proof. apply Forall_impl. intros [] H; try discriminate; reflexivity. Qed.

Lemma similar_cases_no_ml (e : env Vec) raw top_k :
  Forall (fun ev => is_ml_event ev = false)
    (trace (similar_cases Vec cosine_similarity argsort e raw top_k)).
Proof.
  unfold similar_cases, load_default, _print_similar_cases. trace_tac.
  - apply echo_not_ml, print_cases_echo.
Qed.

Lemma low_confidence_rules confidence : low_confidence "rules" confidence = false.
Proof. reflexivity. Qed.

Lemma low_confidence_below c :
  (c < LOW_CONF_THRESHOLD)%Q -> low_confidence "ml" (Some c) = true.
Proof.
  intros H. unfold low_confidence.
  destruct (Qle_bool LOW_CONF_THRESHOLD c) eqn:E; [|reflexivity].
  apply Qle_bool_iff in E. exfalso. exact (Qlt_not_le _ _ H E).
Qed.

Lemma low_confidence_above c :
  (LOW_CONF_THRESHOLD <= c)%Q -> low_confidence "ml" (Some c) = false.
Proof.
  intros H. unfold low_confidence. apply Qle_bool_iff in H. rewrite H. reflexivity.
Qed.

(** C5. When [rule_predict] returns a family, the classification is
    exactly (that family, rules, no confidence, no candidates), obtained
    without any event, and the whole request leaves no event of the
    statistical path: the model is neither loaded nor asked. *)
Theorem rules_exclude_ml (e : env Vec) (text : string) (code : option string)
    (top_k : Z) (family : string) :
  rule_predict text = Some family ->
  classify Vec e text (combine_inputs text code)
    = ([], Ok (family, "rules", None, [])) /\
  Forall (fun ev => is_ml_event ev = false)
    (trace (main Vec cosine_similarity argsort e text code top_k)).
Proof.
  intros H. split; [apply classify_rules; exact H|].
  unfold main. rewrite (classify_rules _ _ _ _ H), bind_ok.
  unfold trace at 1. cbn [fst app]. cbv beta iota zeta.
  rewrite low_confidence_rules.
  apply Forall_bind.
  { unfold _load_playbooks. trace_tac. }
  intros playbooks. apply Forall_bind; [apply echo_not_ml, print_header_echo|].
  intros _. apply Forall_bind; [unfold lift, trace; constructor|].
  intros suggestions.
  apply Forall_bind; [apply echo_not_ml, print_single_checklist_echo|].
  intros _. apply similar_cases_no_ml.
Qed.

(** C3. A request that the rules leave undecided and whose top candidate
    has a known probability [c], with the model and the playbook loaded and
    the playbook giving its suggestions for each candidate.  Below
    [LOW_CONF_THRESHOLD] the request loads the model, classifies, loads the
    playbook and prints, in this order: the header, the line that announces
    the checklists, a checklist for each top candidate, the winner first,
    and the request for the exact error; it ends there, with no event of
    similar-case retrieval.  At the threshold or above it prints the single
    checklist of the winner instead and goes on to retrieval.  The floats
    0.30 and 0.40 fall on the two sides of the test. *)
Theorem low_confidence_branch (e : env Vec) (text : string) (code : option string)
    (top_k : Z) (v : Vectorizer Vec) (clf : Classifier Vec) (playbooks : Playbooks)
    (family : string) (c : Q) (cands : list (string * Q))
    (suggestions : string -> list string) :
  let raw_input := combine_inputs text code in
  rule_predict text = None ->
  snd (_load_model Vec e) = Ok (v, clf) ->
  snd (_predict_family_ml Vec v clf raw_input) = Ok (family, Some c, cands) ->
  snd (_load_playbooks Vec e) = Ok playbooks ->
  (forall cand, In cand cands ->
     _playbook_suggestions playbooks (fst cand) raw_input
     = Ok (suggestions (fst cand))) ->
  (exists rest, cands = (family, c) :: rest) /\
  ((c < LOW_CONF_THRESHOLD)%Q ->
   main Vec cosine_similarity argsort e text code top_k =
     ((LoadModel :: Transform (normalize_text raw_input) :: ClfPredict
         :: ClfPredictProba :: LoadPlaybooks
         :: echoes (header_lines family "ml" (Some c)
                    ++ low_confidence_title
                    :: flat_map (fun cand =>
                                   checklist_lines (candidate_title cand)
                                     (suggestions (fst cand))) cands
                    ++ exact_error_lines))%list,
      Ok tt) /\
   Forall (fun ev => is_retrieval_event ev = false)
     (trace (main Vec cosine_similarity argsort e text code top_k))) /\
  ((LOW_CONF_THRESHOLD <= c)%Q ->
   exists rest r,
     main Vec cosine_similarity argsort e text code top_k =
       ((LoadModel :: Transform (normalize_text raw_input) :: ClfPredict
           :: ClfPredictProba :: LoadPlaybooks
           :: echoes (header_lines family "ml" (Some c)
                      ++ checklist_lines "Fix checklist:" (suggestions family))
           ++ LoadDefault :: rest)%list,
        r)) /\
  low_confidence "ml" (Some float_0_30) = true /\
  low_confidence "ml" (Some float_0_40) = false.
Proof.
  intros raw_input Hr Hm Hml Hp Hs.
  destruct (predict_family_ml_conf _ _ _ _ _ _ Hml) as [[rest Hc1] Hrun].
  pose proof (classify_ml e text raw_input v clf _ _ Hr Hm Hrun) as Hc.
  cbn [fst snd] in Hc.
  split; [eauto|]. split; [|split; [|split; reflexivity]].
  - intros Hlow.
    assert (Hmain : main Vec cosine_similarity argsort e text code top_k =
     ((LoadModel :: Transform (normalize_text raw_input) :: ClfPredict
         :: ClfPredictProba :: LoadPlaybooks
         :: echoes (header_lines family "ml" (Some c)
                    ++ low_confidence_title
                    :: flat_map (fun cand =>
                                   checklist_lines (candidate_title cand)
                                     (suggestions (fst cand))) cands
                    ++ exact_error_lines))%list,
      Ok tt)).
    { rewrite (main_after_classify e text code top_k _ _ _ _ _ _ Hc Hp _ eq_refl).
      rewrite (low_confidence_below c Hlow). fold raw_input.
      rewrite Hc1 in Hs |- *. rewrite (print_multi_lines _ _ _ _ suggestions Hs), bind_ok.
      rewrite print_request_exact_error_lines.
      unfold trace. cbn [fst snd app]. rewrite !echoes_app. cbn [echoes map app].
      rewrite echoes_app. reflexivity. }
    split; [exact Hmain|]. rewrite Hmain. unfold trace. cbn [fst].
    repeat (constructor; [reflexivity|]). apply echo_not_retrieval, echoes_echo.
  - intros Habove.
    destruct (similar_cases_starts e raw_input top_k) as [rest' Hrest].
    exists rest', (snd (similar_cases Vec cosine_similarity argsort e raw_input top_k)).
    rewrite (main_after_classify e text code top_k _ _ _ _ _ _ Hc Hp _ eq_refl).
    rewrite (low_confidence_above c Habove). fold raw_input.
    rewrite (single_branch e raw_input top_k playbooks family (suggestions family)).
    + unfold trace in *. cbn [fst snd app]. rewrite Hrest, echoes_app, <- !app_assoc.
      reflexivity.
    + apply (Hs (family, c)). rewrite Hc1. left. reflexivity.
Qed.

(** C8. A classifier without [predict_proba] gives the label of [predict]
    with no confidence and no candidates, asking for no probability; the
    request then skips the low-confidence branch: with the model and the
    playbook loaded and the playbook giving its suggestions for the label,
    it prints the header without a confidence and the single checklist of
    that label, and goes on to similar-case retrieval, whose results it
    prints when the index loads and the query returns. *)
Theorem no_proba_skips_fallback (e : env Vec) (text : string) (code : option string)
    (top_k : Z) (v : Vectorizer Vec) (clf : Classifier Vec) (playbooks : Playbooks)
    (suggestions : list string) :
  let raw_input := combine_inputs text code in
  let x := normalize_text raw_input in
  let label := predict clf (transform v x) in
  predict_proba clf = None ->
  _predict_family_ml Vec v clf raw_input
    = ([Transform x; ClfPredict], Ok (label, None, [])) /\
  low_confidence "ml" None = false /\
  (rule_predict text = None ->
   snd (_load_model Vec e) = Ok (v, clf) ->
   snd (_load_playbooks Vec e) = Ok playbooks ->
   _playbook_suggestions playbooks label raw_input = Ok suggestions ->
   (exists rest r,
      main Vec cosine_similarity argsort e text code top_k =
        ((LoadModel :: Transform x :: ClfPredict :: LoadPlaybooks
            :: echoes (header_lines label "ml" None
                       ++ checklist_lines "Fix checklist:" suggestions)
            ++ LoadDefault :: rest)%list,
         r)) /\
   (forall idx similar,
      snd (load_default Vec e) = Ok idx ->
      query Vec cosine_similarity argsort idx raw_input top_k = Ok similar ->
      main Vec cosine_similarity argsort e text code top_k =
        ((LoadModel :: Transform x :: ClfPredict :: LoadPlaybooks
            :: echoes (header_lines label "ml" None
                       ++ checklist_lines "Fix checklist:" suggestions)
            ++ LoadDefault :: Query raw_input top_k
            :: echoes (similar_lines similar))%list,
         Ok tt))).
Proof.
  intros raw_input x label Hnone.
  assert (Hml : _predict_family_ml Vec v clf raw_input
                = ([Transform x; ClfPredict], Ok (label, None, []))).
  { rewrite predict_family_ml_cases. cbv zeta. rewrite Hnone. reflexivity. }
  split; [exact Hml|]. split; [reflexivity|].
  intros Hr Hm Hp Hs.
  pose proof (classify_ml e text raw_input v clf _ _ Hr Hm Hml) as Hc.
  cbn [fst snd] in Hc.
  assert (Hmain : main Vec cosine_similarity argsort e text code top_k =
    ((LoadModel :: Transform x :: ClfPredict :: LoadPlaybooks
        :: echoes (header_lines label "ml" None
                   ++ checklist_lines "Fix checklist:" suggestions)
        ++ trace (similar_cases Vec cosine_similarity argsort e raw_input top_k))%list,
     snd (similar_cases Vec cosine_similarity argsort e raw_input top_k))).
  { rewrite (main_after_classify e text code top_k _ _ _ _ _ _ Hc Hp _ eq_refl).
    change (low_confidence "ml" None) with false. cbv iota. fold raw_input.
    rewrite (single_branch e raw_input top_k playbooks label suggestions Hs).
    unfold trace. cbn [fst snd app]. rewrite echoes_app, <- !app_assoc. reflexivity. }
  split.
  - destruct (similar_cases_starts e raw_input top_k) as [rest Hrest].
    exists rest, (snd (similar_cases Vec cosine_similarity argsort e raw_input top_k)).
    rewrite Hmain. unfold trace in *. rewrite Hrest. reflexivity.
  - intros idx similar Hl Hq. rewrite Hmain.
    rewrite (similar_cases_lines e raw_input top_k idx similar Hl Hq). reflexivity.
Qed.
End OrchestratorFacts.

Lemma rules_exclude_ml_witness :
  rule_predict "ModuleNotFoundError: No module named 'requests'" = Some "import_error" /\
  Forall (fun ev => is_ml_event ev = false)
    (trace (main string same_text argsort_stable (sample_env sample_clf)
              "ModuleNotFoundError: No module named 'requests'" None 3)).
Proof.
  split; [vm_compute; reflexivity|].
  apply (rules_exclude_ml string same_text argsort_stable (sample_env sample_clf)
           "ModuleNotFoundError: No module named 'requests'" None 3 "import_error").
  vm_compute. reflexivity.
Defined.

(** The suggestions that [sample_playbooks] has for a text without key
    phrase. *)
Lemma sample_suggestions (fam : string) :
  _playbook_suggestions sample_playbooks fam "it broke again"
  = Ok (if fam =? "type_error" then ["Check the types of the operands."]
        else if fam =? "key_error" then ["Check that the key exists."]
        else []).
Proof.
  unfold _playbook_suggestions, sample_playbooks. cbn [lookup].
  destruct (fam =? "type_error") eqn:E1.
  - apply String.eqb_eq in E1. subst fam. reflexivity.
  - rewrite String.eqb_sym, E1.
    destruct (fam =? "key_error") eqn:E2.
    + apply String.eqb_eq in E2. subst fam. reflexivity.
    + rewrite String.eqb_sym, E2. reflexivity.
Qed.

Lemma low_confidence_branch_witness :
  main string same_text argsort_stable (sample_env sample_clf)
    "it broke again" None 3
  = ([ LoadModel; Transform "it broke again"; ClfPredict; ClfPredictProba;
       LoadPlaybooks;
       Echo EmptyString;
       Echo "       * DebugAssist *";
       Echo "==============================";
       Echo (NL ++ "Predicted family: type_error   (via ml, confidence=0.30)");
       Echo (NL ++ "Low confidence — showing fix checklists for top candidates:");
       Echo (NL ++ "Fix Checklist (type_error) (score: 0.30):");
       Echo "  - Check the types of the operands.";
       Echo (NL ++ "Fix Checklist (value_error) (score: 0.28):");
       Echo "  (No playbook suggestions found for this category yet.)";
       Echo (NL ++ "Fix Checklist (attribute_error) (score: 0.25):");
       Echo "  (No playbook suggestions found for this category yet.)";
       Echo (NL ++ "To improve accuracy, paste the exact error/traceback output from your terminal/IDE.");
       Echo (NL ++ "Example:");
       Echo ("  python3 -m debugassist.predict --text " ++ DQ
               ++ "Traceback (most recent call last): ..." ++ DQ ++ NL) ],
     Ok tt)
  /\
  exists rest r,
    main string same_text argsort_stable (sample_env sample_clf_40)
      "it broke again" None 3
    = (([ LoadModel; Transform "it broke again"; ClfPredict; ClfPredictProba;
          LoadPlaybooks;
          Echo EmptyString;
          Echo "       * DebugAssist *";
          Echo "==============================";
          Echo (NL ++ "Predicted family: type_error   (via ml, confidence=0.40)");
          Echo (NL ++ "Fix checklist:");
          Echo "  - Check the types of the operands." ]
        ++ LoadDefault :: rest)%list, r).
Proof.
  split.
  - destruct (low_confidence_branch string same_text argsort_stable
                (sample_env sample_clf) "it broke again" None 3
                text_vectorizer sample_clf sample_playbooks
                "type_error" (30#100)%Q
                [("type_error", (30#100)%Q); ("value_error", (28#100)%Q);
                 ("attribute_error", (25#100)%Q)]
                (fun fam => if fam =? "type_error"
                            then ["Check the types of the operands."]
                            else if fam =? "key_error"
                            then ["Check that the key exists."] else []))
      as (_ & H & _).
    + vm_compute. reflexivity.
    + reflexivity.
    + vm_compute. reflexivity.
    + reflexivity.
    + intros cand _. apply sample_suggestions.
    + destruct (H ltac:(reflexivity)) as [Hmain _]. rewrite Hmain.
      vm_compute. reflexivity.
  - destruct (low_confidence_branch string same_text argsort_stable
                (sample_env sample_clf_40) "it broke again" None 3
                text_vectorizer sample_clf_40 sample_playbooks
                "type_error" (4#10)%Q
                [("type_error", (4#10)%Q); ("import_error", (2#10)%Q);
                 ("index_error", (2#10)%Q)]
                (fun fam => if fam =? "type_error"
                            then ["Check the types of the operands."]
                            else if fam =? "key_error"
                            then ["Check that the key exists."] else []))
      as (_ & _ & H & _).
    + vm_compute. reflexivity.
    + reflexivity.
    + vm_compute. reflexivity.
    + reflexivity.
    + intros cand _. apply sample_suggestions.
    + destruct (H ltac:(vm_compute; discriminate)) as (rest & r & Hmain).
      exists rest, r. rewrite Hmain. f_equal.
Defined.

Lemma no_proba_skips_fallback_witness :
  main string same_text argsort_stable (sample_env sample_clf_no_proba)
    "it broke again" None 1
  = ([ LoadModel; Transform "it broke again"; ClfPredict;
       LoadPlaybooks;
       Echo EmptyString;
       Echo "       * DebugAssist *";
       Echo "==============================";
       Echo (NL ++ "Predicted family: type_error   (via ml)");
       Echo (NL ++ "Fix checklist:");
       Echo "  - Check the types of the operands.";
       LoadDefault; Query "it broke again" 1;
       Echo (NL ++ "Similar solved cases:");
       Echo (NL ++ "  #1  score=0.000  label=key_error  id=c2");
       Echo "     error: KeyError: 'user_id'";
       Echo "     fix:   Check the key first.";
       Echo EmptyString ],
     Ok tt).
Proof.
  destruct (no_proba_skips_fallback string same_text argsort_stable
              (sample_env sample_clf_no_proba) "it broke again" None 1
              text_vectorizer sample_clf_no_proba sample_playbooks
              ["Check the types of the operands."] eq_refl)
    as (_ & _ & H).
  destruct H as [_ H].
  - vm_compute. reflexivity.
  - reflexivity.
  - reflexivity.
  - apply (sample_suggestions "type_error").
  - rewrite (H (__init__ two_cases text_vectorizer)
               [ {| id := "c2"; error_family := "key_error";
                    error_text := "KeyError: 'user_id'";
                    fix_text := "Check the key first."; score := 0 |} ]).
    + vm_compute. reflexivity.
    + reflexivity.
    + vm_compute. reflexivity.
Defined.

(** ** More on the normalizer *)

Lemma blank_all_chars s : blank s = all_chars isspace s.
Proof. induction s as [|c t IH]; simpl; [reflexivity|]. rewrite IH. reflexivity. Qed.

Lemma lstrip_pad w s : blank w = true -> lstrip (w ++ s) = lstrip s.
Proof.
  induction w as [|c w IH]; simpl; [reflexivity|]. intros H.
  apply andb_true_iff in H. destruct H as [Hc H]. rewrite Hc. auto.
Qed.

Lemma lstrip_app s w :
  lstrip (s ++ w) = if blank s then lstrip w else lstrip s ++ w.
Proof.
  induction s as [|c s IH]; simpl; [reflexivity|].
  destruct (isspace c); simpl; [exact IH|reflexivity].
Qed.

Lemma strip_pad w1 s w2 :
  blank w1 = true -> blank w2 = true -> strip (w1 ++ s ++ w2) = strip s.
Proof.
  intros H1 H2. unfold strip. rewrite (lstrip_pad _ _ H1), lstrip_app.
  destruct (blank s) eqn:B.
  - rewrite (lstrip_blank _ H2), (lstrip_blank _ B). reflexivity.
  - apply rstrip_app_space. rewrite <- blank_all_chars. exact H2.
Qed.

Lemma isspace_lower : forall c, isspace (lower_char c) = isspace c.
Proof. all_ascii. Qed.

Lemma lstrip_lower s : lstrip (lower s) = lower (lstrip s).
Proof.
  induction s as [|c t IH]; simpl; [reflexivity|].
  rewrite isspace_lower. destruct (isspace c); [exact IH|reflexivity].
Qed.

Lemma rstrip_lower s : rstrip (lower s) = lower (rstrip s).
Proof.
  induction s as [|c t IH]; simpl; [reflexivity|].
  rewrite IH, isspace_lower. destruct (rstrip t); simpl; [|reflexivity].
  destruct (isspace c); reflexivity.
Qed.

Lemma strip_lower s : strip (lower s) = lower (strip s).
Proof. unfold strip. rewrite lstrip_lower, rstrip_lower. reflexivity. Qed.

Lemma lower_lower s : lower (lower s) = lower s.
Proof. apply lower_lowered, lowered_lower. Qed.

(** The last step of [normalize_text], whatever the masks did before. *)
Lemma normalize_text_last s :
  exists t, normalize_text s = strip (collapse false t).
Proof.
  unfold normalize_text. eexists. unfold sub at 1.
  rewrite sub_whitespace by lia. reflexivity.
Qed.

(** X1. The normalized text has no whitespace at either end, and inside it
    whitespace is a single space at a time: no newline, no tab, no run of
    spaces, for every input. *)
Theorem normalize_text_tidy (s : string) :
  tidy (normalize_text s) = true /\
  strip (normalize_text s) = normalize_text s.
Proof.
  destruct (normalize_text_last s) as [t ->]. split.
  - apply tidy_rstrip, tidy_lstrip, collapse_tidy.
  - apply strip_strip.
Qed.

(** X2. A blank text, or no text at all, normalizes to the empty string. *)
Theorem normalize_text_blank (s : string) :
  blank s = true ->
  normalize_text s = EmptyString /\ normalize_text_opt (Some s) = EmptyString /\
  normalize_text_opt None = EmptyString.
Proof.
  intros H.
  assert (E : normalize_text s = EmptyString).
  { unfold normalize_text. rewrite (strip_blank s H). reflexivity. }
  repeat split; exact E.
Qed.

Lemma normalize_text_blank_witness :
  normalize_text (String newline (String " " (String "009" EmptyString))) = EmptyString.
Proof. apply normalize_text_blank. reflexivity. Defined.

(** X3. Normalization does not see the case of the letters of its input nor
    the whitespace around it. *)
Theorem normalize_text_case_and_padding (w1 s w2 : string) :
  blank w1 = true -> blank w2 = true ->
  normalize_text (lower s) = normalize_text s /\
  normalize_text (w1 ++ s ++ w2) = normalize_text s.
Proof.
  intros H1 H2. unfold normalize_text.
  rewrite strip_lower, lower_lower, (strip_pad _ _ _ H1 H2). split; reflexivity.
Qed.

Lemma normalize_text_case_and_padding_witness :
  normalize_text (lower "KeyError: 'Id'") = normalize_text "KeyError: 'Id'" /\
  normalize_text (String newline " " ++ "KeyError: 'Id'" ++ "  ")
  = normalize_text "KeyError: 'Id'".
Proof. apply normalize_text_case_and_padding; reflexivity. Defined.

Lemma sub_from_not_found p repl : forall n s pv,
  search_from p pv s = false -> sub_from n p repl pv s = s.
Proof.
  induction n as [|n IH]; intros s pv H; simpl; [reflexivity|].
  destruct s as [|c t]; simpl in H.
  - destruct (match_at p pv EmptyString); [discriminate|reflexivity].
  - destruct (match_at p pv (String c t)); [discriminate|].
    rewrite (IH _ _ H). reflexivity.
Qed.

Lemma sub_not_found p repl s : search p s = false -> sub p repl s = s.
Proof. apply sub_from_not_found. Qed.

(** X4. When none of the six mask patterns is found in the lowercased,
    stripped input, normalization only lowercases the text and collapses
    its whitespace. *)
Theorem normalize_text_unmasked (s : string) :
  unmasked (lower (strip s)) = true ->
  normalize_text s = strip (collapse false (lower (strip s))).
Proof.
  intros H. unfold unmasked, mask_patterns in H. simpl in H.
  repeat (apply andb_true_iff in H; destruct H as [?H H]).
  repeat match goal with
         | h : negb _ = true |- _ => apply negb_true_iff in h
         end.
  unfold normalize_text.
  rewrite (sub_not_found _WINDOWS_PATH_RE) by assumption.
  rewrite (sub_not_found _UNIX_PATH_RE) by assumption.
  rewrite (sub_not_found _LINE_NUMBER_RE) by assumption.
  rewrite (sub_not_found _HEX_RE) by assumption.
  rewrite (sub_not_found _QUOTED_STR_RE) by assumption.
  rewrite (sub_not_found _PLAIN_INT_RE) by assumption.
  unfold sub. rewrite sub_whitespace by lia. reflexivity.
Qed.

Lemma normalize_text_unmasked_witness :
  normalize_text "  Step 12a:   it's   BROKEN " = "step 12a: it's broken".
Proof.
  rewrite normalize_text_unmasked; vm_compute; reflexivity.
Defined.

(** ** More on the rule classifier *)

Lemma first_match_in rules text family :
  first_match rules text = Some family ->
  exists pat, In (family, pat) rules /\ search pat text = true.
Proof.
  induction rules as [|[fam pat] rules IH]; simpl; [discriminate|].
  destruct (search pat text) eqn:E.
  - intros H. injection H as <-. exists pat. auto.
  - intros H. destruct (IH H) as (p & Hin & Hs). exists p. auto.
Qed.

Lemma first_match_none rules text :
  first_match rules text = None <->
  (forall r, In r rules -> search (snd r) text = false).
Proof.
  induction rules as [|[fam pat] rules IH]; simpl.
  - split; [intros _ r [] | reflexivity].
  - destruct (search pat text) eqn:E.
    + split; [discriminate|]. intros H.
      specialize (H (fam, pat) (or_introl eq_refl)). simpl in H. congruence.
    + rewrite IH. split.
      * intros H r [<-|Hr]; [exact E | apply H; exact Hr].
      * intros H r Hr. apply H. right. exact Hr.
Qed.

Lemma rule_predict_first_match error_text :
  rule_predict error_text = first_match _RULES (strip error_text).
Proof.
  destruct (strip error_text) as [|c t] eqn:E.
  - unfold rule_predict. rewrite E. rewrite orb_true_r.
    symmetry. apply first_match_none. intros r Hr.
    pose proof no_rule_matches_empty as H. rewrite forallb_forall in H.
    apply negb_true_iff. apply H. exact Hr.
  - rewrite <- E. apply rule_predict_nonblank. rewrite E. discriminate.
Qed.

Lemma rule_families_closed :
  forallb (fun r => existsb (String.eqb (fst r)) ERROR_FAMILIES) _RULES = true.
Proof. vm_compute. reflexivity. Qed.

(** X5. Whatever the text, a family returned by [rule_predict] is one of the
    ten families of [ERROR_FAMILIES]. *)
Theorem rule_predict_family_known (error_text family : string) :
  rule_predict error_text = Some family -> In family ERROR_FAMILIES.
Proof.
  rewrite rule_predict_first_match. intros H.
  destruct (first_match_in _ _ _ H) as (pat & Hin & _).
  pose proof rule_families_closed as C. rewrite forallb_forall in C.
  specialize (C _ Hin). cbn [fst] in C.
  apply existsb_exists in C. destruct C as (f & Hf & E).
  apply String.eqb_eq in E. subst f. exact Hf.
Qed.

Lemma rule_predict_family_known_witness :
  rule_predict "ZeroDivisionError: division by zero" = Some "zero_division" /\
  In "zero_division" ERROR_FAMILIES.
Proof.
  assert (H : rule_predict "ZeroDivisionError: division by zero" = Some "zero_division")
    by (vm_compute; reflexivity).
  split; [exact H|]. exact (rule_predict_family_known _ _ H).
Defined.

(** X6. [rule_predict] gives no decision exactly when the pattern of no rule
    is found in the stripped text: the statistical model is the fallback
    for these texts and for no other. *)
Theorem rule_predict_none_iff (error_text : string) :
  rule_predict error_text = None <->
  (forall r, In r _RULES -> search (snd r) (strip error_text) = false).
Proof. rewrite rule_predict_first_match. apply first_match_none. Qed.

(** X7. Whitespace around the text does not change the decision of the
    rules. *)
Theorem rule_predict_padding (w1 error_text w2 : string) :
  blank w1 = true -> blank w2 = true ->
  rule_predict (w1 ++ error_text ++ w2) = rule_predict error_text.
Proof.
  intros H1 H2. rewrite !rule_predict_first_match, (strip_pad _ _ _ H1 H2).
  reflexivity.
Qed.

Lemma rule_predict_padding_witness :
  rule_predict (String newline "  " ++ "KeyError: 'id'" ++ String newline EmptyString)
  = rule_predict "KeyError: 'id'".
Proof. apply rule_predict_padding; reflexivity. Defined.

(** ** Case *)

Lemma class_blind_spec p : class_blind p = true -> forall c, p (lower_char c) = p c.
Proof.
  unfold class_blind. rewrite forallb_forall. intros H c.
  apply eqb_prop. apply H.
  rewrite <- (ascii_nat_embedding c). apply in_map, in_seq.
  pose proof (nat_ascii_bounded c). lia.
Qed.

Lemma lower_char_idem : forall c, lower_char (lower_char c) = lower_char c.
Proof. all_ascii. Qed.

Lemma isword_lower : forall c, isword (lower_char c) = isword c.
Proof. all_ascii. Qed.

Lemma newline_lower : forall c, (lower_char c =? newline)%char = (c =? newline)%char.
Proof. all_ascii. Qed.

Lemma length_lower s : length (lower s) = length s.
Proof. induction s as [|c t IH]; simpl; [reflexivity|]. rewrite IH. reflexivity. Qed.

Lemma orelse_low a b :
  orelse (option_map low a) (option_map low b) = option_map low (orelse a b).
Proof. destruct a; reflexivity. Qed.

Section CaseBlind.
Variable f : flags.

Lemma rep_low body g k k' :
  (forall st k1 k1', together k1 k1' -> body (low st) k1' = option_map low (body st k1)) ->
  together k k' ->
  forall n lo hi st,
    rep body g n lo hi (low st) k' = option_map low (rep body g n lo hi st k).
Proof.
  intros Hb Hk. induction n as [|n IH]; intros lo hi st.
  - rewrite !rep_0. destruct (Nat.eqb lo 0); [apply Hk|reflexivity].
  - rewrite !rep_S. cbv zeta.
    assert (A : body (low st) (fun st' =>
                  if (length (rest st') <? length (rest (low st)))%nat
                  then rep body g n (pred lo) (option_map pred hi) st' k' else None)
              = option_map low (body st (fun st' =>
                  if (length (rest st') <? length (rest st))%nat
                  then rep body g n (pred lo) (option_map pred hi) st' k else None))).
    { apply Hb. intros st'. cbn [low rest]. rewrite !length_lower.
      destruct (_ <? _)%nat; [apply IH|reflexivity]. }
    rewrite (Hk st).
    destruct hi as [[|h]|]; (try rewrite A); destruct (0 <? lo)%nat; destruct g;
      try reflexivity; try (destruct (k st); reflexivity);
      match goal with
      | |- context [body st ?c] => destruct (body st c); destruct (k st); reflexivity
      end.
Qed.

Lemma m_low r : case_blind f r = true ->
  forall st k k', together k k' -> m f r (low st) k' = option_map low (m f r st k).
Proof.
  induction r; intros B st k k' Hk; simpl in B; try discriminate.
  - apply Hk.
  - simpl. destruct (rest st) as [|x t]; [reflexivity|]. simpl.
    unfold chr_eq. rewrite B, lower_char_idem.
    destruct (_ =? _)%char; [apply (Hk (advance st x t))|reflexivity].
  - simpl. destruct (rest st) as [|x t]; [reflexivity|]. simpl.
    rewrite (class_blind_spec _ B).
    destruct (f0 x); [apply (Hk (advance st x t))|reflexivity].
  - apply andb_true_iff in B. destruct B as [B1 B2]. rewrite !m_seq.
    apply IHr1; [exact B1|]. intros st'. apply IHr2; assumption.
  - rewrite !m_rep. cbn [low rest]. rewrite length_lower.
    apply rep_low; [|exact Hk]. intros st0 k1 k1' H1. apply IHr; assumption.
  - simpl. unfold word_before, word_after. cbn [low prev rest].
    replace (match option_map lower_char (prev st) with
             | Some c => isword c | None => false end)
      with (match prev st with Some c => isword c | None => false end)
      by (destruct (prev st); simpl; rewrite ?isword_lower; reflexivity).
    replace (match lower (rest st) with
             | String c _ => isword c | EmptyString => false end)
      with (match rest st with String c _ => isword c | EmptyString => false end)
      by (destruct (rest st); simpl; rewrite ?isword_lower; reflexivity).
    destruct (xorb _ _); [apply Hk|reflexivity].
  - simpl. destruct (prev st) as [c|]; simpl; [|apply Hk].
    rewrite newline_lower. destruct (_ && _); [apply Hk|reflexivity].
  - simpl. destruct (rest st) as [|c t]; simpl; [apply Hk|].
    rewrite newline_lower.
    replace (match lower t with EmptyString => true | String _ _ => false end)
      with (match t with EmptyString => true | String _ _ => false end)
      by (destruct t; reflexivity).
    destruct (_ && _); [apply Hk|reflexivity].
Qed.
End CaseBlind.

Lemma match_at_low p pv s :
  case_blind (fl p) (re p) = true ->
  match_at p (option_map lower_char pv) (lower s) = option_map low (match_at p pv s).
Proof.
  intros B. unfold match_at.
  apply (m_low (fl p) (re p) B {| prev := pv; rest := s; caps := [] |}).
  intros st. reflexivity.
Qed.

Lemma search_from_low p : case_blind (fl p) (re p) = true ->
  forall s pv, search_from p (option_map lower_char pv) (lower s) = search_from p pv s.
Proof.
  intros B. induction s as [|c t IH]; intros pv.
  - cbn [lower search_from].
    change EmptyString with (lower EmptyString) at 1.
    rewrite (match_at_low p pv EmptyString B).
    destruct (match_at p pv EmptyString); reflexivity.
  - cbn [lower]. cbn [search_from].
    change (String (lower_char c) (lower t)) with (lower (String c t)).
    rewrite (match_at_low p pv (String c t) B).
    destruct (match_at p pv (String c t)); [reflexivity|]. apply (IH (Some c)).
Qed.

Lemma search_lower p s :
  case_blind (fl p) (re p) = true -> search p (lower s) = search p s.
Proof. intros B. apply (search_from_low p B s None). Qed.

Lemma rules_case_blind :
  forallb (fun r => case_blind (fl (snd r)) (re (snd r))) _RULES = true.
Proof. vm_compute. reflexivity. Qed.

Lemma first_match_lower rules text :
  forallb (fun r => case_blind (fl (snd r)) (re (snd r))) rules = true ->
  first_match rules (lower text) = first_match rules text.
Proof.
  induction rules as [|[fam pat] rules IH]; simpl; [reflexivity|]. intros H.
  apply andb_true_iff in H. destruct H as [B H].
  rewrite (search_lower pat text B), (IH H). reflexivity.
Qed.

(** X8. On ASCII texts the rules do not see the case of letters: two such
    texts with the same lowercase get the same decision.  This holds for
    the bare-key rule too, the only one compiled without IGNORECASE. *)
Theorem rule_predict_case (a b : string) :
  ascii_text a = true -> ascii_text b = true ->
  lower a = lower b -> rule_predict a = rule_predict b.
Proof.
  intros _ _ H. rewrite !rule_predict_first_match.
  rewrite <- (first_match_lower _ (strip a) rules_case_blind).
  rewrite <- (first_match_lower _ (strip b) rules_case_blind).
  rewrite <- !strip_lower, H. reflexivity.
Qed.

Lemma rule_predict_case_witness :
  rule_predict "KEYERROR: 'ID'" = rule_predict "KeyError: 'id'".
Proof. apply rule_predict_case; reflexivity. Defined.

(** ** The keyword rules *)

Section Phrases.
Variable f : flags.
Hypothesis f_ignorecase : ignorecase f = true.

Lemma read_word_sound : forall w st st',
  read_word f w st = Some st' ->
  exists mid post,
    rest st = mid ++ post /\ lower mid = lower w /\
    st' = {| prev := last_char (prev st) mid; rest := post; caps := caps st |}.
Proof.
  induction w as [|a w IH]; intros st st' H; cbn [read_word] in H.
  - injection H as <-. exists EmptyString, (rest st). repeat split. symmetry. apply pos_eta.
  - destruct (rest st) as [|x t] eqn:E; [discriminate|].
    unfold chr_eq in H. rewrite f_ignorecase in H.
    destruct (lower_char a =? lower_char x)%char eqn:C; [|discriminate].
    apply Ascii.eqb_eq in C.
    destruct (IH _ _ H) as (mid & post & R & L & ->). cbn [advance rest prev caps] in *.
    exists (String x mid), post. subst t. repeat split.
    cbn [lower]. rewrite L, C. reflexivity.
Qed.

Lemma read_word_complete : forall w st mid post,
  rest st = mid ++ post -> lower mid = lower w ->
  read_word f w st
  = Some {| prev := last_char (prev st) mid; rest := post; caps := caps st |}.
Proof.
  induction w as [|a w IH]; intros st mid post R L.
  - destruct mid; [|discriminate]. cbn [read_word last_char]. simpl in R.
    rewrite <- R. f_equal. symmetry. apply pos_eta.
  - destruct mid as [|x mid]; [discriminate|]. cbn [lower] in L.
    injection L as C L. cbn [read_word]. simpl in R. rewrite R.
    unfold chr_eq. rewrite f_ignorecase, C, Ascii.eqb_refl.
    rewrite (IH (advance st x (mid ++ post)) mid post eq_refl L). reflexivity.
Qed.

Lemma m_lits : forall w st k,
  m f (lits w) st k = match read_word f w st with Some st' => k st' | None => None end.
Proof.
  induction w as [|a w IH]; intros st k; [reflexivity|].
  cbn [lits]. rewrite m_seq. cbn [m read_word].
  destruct (rest st) as [|x t]; [reflexivity|].
  destruct (chr_eq f a x); [apply IH|reflexivity].
Qed.

Lemma phrase_match (closed : bool) (w : string) (pv : option ascii) (s : string) :
  m f (cat (WordB :: lits w :: if closed then [WordB] else []))
    {| prev := pv; rest := s; caps := [] |} Some <> None <->
  boundary pv s = true /\
  exists mid post, s = mid ++ post /\ lower mid = lower w /\
    (closed = true -> boundary (last_char pv mid) post = true).
Proof.
  assert (B : forall st, xorb (word_before st) (word_after st) = boundary (prev st) (rest st)).
  { intros [p r c]. unfold word_before, word_after, boundary. cbn [prev rest].
    destruct r; reflexivity. }
  unfold cat. cbn [fold_right]. rewrite m_seq. cbn [m]. rewrite B. cbn [prev rest].
  rewrite m_lits. split.
  - intros H. destruct (boundary pv s); [|congruence]. split; [reflexivity|].
    destruct (read_word f w _) as [st'|] eqn:R; [|congruence].
    destruct (read_word_sound _ _ _ R) as (mid & post & E & L & ->).
    cbn [prev rest caps] in *. exists mid, post. repeat split; auto.
    intros ->. cbn [fold_right m] in H. rewrite B in H. cbn [prev rest] in H.
    destruct (boundary (last_char pv mid) post); [reflexivity|congruence].
  - intros (Hb & mid & post & E & L & Hc). rewrite Hb.
    rewrite (read_word_complete w {| prev := pv; rest := s; caps := [] |} mid post E L).
    cbn [prev caps].
    destruct closed; cbn [fold_right m]; [|discriminate].
    rewrite B. cbn [prev rest]. rewrite (Hc eq_refl). discriminate.
Qed.
End Phrases.

Lemma last_char_app : forall a b pv, last_char pv (a ++ b) = last_char (last_char pv a) b.
Proof. induction a as [|c a IH]; intros b pv; [reflexivity|]. simpl. apply IH. Qed.

Lemma phrase_search (closed : bool) (w text : string) :
  search (compile_i (cat (WordB :: lits w :: if closed then [WordB] else []))) text = true
  <-> occurs_phrase closed w text.
Proof.
  unfold search, occurs_phrase. split.
  - intros H. apply search_from_inv in H. destruct H as (s1 & s2 & E & H).
    unfold match_at in H. cbn [re fl compile_i] in H.
    apply (phrase_match {| ignorecase := true; multiline := false |} eq_refl) in H.
    destruct H as (Hb & mid & post & E2 & L & Hc). subst s2.
    exists s1, mid, post. auto.
  - intros (pre & mid & post & -> & L & Hb & Hc).
    apply search_from_intro. unfold match_at. cbn [re fl compile_i].
    apply (phrase_match {| ignorecase := true; multiline := false |} eq_refl). split; [exact Hb|]. exists mid, post. auto.
Qed.

(** X9. What a keyword rule looks for in an ASCII text: its phrase, in any
    case, starting at a word boundary and, for the rules written with a
    closing [\b], ending at one. *)
Theorem keyword_rule_search (w text : string) :
  ascii_text w = true -> ascii_text text = true ->
  (search (word_rule w) text = true <-> occurs_phrase true w text) /\
  (search (open_rule w) text = true <-> occurs_phrase false w text).
Proof.
  intros _ _. split; [apply (phrase_search true)|apply (phrase_search false)].
Qed.

Lemma keyword_rule_search_witness :
  occurs_phrase true "keyerror" "raise KeyError now" /\
  occurs_phrase false "unsupported operand type" "Unsupported operand types: int".
Proof.
  split.
  - apply (keyword_rule_search "keyerror" "raise KeyError now" eq_refl eq_refl).
    vm_compute. reflexivity.
  - apply (keyword_rule_search "unsupported operand type"
             "Unsupported operand types: int" eq_refl eq_refl).
    vm_compute. reflexivity.
Defined.

Lemma last_char_lower : forall s pv,
  option_map lower_char (last_char pv s)
  = last_char (option_map lower_char pv) (lower s).
Proof. induction s as [|c s IH]; intros pv; [reflexivity|]. simpl. apply IH. Qed.

(** X10. The rule written for [has no len()] asks for a word boundary after
    the closing parenthesis: it finds the phrase only where a letter, a
    digit or an underscore comes right after it, so not at the end of a
    message. *)
Theorem has_no_len_rule_needs_word (text : string) :
  search (word_rule "has no len()") text = true ->
  exists pre mid c post,
    text = pre ++ mid ++ String c post /\
    lower mid = "has no len()" /\ isword c = true.
Proof.
  intros H. apply (phrase_search true) in H.
  destruct H as (pre & mid & post & -> & L & _ & Hc). specialize (Hc eq_refl).
  change (lower "has no len()") with "has no len()" in L.
  pose proof (last_char_lower mid (last_char None pre)) as E. rewrite L in E.
  cbn [last_char] in E.
  destruct (last_char (last_char None pre) mid) as [z|] eqn:Ez; [|discriminate].
  cbn [option_map] in E. injection E as E.
  unfold boundary in Hc.
  assert (W : isword z = false).
  { rewrite <- isword_lower, E. reflexivity. }
  rewrite W in Hc. destruct post as [|c post]; [discriminate|].
  cbn [head_in xorb] in Hc. exists pre, mid, c, post. auto.
Qed.

Lemma has_no_len_rule_needs_word_witness :
  exists pre mid c post,
    "object has no len()x" = pre ++ mid ++ String c post /\
    lower mid = "has no len()" /\ isword c = true.
Proof.
  apply (has_no_len_rule_needs_word "object has no len()x").
  vm_compute. reflexivity.
Defined.

Lemma m_wordb f st k :
  m f WordB st k = if boundary (prev st) (rest st) then k st else None.
Proof.
  destruct st as [p r c]. cbn [m]. unfold word_before, word_after, boundary.
  cbn [prev rest]. destruct r; reflexivity.
Qed.

Lemma nonetype_subsumed (text : string) :
  search nonetype_rule text = true ->
  search (word_rule "has no attribute") text = true.
Proof.
  intros H. apply search_from_inv in H. destruct H as (s1 & s2 & -> & H).
  unfold match_at in H.
  change (fl nonetype_rule) with (fl (word_rule "has no attribute")) in H.
  change (re nonetype_rule) with
    (Seq WordB (Seq (lits "nonetype") (Seq WordB (Seq (star (Cls dot))
       (re (word_rule "has no attribute")))))) in H.
  remember (re (word_rule "has no attribute")) as tail eqn:Et.
  remember (fl (word_rule "has no attribute")) as f eqn:Ef.
  assert (Hi : ignorecase f = true) by (subst f; reflexivity).
  rewrite m_seq, m_wordb in H. destruct (boundary _ _); [|congruence].
  rewrite m_seq, m_lits in H.
  destruct (read_word f "nonetype" _) as [st1|] eqn:R; [|congruence].
  destruct (read_word_sound f Hi _ _ _ R) as (mid & post1 & E & _ & ->).
  cbn [prev rest caps] in *. subst s2.
  rewrite m_seq, m_wordb in H. destruct (boundary _ _); [|congruence].
  rewrite m_seq in H. unfold star in H. rewrite m_rep in H.
  match type of H with
  | rep ?b ?g ?n ?lo ?hi ?st ?k <> None =>
      destruct (rep b g n lo hi st k) as [r|] eqn:Rp; [|congruence]
  end.
  apply rep_cls_sound in Rp. destruct Rp as (pre & post & E & _ & _ & _ & K).
  cbn [prev rest caps] in *. subst post1.
  replace (s1 ++ mid ++ pre ++ post) with ((s1 ++ mid ++ pre) ++ post)
    by (rewrite !append_assoc; reflexivity).
  apply search_from_intro. unfold match_at. rewrite <- Et, <- Ef.
  rewrite !last_char_app, K. discriminate.
Qed.

Lemma first_match_app (a b : list (string * pattern)) (text : string) :
  first_match (a ++ b)%list text =
  match first_match a text with
  | Some family => Some family
  | None => first_match b text
  end.
Proof.
  induction a as [|[fam pat] a IH]; [reflexivity|].
  cbn [app first_match]. destruct (search pat text); [reflexivity|exact IH].
Qed.

(** X11. The rule for [nonetype ... has no attribute] never decides: whatever
    it finds, the rule for [has no attribute] just before it has found
    already, so [rule_predict] answers as if the rule were not there. *)
Theorem nonetype_rule_never_decides (error_text : string) :
  nth_error _RULES 18 = Some ("attribute_error", nonetype_rule) /\
  rule_predict error_text = first_match (without_rule 18 _RULES) (strip error_text).
Proof.
  split; [reflexivity|]. rewrite rule_predict_first_match.
  set (text := strip error_text).
  change _RULES with
    ((firstn 17 _RULES ++ [("attribute_error", word_rule "has no attribute")])
       ++ ("attribute_error", nonetype_rule) :: skipn 19 _RULES)%list at 1.
  change (without_rule 18 _RULES) with
    ((firstn 17 _RULES ++ [("attribute_error", word_rule "has no attribute")])
       ++ skipn 19 _RULES)%list.
  rewrite !(first_match_app (_ ++ _)%list).
  destruct (first_match (firstn 17 _RULES ++ _)%list text) eqn:F; [reflexivity|].
  cbn [first_match].
  destruct (search nonetype_rule text) eqn:S; [|reflexivity].
  apply nonetype_subsumed in S.
  rewrite first_match_app in F.
  destruct (first_match (firstn 17 _RULES) text); [discriminate|].
  cbn [first_match] in F. rewrite S in F. discriminate.
Qed.

(** ** More on the retrieval index *)

Lemma strongly_sorted_impl {A} (R S : A -> A -> Prop) l :
  (forall x y, R x y -> S x y) -> StronglySorted R l -> StronglySorted S l.
Proof.
  intros I H. induction H as [|a l H IH F]; constructor; [exact IH|].
  eapply Forall_impl; [|exact F]. intros; auto.
Qed.

Lemma argsort_stable_ascending : argsort_ascending argsort_stable.
Proof.
  intros xs. eapply strongly_sorted_impl; [|apply argsort_stable_is_stable].
  intros i j. apply key_le_of_stable_lt.
Qed.

Lemma for_each_firstn {A B} (f : A -> result B) n : forall l bs,
  for_each f l = Ok bs -> for_each f (firstn n l) = Ok (firstn n bs).
Proof.
  induction n as [|n IH]; intros l bs H; [reflexivity|].
  destruct l as [|a l]; simpl in H.
  - injection H as <-. reflexivity.
  - destruct (f a) as [b|] eqn:Fa; [|discriminate].
    destruct (for_each f l) as [bs0|] eqn:Fl; [|discriminate].
    injection H as <-. simpl. rewrite Fa, (IH _ _ Fl). reflexivity.
Qed.

Lemma for_each_at {A B} (f : A -> result B) : forall l bs p a,
  for_each f l = Ok bs -> nth_error l p = Some a ->
  exists b, nth_error bs p = Some b /\ f a = Ok b.
Proof.
  induction l as [|x l IH]; intros bs p a H Hp; [destruct p; discriminate|].
  simpl in H. destruct (f x) as [b0|] eqn:Fx; [|discriminate].
  destruct (for_each f l) as [bs0|] eqn:Fl; [|discriminate].
  injection H as <-. destruct p as [|p]; simpl in Hp.
  - injection Hp as <-. exists b0. auto.
  - apply (IH _ _ _ eq_refl Hp).
Qed.

Lemma for_each_length {A B} (f : A -> result B) : forall l bs,
  for_each f l = Ok bs -> List.length bs = List.length l.
Proof.
  induction l as [|x l IH]; intros bs H; simpl in H.
  - injection H as <-. reflexivity.
  - destruct (f x); [|discriminate]. destruct (for_each f l) eqn:E; [|discriminate].
    injection H as <-. simpl. rewrite (IH _ eq_refl). reflexivity.
Qed.

Section RankingFacts.
Variable Vec : Type.
Variable cosine_similarity : Vec -> Vec -> Q.
Variable argsort : list Q -> list nat.

(** The positions of two results in the reversed [argsort]. *)
Lemma top_idx_positions sims top_k p q i j :
  (p < q)%nat ->
  nth_error (top_idx argsort sims top_k) p = Some i ->
  nth_error (top_idx argsort sims top_k) q = Some j ->
  exists p' q', (q' < p')%nat /\
    nth_error (argsort sims) p' = Some i /\ nth_error (argsort sims) q' = Some j.
Proof.
  intros Hpq Ei Ej. unfold top_idx in Ei, Ej. rewrite nth_error_firstn in Ei, Ej.
  destruct (p <? Z.to_nat top_k)%nat; [|discriminate].
  destruct (q <? Z.to_nat top_k)%nat; [|discriminate].
  rewrite nth_error_rev in Ei, Ej.
  destruct (p <? List.length (argsort sims))%nat eqn:Lp; [|discriminate].
  destruct (q <? List.length (argsort sims))%nat eqn:Lq; [|discriminate].
  apply Nat.ltb_lt in Lp, Lq.
  exists (List.length (argsort sims) - S p)%nat, (List.length (argsort sims) - S q)%nat.
  repeat split; auto. lia.
Qed.

(** X12. The results of [query] come in descending order of score, whenever
    [argsort] is ascending. *)
Theorem query_descending (corpus : list Row) (v : Vectorizer Vec) (text : string)
    (top_k : Z) (rs : list SimilarCase) (p q : nat) (a b : SimilarCase) :
  argsort_ascending argsort ->
  query Vec cosine_similarity argsort (__init__ corpus v) text top_k = Ok rs ->
  (p < q)%nat -> nth_error rs p = Some a -> nth_error rs q = Some b ->
  (score b <= score a)%Q.
Proof.
  intros Asc Hq Hpq Ha Hb. unfold query in Hq.
  destruct (top_k <=? 0)%Z; [injection Hq as <-; destruct p; discriminate|].
  set (self := __init__ corpus v) in *.
  set (sims := similarities Vec cosine_similarity self text) in *.
  destruct (for_each_nth _ _ _ _ _ Hq Ha) as (i & Ei & Fi).
  destruct (for_each_nth _ _ _ _ _ Hq Hb) as (j & Ej & Fj).
  destruct (top_idx_positions _ _ _ _ _ _ Hpq Ei Ej) as (p' & q' & L & Pi & Pj).
  pose proof (sorted_nth _ _ _ _ _ _ (Asc sims) L Pj Pi) as R. cbv beta in R.
  rewrite (similar_case_score _ _ _ _ _ Fi) in R.
  rewrite (similar_case_score _ _ _ _ _ Fj) in R. exact R.
Qed.

(** X13. Asking for fewer results gives the first results of the longer
    answer. *)
Theorem query_prefix (self : RetrievalIndex Vec) (text : string) (k1 k2 : Z)
    (rs : list SimilarCase) :
  (0 < k1 <= k2)%Z ->
  query Vec cosine_similarity argsort self text k2 = Ok rs ->
  query Vec cosine_similarity argsort self text k1 = Ok (firstn (Z.to_nat k1) rs).
Proof.
  intros [H1 H2] Hq. unfold query in *.
  assert (E1 : (k1 <=? 0)%Z = false) by (apply Z.leb_gt; lia).
  assert (E2 : (k2 <=? 0)%Z = false) by (apply Z.leb_gt; lia).
  rewrite E1. rewrite E2 in Hq.
  replace (top_idx argsort (similarities Vec cosine_similarity self text) k1)
    with (firstn (Z.to_nat k1)
            (top_idx argsort (similarities Vec cosine_similarity self text) k2)).
  - apply for_each_firstn. exact Hq.
  - unfold top_idx. rewrite firstn_firstn. f_equal. lia.
Qed.

(** X14. Each result is a row of the corpus, field by field, and its score is
    the cosine similarity of the vectors of the normalized query and of the
    normalized error text of that row. *)
Theorem query_results_from_corpus (corpus : list Row) (v : Vectorizer Vec)
    (text : string) (top_k : Z) (rs : list SimilarCase) (a : SimilarCase) :
  query Vec cosine_similarity argsort (__init__ corpus v) text top_k = Ok rs ->
  In a rs ->
  exists row, In row corpus /\
    id a = row_id row /\ error_family a = row_error_family row /\
    error_text a = row_error_text row /\ fix_text a = row_fix_text row /\
    score a = cosine_similarity (transform v (normalize_text text))
                (transform v (normalize_text (row_error_text row))).
Proof.
  intros Hq Ha. unfold query in Hq.
  destruct (top_k <=? 0)%Z; [injection Hq as <-; destruct Ha|].
  apply In_nth_error in Ha. destruct Ha as [p Hp].
  destruct (for_each_nth _ _ _ _ _ Hq Hp) as (i & _ & Fi).
  unfold similar_case in Fi. cbn [df __init__] in Fi.
  destruct (nth_error corpus i) as [row|] eqn:Er; [|discriminate].
  destruct (nth_error _ i) as [s|] eqn:Es in Fi; [|discriminate].
  injection Fi as <-. exists row. cbn [id error_family error_text fix_text score].
  split; [eapply nth_error_In; exact Er|]. repeat split.
  unfold similarities in Es. cbn [matrix vectorizer __init__] in Es.
  rewrite !nth_error_map, Er in Es. simpl in Es. injection Es as <-. reflexivity.
Qed.

Lemma similar_case_index (self : RetrievalIndex Vec) sims i c :
  similar_case Vec self sims i = Ok c -> (i < List.length sims)%nat.
Proof.
  unfold similar_case. intros H.
  destruct (nth_error (df self) i); [|discriminate].
  destruct (nth_error sims i) eqn:E; [|discriminate].
  apply nth_error_Some. congruence.
Qed.

(** X15. [query] keeps the best: a case of the corpus is among the results or
    its similarity is no higher than the score of any result, whenever
    [argsort] is ascending and returns the indices of its argument. *)
Theorem query_keeps_best (corpus : list Row) (v : Vectorizer Vec) (text : string)
    (top_k : Z) (rs : list SimilarCase) (j : nat) (c : SimilarCase) :
  argsort_indices argsort -> argsort_ascending argsort ->
  query Vec cosine_similarity argsort (__init__ corpus v) text top_k = Ok rs ->
  similar_case Vec (__init__ corpus v)
    (similarities Vec cosine_similarity (__init__ corpus v) text) j = Ok c ->
  In c rs \/ (forall a, In a rs -> (score c <= score a)%Q).
Proof.
  intros P Asc Hq Hc. unfold query in Hq.
  destruct (top_k <=? 0)%Z; [injection Hq as <-; right; intros a []|].
  set (self := __init__ corpus v) in *.
  set (sims := similarities Vec cosine_similarity self text) in *.
  assert (Hj : In j (rev (argsort sims))).
  { apply -> in_rev. apply (Permutation_in _ (Permutation_sym (P sims))).
    apply in_seq. pose proof (similar_case_index _ _ _ _ Hc). lia. }
  apply In_nth_error in Hj. destruct Hj as [q Eq].
  destruct (q <? Z.to_nat top_k)%nat eqn:Lq.
  - left. assert (Et : nth_error (top_idx argsort sims top_k) q = Some j).
    { unfold top_idx. rewrite nth_error_firstn, Lq. exact Eq. }
    destruct (for_each_at _ _ _ _ _ Hq Et) as (b & Eb & Fb).
    assert (b = c) by congruence. subst b. eapply nth_error_In; exact Eb.
  - right. intros a Ha. apply Nat.ltb_ge in Lq.
    apply In_nth_error in Ha. destruct Ha as [p Ep].
    destruct (for_each_nth _ _ _ _ _ Hq Ep) as (i & Ei & Fi).
    unfold top_idx in Ei. rewrite nth_error_firstn in Ei.
    destruct (p <? Z.to_nat top_k)%nat eqn:Lp; [|discriminate].
    apply Nat.ltb_lt in Lp.
    destruct (rev_positions _ p q i j ltac:(lia) Ei Eq) as (p' & q' & L & Pi & Pj).
    pose proof (sorted_nth _ _ _ _ _ _ (Asc sims) L Pj Pi) as R. cbv beta in R.
    rewrite (similar_case_score _ _ _ _ _ Fi) in R.
    rewrite (similar_case_score _ _ _ _ _ Hc) in R. exact R.
Qed.

Lemma top_idx_nodup sims top_k :
  argsort_indices argsort -> NoDup (top_idx argsort sims top_k).
Proof.
  intros P. unfold top_idx.
  assert (N : NoDup (rev (argsort sims))).
  { apply (Permutation_NoDup (l := seq 0 (List.length sims))).
    - eapply perm_trans; [apply Permutation_sym, (P sims)|apply Permutation_rev].
    - apply seq_NoDup. }
  revert N. generalize (rev (argsort sims)). generalize (Z.to_nat top_k).
  induction n as [|n IH]; intros [|x l] N; simpl; try constructor.
  - inversion N; subst. intros H. apply in_firstn in H. contradiction.
  - inversion N; subst. apply IH. assumption.
Qed.

(** X16. No case is returned twice: when the ids of the corpus are distinct,
    so are the ids of the results. *)
Theorem query_distinct (corpus : list Row) (v : Vectorizer Vec) (text : string)
    (top_k : Z) (rs : list SimilarCase) :
  argsort_indices argsort -> NoDup (map row_id corpus) ->
  query Vec cosine_similarity argsort (__init__ corpus v) text top_k = Ok rs ->
  NoDup (map id rs).
Proof.
  intros P N Hq. unfold query in Hq.
  destruct (top_k <=? 0)%Z; [injection Hq as <-; constructor|].
  set (self := __init__ corpus v) in *.
  set (sims := similarities Vec cosine_similarity self text) in *.
  pose proof (top_idx_nodup sims top_k P) as Nt.
  apply NoDup_nth_error. intros p q Hp E.
  rewrite length_map in Hp. rewrite !nth_error_map in E.
  destruct (nth_error rs p) as [a|] eqn:Ea; [|apply nth_error_None in Ea; lia].
  destruct (nth_error rs q) as [b|] eqn:Eb; [|discriminate].
  simpl in E. injection E as E.
  destruct (for_each_nth _ _ _ _ _ Hq Ea) as (i & Ei & Fi).
  destruct (for_each_nth _ _ _ _ _ Hq Eb) as (j & Ej & Fj).
  assert (Hij : i = j).
  { unfold similar_case in Fi, Fj. cbn [df self __init__] in Fi, Fj.
    destruct (nth_error corpus i) as [ri|] eqn:Ri; [|discriminate].
    destruct (nth_error corpus j) as [rj|] eqn:Rj; [|discriminate].
    destruct (nth_error sims i); [|discriminate].
    destruct (nth_error sims j); [|discriminate].
    injection Fi as <-. injection Fj as <-. cbn [id] in E.
    eapply (proj1 (NoDup_nth_error (map row_id corpus)) N).
    - rewrite length_map. apply nth_error_Some. congruence.
    - rewrite !nth_error_map, Ri, Rj. simpl. congruence. }
  subst j.
  eapply (proj1 (NoDup_nth_error _) Nt).
  - apply nth_error_Some. congruence.
  - congruence.
Qed.
End RankingFacts.

Lemma query_descending_witness :
  exists rs a b,
    query string same_text argsort_stable (__init__ mixed_cases text_vectorizer)
          "KeyError: 'user_id'" 2 = Ok rs /\
    nth_error rs 0 = Some a /\ nth_error rs 1 = Some b /\
    (score b <= score a)%Q.
Proof.
  eexists _, _, _.
  assert (Hq : query string same_text argsort_stable
                 (__init__ mixed_cases text_vectorizer) "KeyError: 'user_id'" 2
               = Ok _) by (vm_compute; reflexivity).
  split; [exact Hq|]. split; [reflexivity|]. split; [reflexivity|].
  eapply (query_descending string same_text argsort_stable mixed_cases
            text_vectorizer "KeyError: 'user_id'" 2 _ 0 1 _ _
            argsort_stable_ascending Hq); [lia|reflexivity|reflexivity].
Defined.

Lemma query_prefix_witness :
  exists rs,
    query string same_text argsort_stable (__init__ mixed_cases text_vectorizer)
          "KeyError: 'user_id'" 3 = Ok rs /\
    query string same_text argsort_stable (__init__ mixed_cases text_vectorizer)
          "KeyError: 'user_id'" 1 = Ok (firstn 1 rs).
Proof.
  eexists.
  assert (Hq : query string same_text argsort_stable
                 (__init__ mixed_cases text_vectorizer) "KeyError: 'user_id'" 3
               = Ok _) by (vm_compute; reflexivity).
  split; [exact Hq|].
  apply (query_prefix string same_text argsort_stable _ _ 1 3 _ ltac:(lia) Hq).
Defined.

Lemma query_results_from_corpus_witness :
  exists row, In row mixed_cases /\ "m2" = row_id row /\
    "key_error" = row_error_family row /\
    "KeyError: 'user_id'" = row_error_text row /\
    "Use dict.get." = row_fix_text row /\
    1%Q = same_text (normalize_text "KeyError: 'user_id'")
                    (normalize_text (row_error_text row)).
Proof.
  eapply (query_results_from_corpus string same_text argsort_stable mixed_cases
           text_vectorizer "KeyError: 'user_id'" 1 _
           {| id := "m2"; error_family := "key_error";
              error_text := "KeyError: 'user_id'"; fix_text := "Use dict.get.";
              score := 1 |}).
  - vm_compute; reflexivity.
  - left; reflexivity.
Defined.

Lemma query_keeps_best_witness :
  exists rs c,
    query string same_text argsort_stable (__init__ mixed_cases text_vectorizer)
          "KeyError: 'user_id'" 1 = Ok rs /\
    similar_case string (__init__ mixed_cases text_vectorizer)
      (similarities string same_text (__init__ mixed_cases text_vectorizer)
         "KeyError: 'user_id'") 0 = Ok c /\
    (In c rs \/ forall a, In a rs -> (score c <= score a)%Q).
Proof.
  eexists _, _.
  assert (Hq : query string same_text argsort_stable
                 (__init__ mixed_cases text_vectorizer) "KeyError: 'user_id'" 1
               = Ok _) by (vm_compute; reflexivity).
  assert (Hc : similar_case string (__init__ mixed_cases text_vectorizer)
      (similarities string same_text (__init__ mixed_cases text_vectorizer)
         "KeyError: 'user_id'") 0 = Ok _) by (vm_compute; reflexivity).
  split; [exact Hq|]. split; [exact Hc|].
  exact (query_keeps_best string same_text argsort_stable mixed_cases
           text_vectorizer "KeyError: 'user_id'" 1 _ 0 _
           argsort_stable_indices argsort_stable_ascending Hq Hc).
Defined.

Lemma query_distinct_witness :
  exists rs,
    query string same_text argsort_stable (__init__ mixed_cases text_vectorizer)
          "KeyError: 'user_id'" 3 = Ok rs /\ NoDup (map id rs).
Proof.
  eexists.
  assert (Hq : query string same_text argsort_stable
                 (__init__ mixed_cases text_vectorizer) "KeyError: 'user_id'" 3
               = Ok _) by (vm_compute; reflexivity).
  split; [exact Hq|].
  apply (query_distinct string same_text argsort_stable mixed_cases
           text_vectorizer "KeyError: 'user_id'" 3 _ argsort_stable_indices);
    [|exact Hq].
  repeat constructor; simpl; intuition discriminate.
Defined.

(** ** More on the playbook and on the classifier *)

Lemma mem_In s seen : mem s seen = true <-> In s seen.
Proof.
  unfold mem. rewrite existsb_exists. split.
  - intros (x & Hx & E). apply String.eqb_eq in E. subst. exact Hx.
  - intros H. exists s. split; [exact H|apply String.eqb_refl].
Qed.

Lemma dedup_in : forall l seen s, In s (dedup seen l) <-> In s l /\ ~ In s seen.
Proof.
  induction l as [|x l IH]; intros seen s; simpl; [tauto|].
  destruct (mem x seen) eqn:E.
  - apply mem_In in E. rewrite IH. split.
    + intros [H N]. auto.
    + intros [[->|H] N]; [contradiction|auto].
  - assert (N : ~ In x seen) by (intros H; apply mem_In in H; congruence).
    simpl. rewrite IH. simpl. split.
    + intros [<-|[H Hn]]; [auto|]. split; [auto|]. intros Hs. apply Hn. auto.
    + intros [[->|H] Hn]; [auto|].
      destruct (string_dec x s) as [->|D]; [auto|].
      right. split; [exact H|]. intros [->|Hs]; [congruence|contradiction].
Qed.

Lemma dedup_nodup : forall l seen, NoDup (dedup seen l).
Proof.
  induction l as [|x l IH]; intros seen; simpl; [constructor|].
  destruct (mem x seen); [apply IH|]. constructor; [|apply IH].
  rewrite dedup_in. intros [_ N]. apply N. left. reflexivity.
Qed.

Lemma dedup_app : forall l1 l2 seen,
  exists rest, dedup seen (l1 ++ l2)%list = (dedup seen l1 ++ rest)%list.
Proof.
  induction l1 as [|x l1 IH]; intros l2 seen; simpl.
  - eexists. reflexivity.
  - destruct (mem x seen); [apply IH|].
    destruct (IH l2 (x :: seen)) as [rest ->]. eexists. reflexivity.
Qed.

Lemma dedup_fresh : forall l seen,
  NoDup l -> (forall x, In x l -> ~ In x seen) -> dedup seen l = l.
Proof.
  induction l as [|x l IH]; intros seen N F; simpl; [reflexivity|].
  inversion N as [|? ? Nx Nl]; subst.
  destruct (mem x seen) eqn:E.
  - apply mem_In in E. exfalso. apply (F x); simpl; auto.
  - f_equal. apply IH; [exact Nl|].
    intros y Hy [<-|Hs]; [contradiction|]. apply (F y); simpl; auto.
Qed.

Lemma suggestions_in (section : Section_) (raw_text s : string) :
  In s (match checklist section with Some l => l | None => [] end
        ++ match keyword_tips section with
           | Some kt =>
               flat_map (fun '(key_phrase, tips) =>
                           if contains (lower key_phrase) (lower raw_text)
                           then match tips with Some l => l | None => [] end
                           else []) kt
           | None => []
           end)%list <->
  ((exists l, checklist section = Some l /\ In s l) \/
   (exists kt key_phrase tips,
      keyword_tips section = Some kt /\ In (key_phrase, Some tips) kt /\
      contains (lower key_phrase) (lower raw_text) = true /\ In s tips)).
Proof.
  rewrite in_app_iff. split.
  - intros [H|H].
    + left. destruct (checklist section) as [l|]; [|destruct H]. eauto.
    + right. destruct (keyword_tips section) as [kt|]; [|destruct H].
      apply in_flat_map in H. destruct H as ([key tips] & Hin & Hs).
      destruct (contains (lower key) (lower raw_text)) eqn:C; [|destruct Hs].
      destruct tips as [tips|]; [|destruct Hs].
      exists kt, key, tips. auto.
  - intros [(l & -> & H)|(kt & key & tips & -> & Hin & C & H)]; [left; exact H|].
    right. apply in_flat_map. exists (key, Some tips). split; [exact Hin|].
    rewrite C. exact H.
Qed.

(** X17. What [_playbook_suggestions] does with the entry of the family.  No
    entry: no suggestion, and no error.  An entry that is not a mapping
    (null, a scalar, a list): [AttributeError].  A mapping, for an ASCII
    text and ASCII key phrases: the items of its checklist and the tips of
    every key phrase of the section that occurs in the text, whatever the
    case of either; nothing else, and nothing twice. *)
Theorem playbook_suggestions_spec (playbooks : Playbooks) (family raw_text : string) :
  match lookup family playbooks with
  | None => _playbook_suggestions playbooks family raw_text = Ok []
  | Some NotMapping =>
      _playbook_suggestions playbooks family raw_text = Raise AttributeError
  | Some (Mapping section) =>
      ascii_text raw_text = true -> ascii_keys section = true ->
      exists l,
        _playbook_suggestions playbooks family raw_text = Ok l /\ NoDup l /\
        forall s,
          In s l <->
          ((exists c, checklist section = Some c /\ In s c) \/
           (exists kt key_phrase tips,
              keyword_tips section = Some kt /\ In (key_phrase, Some tips) kt /\
              contains (lower key_phrase) (lower raw_text) = true /\ In s tips))
  end.
Proof.
  unfold _playbook_suggestions.
  destruct (lookup family playbooks) as [[section|]|]; try reflexivity.
  intros _ _.
  eexists. split; [reflexivity|]. split; [apply dedup_nodup|].
  intros s. rewrite dedup_in, suggestions_in. split; [tauto|].
  intros H. split; [exact H|intros []].
Qed.

Lemma playbook_suggestions_spec_witness :
  _playbook_suggestions broken_playbooks "name_error" "NameError: x" = Ok [] /\
  _playbook_suggestions broken_playbooks "value_error" "ValueError: x"
  = Raise AttributeError /\
  exists l,
    _playbook_suggestions broken_playbooks "type_error"
      "TypeError: 'int' object is NOT callable" = Ok l /\
    NoDup l /\
    (In "Remove the call parentheses." l) /\
    ~ In "Check that the key exists." l.
Proof.
  split; [exact (playbook_suggestions_spec broken_playbooks "name_error" "NameError: x")|].
  split; [exact (playbook_suggestions_spec broken_playbooks "value_error" "ValueError: x")|].
  destruct (playbook_suggestions_spec broken_playbooks "type_error"
              "TypeError: 'int' object is NOT callable" eq_refl eq_refl)
    as (l & E & N & H).
  exists l. split; [exact E|]. split; [exact N|]. split.
  - apply H. right.
    exists [("not callable", Some ["Remove the call parentheses."])],
           "not callable", ["Remove the call parentheses."].
    repeat split; simpl; auto.
  - intros I. apply H in I.
    destruct I as [(c & C & I)|(kt & k & tips & K & I & _ & J)].
    + injection C as <-. destruct I as [I|[]]. discriminate I.
    + injection K as <-. destruct I as [I|[]]. injection I as <- <-.
      destruct J as [J|[]]. discriminate J.
Defined.

(** X18. The checklist comes first: when the entry of the family is a mapping
    whose checklist has no repeated item, the suggestions start with it, in
    its order. *)
Theorem playbook_suggestions_checklist_first (playbooks : Playbooks)
    (family raw_text : string) (section : Section_) (l : list string) :
  lookup family playbooks = Some (Mapping section) -> checklist section = Some l ->
  NoDup l ->
  exists rest,
    _playbook_suggestions playbooks family raw_text = Ok (l ++ rest)%list.
Proof.
  intros E C N. unfold _playbook_suggestions. rewrite E, C.
  match goal with |- context [dedup [] (l ++ ?t)%list] => destruct (dedup_app l t []) as [rest ->] end.
  exists rest. rewrite (dedup_fresh l [] N); [reflexivity|]. intros x _ [].
Qed.

Lemma playbook_suggestions_checklist_first_witness :
  exists rest,
    _playbook_suggestions sample_playbooks "type_error"
      "TypeError: 'int' object is NOT callable"
    = Ok (["Check the types of the operands."] ++ rest)%list.
Proof.
  eapply (playbook_suggestions_checklist_first sample_playbooks "type_error" _ _ _).
  - reflexivity.
  - reflexivity.
  - repeat constructor; simpl; intuition discriminate.
Defined.

Lemma insert_desc_perm {A} (key : A -> Q) x : forall l,
  Permutation (insert_desc key x l) (x :: l).
Proof.
  induction l as [|y l IH]; simpl; [reflexivity|].
  destruct (Qle_bool (key y) (key x)); [reflexivity|].
  rewrite IH. apply perm_swap.
Qed.

Lemma sorted_reverse_perm {A} (key : A -> Q) : forall l,
  Permutation (sorted_reverse key l) l.
Proof.
  induction l as [|x l IH]; simpl; [reflexivity|].
  fold (sorted_reverse key l). rewrite insert_desc_perm, IH. reflexivity.
Qed.

Lemma insert_desc_sorted {A} (key : A -> Q) x : forall l,
  descending key l -> descending key (insert_desc key x l).
Proof.
  unfold descending. induction l as [|y l IH]; intros S; simpl.
  - repeat constructor.
  - inversion S as [|? ? S' F]; subst.
    destruct (Qle_bool (key y) (key x)) eqn:E.
    + apply Qle_bool_iff in E. constructor; [exact S|].
      constructor; [exact E|]. eapply Forall_impl; [|exact F].
      intros b Hb. cbv beta in *. eapply Qle_trans; eassumption.
    + assert (L : (key x <= key y)%Q).
      { apply Qlt_le_weak, Qnot_le_lt. intros H. apply Qle_bool_iff in H. congruence. }
      constructor; [apply IH; exact S'|].
      apply (Permutation_Forall (x := x :: l)); [symmetry; apply insert_desc_perm|].
      constructor; assumption.
Qed.

Lemma sorted_reverse_sorted {A} (key : A -> Q) : forall l,
  descending key (sorted_reverse key l).
Proof.
  induction l as [|x l IH]; simpl; [constructor|].
  apply insert_desc_sorted. exact IH.
Qed.

Lemma insert_desc_filter {A} (key : A -> Q) (q : Q) x : forall l,
  filter (fun a => Qeq_bool (key a) q) (insert_desc key x l)
  = filter (fun a => Qeq_bool (key a) q) (x :: l).
Proof.
  induction l as [|y l IH]; [reflexivity|].
  cbn [insert_desc]. destruct (Qle_bool (key y) (key x)) eqn:E; [reflexivity|].
  cbn [filter] in *. rewrite IH.
  destruct (Qeq_bool (key x) q) eqn:Ex; destruct (Qeq_bool (key y) q) eqn:Ey;
    try reflexivity.
  apply Qeq_bool_iff in Ex, Ey.
  assert (H : Qle_bool (key y) (key x) = true).
  { apply Qle_bool_iff. rewrite Ex, Ey. apply Qle_refl. }
  congruence.
Qed.

Lemma sorted_reverse_filter {A} (key : A -> Q) (q : Q) : forall l,
  filter (fun a => Qeq_bool (key a) q) (sorted_reverse key l)
  = filter (fun a => Qeq_bool (key a) q) l.
Proof.
  induction l as [|x l IH]; [reflexivity|].
  cbn [sorted_reverse fold_right]. fold (sorted_reverse key l).
  rewrite insert_desc_filter. cbn [filter]. rewrite IH. reflexivity.
Qed.

Lemma filter_head {A} (f : A -> bool) x : forall l rest,
  filter f l = x :: rest ->
  exists i, nth_error l i = Some x /\
    forall j y, (j < i)%nat -> nth_error l j = Some y -> f y = false.
Proof.
  induction l as [|a l IH]; intros rest H; [discriminate|].
  cbn [filter] in H. destruct (f a) eqn:E.
  - injection H as -> _. exists 0%nat. split; [reflexivity|]. intros; lia.
  - destruct (IH _ H) as (i & Hi & Hb). exists (S i). split; [exact Hi|].
    intros [|j] y Hj Hy; simpl in Hy; [congruence|]. apply (Hb j); [lia|exact Hy].
Qed.

Lemma sorted_app {A} (R : A -> A -> Prop) : forall l1 l2,
  StronglySorted R (l1 ++ l2)%list -> forall a b, In a l1 -> In b l2 -> R a b.
Proof.
  induction l1 as [|x l1 IH]; intros l2 S a b Ha Hb; [destruct Ha|].
  simpl in S. inversion S as [|? ? S' F]; subst. destruct Ha as [<-|Ha].
  - rewrite Forall_forall in F. apply F, in_or_app. right. exact Hb.
  - eapply IH; eassumption.
Qed.

Lemma sorted_firstn {A} (R : A -> A -> Prop) n : forall l,
  StronglySorted R l -> StronglySorted R (firstn n l).
Proof.
  induction n as [|n IH]; intros [|x l] S; simpl; try constructor.
  - inversion S; subst. apply IH. assumption.
  - inversion S as [|? ? S' F]; subst. rewrite Forall_forall in *.
    intros y Hy. apply F. eapply in_firstn. exact Hy.
Qed.

Lemma pairs_spec (classes : list string) (proba : list Q) :
  (List.length classes <= List.length proba)%nat ->
  exists all,
    for_each (pair_at classes proba) (seq 0 (List.length classes)) = Ok all /\
    List.length all = List.length classes /\
    forall i c p, nth_error all i = Some (c, p) <->
                  nth_error classes i = Some c /\ nth_error proba i = Some p.
Proof.
  intros L.
  destruct (for_each_ok (pair_at classes proba) (seq 0 (List.length classes)))
    as (all & E & Len).
  { intros a Ha. apply in_seq in Ha. unfold pair_at.
    destruct (nth_error classes a) eqn:Ec; [|apply nth_error_None in Ec; lia].
    destruct (nth_error proba a) eqn:Ep; [|apply nth_error_None in Ep; lia].
    eexists. reflexivity. }
  exists all. rewrite length_seq in Len. repeat split; auto.
  - destruct (for_each_nth _ _ _ _ _ E H) as (a & Ha & Pa).
    rewrite nth_error_seq in Ha. destruct (i <? _)%nat; [|discriminate].
    injection Ha as <-. simpl in Pa. unfold pair_at in Pa.
    destruct (nth_error classes i); [|discriminate].
    destruct (nth_error proba i); [|discriminate]. congruence.
  - destruct (for_each_nth _ _ _ _ _ E H) as (a & Ha & Pa).
    rewrite nth_error_seq in Ha. destruct (i <? _)%nat; [|discriminate].
    injection Ha as <-. simpl in Pa. unfold pair_at in Pa.
    destruct (nth_error classes i); [|discriminate].
    destruct (nth_error proba i); [|discriminate]. congruence.
  - intros [Hc Hp].
    assert (Hi : (i < List.length classes)%nat) by (apply nth_error_Some; congruence).
    assert (Hs : nth_error (seq 0 (List.length classes)) i = Some i).
    { rewrite nth_error_seq. apply Nat.ltb_lt in Hi. rewrite Hi. reflexivity. }
    destruct (for_each_at _ _ _ _ _ E Hs) as (b & Hb & Pb).
    unfold pair_at in Pb. rewrite Hc, Hp in Pb. congruence.
Qed.

Section ClassifierFacts.
Variable Vec : Type.

(** X19. With probabilities for every class, [_predict_family_ml] returns the
    best candidates: as many as there are classes but no more than three, by
    decreasing probability, each a class with its own probability, and no
    class left out has a higher probability than a candidate. *)
Theorem predict_family_ml_top (v : Vectorizer Vec) (clf : Classifier Vec)
    (combined_text : string) (proba_of : Vec -> list Q) :
  let x := normalize_text combined_text in
  let proba := proba_of (transform v x) in
  let classes := classes_ clf in
  predict_proba clf = Some proba_of ->
  (List.length classes <= List.length proba)%nat ->
  exists family conf cands,
    _predict_family_ml Vec v clf combined_text
      = ([Transform x; ClfPredict; ClfPredictProba], Ok (family, conf, cands)) /\
    List.length cands = Nat.min TOP_N_ALTERNATIVES (List.length classes) /\
    descending snd cands /\
    (forall c p, In (c, p) cands ->
       exists i, nth_error classes i = Some c /\ nth_error proba i = Some p) /\
    (forall i c p, nth_error classes i = Some c -> nth_error proba i = Some p ->
       In (c, p) cands \/ forall cand, In cand cands -> (p <= snd cand)%Q).
Proof.
  intros x proba classes Hp L.
  destruct (pairs_spec classes proba L) as (all & E & Len & Spec).
  pose proof (predict_family_ml_cases Vec v clf combined_text) as C.
  cbv zeta in C. rewrite Hp in C. fold x proba classes in C. rewrite E in C.
  set (sorted := sorted_reverse snd all) in *.
  set (top := firstn TOP_N_ALTERNATIVES sorted) in *.
  assert (P : Permutation sorted all) by apply sorted_reverse_perm.
  assert (S : descending snd sorted) by apply sorted_reverse_sorted.
  assert (R : exists family conf, _predict_family_ml Vec v clf combined_text
            = ([Transform x; ClfPredict; ClfPredictProba], Ok (family, conf, top))).
  { rewrite C. destruct top as [|[c p] t]; eexists _, _; reflexivity. }
  destruct R as (family & conf & R). exists family, conf, top.
  split; [exact R|]. split; [|split; [|split]].
  - unfold top. rewrite length_firstn, (Permutation_length P), Len. reflexivity.
  - apply sorted_firstn. exact S.
  - intros c p H. apply in_firstn in H. apply (Permutation_in _ P) in H.
    apply In_nth_error in H. destruct H as [i Hi]. exists i. apply Spec. exact Hi.
  - intros i c p Hc Hq.
    assert (H : In (c, p) sorted).
    { apply (Permutation_in _ (Permutation_sym P)).
      eapply nth_error_In. apply Spec. split; eassumption. }
    rewrite <- (firstn_skipn TOP_N_ALTERNATIVES sorted) in H, S.
    apply in_app_or in H. destruct H as [H|H]; [left; exact H|right].
    intros cand Hcand. apply (sorted_app _ _ _ S cand (c, p) Hcand H).
Qed.

(** X20. The family of the model is the most probable class, the earliest of
    [classes_] when several share the highest probability, and the
    confidence is that probability. *)
Theorem predict_family_ml_winner (v : Vectorizer Vec) (clf : Classifier Vec)
    (combined_text : string) (proba_of : Vec -> list Q) :
  let x := normalize_text combined_text in
  let proba := proba_of (transform v x) in
  let classes := classes_ clf in
  predict_proba clf = Some proba_of ->
  (List.length classes <= List.length proba)%nat ->
  classes <> [] ->
  exists i c p tr cands,
    _predict_family_ml Vec v clf combined_text = (tr, Ok (c, Some p, cands)) /\
    nth_error classes i = Some c /\ nth_error proba i = Some p /\
    (forall j q, (j < List.length classes)%nat -> nth_error proba j = Some q ->
       (q <= p)%Q) /\
    (forall j q, (j < i)%nat -> nth_error proba j = Some q -> ~ (q == p)%Q).
Proof.
  intros x proba classes Hp L Ne.
  destruct (pairs_spec classes proba L) as (all & E & Len & Spec).
  pose proof (predict_family_ml_cases Vec v clf combined_text) as C.
  cbv zeta in C. rewrite Hp in C. fold x proba classes in C. rewrite E in C.
  set (sorted := sorted_reverse snd all) in *.
  assert (P : Permutation sorted all) by apply sorted_reverse_perm.
  assert (S : descending snd sorted) by apply sorted_reverse_sorted.
  destruct sorted as [|[c p] rest] eqn:Es.
  { apply Permutation_length in P. simpl in P. destruct classes; [congruence|].
    simpl in Len. lia. }
  pose proof (sorted_reverse_filter snd p all) as F. fold sorted in F.
  rewrite Es in F. cbn [filter snd] in F. rewrite Qeq_bool_refl in F.
  symmetry in F. destruct (filter_head _ _ _ _ F) as (i & Hi & First).
  apply Spec in Hi. destruct Hi as [Hc Hq].
  exists i, c, p. eexists _, _. split; [rewrite C; reflexivity|].
  repeat split; auto.
  - intros j q Hj Hjq.
    destruct (nth_error classes j) as [cj|] eqn:Ecj;
      [|apply nth_error_None in Ecj; lia].
    assert (H : In (cj, q) ((c, p) :: rest)).
    { apply (Permutation_in _ (Permutation_sym P)).
      eapply nth_error_In. apply Spec. split; eassumption. }
    destruct H as [H|H]; [injection H as _ <-; apply Qle_refl|].
    inversion S as [|? ? _ Fa]; subst. rewrite Forall_forall in Fa.
    apply (Fa _ H).
  - intros j q Hj Hjq Eq.
    destruct (nth_error classes j) as [cj|] eqn:Ecj.
    2:{ apply nth_error_None in Ecj.
        assert (i < List.length classes)%nat by (apply nth_error_Some; congruence). lia. }
    assert (Ha : nth_error all j = Some (cj, q)) by (apply Spec; auto).
    pose proof (First j (cj, q) Hj Ha) as Fb. cbn [snd] in Fb.
    apply Qeq_bool_neq in Fb. contradiction.
Qed.

(** X21. When the classifier gives fewer probabilities than it has classes,
    [_predict_family_ml] stops with an [IndexError], after the three calls
    to the model. *)
Theorem predict_family_ml_index_error (v : Vectorizer Vec) (clf : Classifier Vec)
    (combined_text : string) (proba_of : Vec -> list Q) :
  let x := normalize_text combined_text in
  predict_proba clf = Some proba_of ->
  (List.length (proba_of (transform v x)) < List.length (classes_ clf))%nat ->
  _predict_family_ml Vec v clf combined_text
    = ([Transform x; ClfPredict; ClfPredictProba], Raise IndexError).
Proof.
  intros x Hp L.
  pose proof (predict_family_ml_cases Vec v clf combined_text) as C.
  cbv zeta in C. rewrite Hp in C. fold x in C.
  set (proba := proba_of (transform v x)) in *.
  set (classes := classes_ clf) in *.
  assert (R : forall l, (forall bs, for_each (pair_at classes proba) l <> Ok bs) ->
                        for_each (pair_at classes proba) l = Raise IndexError).
  { induction l as [|a l IH]; intros N; [exfalso; apply (N []); reflexivity|].
    simpl in *. unfold pair_at at 1. unfold pair_at at 1 in N.
    destruct (nth_error classes a); [|reflexivity].
    destruct (nth_error proba a); [|reflexivity].
    rewrite IH; [reflexivity|]. intros bs Hb. rewrite Hb in N.
    eapply N. reflexivity. }
  rewrite R in C; [exact C|]. intros bs Hb.
  assert (Hs : nth_error (seq 0 (List.length classes)) (List.length proba)
               = Some (List.length proba)).
  { rewrite nth_error_seq. apply Nat.ltb_lt in L. rewrite L. reflexivity. }
  destruct (for_each_at _ _ _ _ _ Hb Hs) as (b & _ & Pb).
  unfold pair_at in Pb.
  destruct (nth_error classes (List.length proba)); [|discriminate].
  destruct (nth_error proba (List.length proba)) eqn:Ep; [|discriminate].
  assert (List.length proba < List.length proba)%nat by (apply nth_error_Some; congruence).
  lia.
Qed.
End ClassifierFacts.

Lemma predict_family_ml_top_witness :
  exists family conf cands,
    _predict_family_ml string text_vectorizer sample_clf "it broke again"
      = ([Transform "it broke again"; ClfPredict; ClfPredictProba],
         Ok (family, conf, cands)) /\
    List.length cands = 3%nat /\ descending snd cands.
Proof.
  destruct (predict_family_ml_top string text_vectorizer sample_clf
              "it broke again" _ eq_refl)
    as (family & conf & cands & R & Len & D & _).
  - vm_compute. lia.
  - exists family, conf, cands. repeat split; assumption.
Defined.

Lemma predict_family_ml_winner_witness :
  exists i c p tr cands,
    _predict_family_ml string text_vectorizer tied_clf "it broke again"
      = (tr, Ok (c, Some p, cands)) /\
    nth_error (classes_ tied_clf) i = Some c /\
    nth_error [ (2#10)%Q; (4#10)%Q; (2#5)%Q ] i = Some p /\
    (forall j q, (j < 3)%nat -> nth_error [ (2#10)%Q; (4#10)%Q; (2#5)%Q ] j = Some q ->
       (q <= p)%Q) /\
    (forall j q, (j < i)%nat -> nth_error [ (2#10)%Q; (4#10)%Q; (2#5)%Q ] j = Some q ->
       ~ (q == p)%Q).
Proof.
  apply (predict_family_ml_winner string text_vectorizer tied_clf
           "it broke again" _ eq_refl).
  - vm_compute. lia.
  - discriminate.
Defined.

Lemma predict_family_ml_index_error_witness :
  _predict_family_ml string text_vectorizer short_clf "it broke again"
    = ([Transform "it broke again"; ClfPredict; ClfPredictProba], Raise IndexError).
Proof.
  apply (predict_family_ml_index_error string text_vectorizer short_clf
           "it broke again" _ eq_refl).
  vm_compute. lia.
Defined.

(** ** More on a request *)

Section RequestFacts.
Variable Vec : Type.
Variable cosine_similarity : Vec -> Vec -> Q.
Variable argsort : list Q -> list nat.

Lemma classify_no_echo (e : env Vec) text raw :
  Forall (fun ev => is_echo ev = false) (trace (classify Vec e text raw)).
Proof.
  unfold classify. destruct (rule_predict text); [constructor|].
  destruct (tfidf_joblib e) as [v|] eqn:Hv; [destruct (clf_joblib e) as [clf|] eqn:Hc|];
    try solve [unfold _load_model; rewrite ?Hv, ?Hc; repeat constructor].
  rewrite (load_model_ok Vec e v clf Hv Hc), bind_ok.
  unfold trace. cbn [fst snd]. cbv beta iota.
  rewrite (predict_family_ml_cases Vec v clf raw). cbv zeta.
  destruct (predict_proba clf) as [f|].
  - destruct (for_each _ _) as [all|ex].
    + destruct (firstn _ _) as [|[c p] t]; repeat constructor.
    + repeat constructor.
  - repeat constructor.
Qed.

(** X22. When no rule decides and a model file is missing, the request stops
    with [FileNotFoundError] right after looking for the model: nothing is
    printed and the playbook is not read. *)
Theorem main_model_missing (e : env Vec) (text : string) (code : option string)
    (top_k : Z) :
  rule_predict text = None ->
  tfidf_joblib e = None \/ clf_joblib e = None ->
  main Vec cosine_similarity argsort e text code top_k =
    ([LoadModel],
     Raise (FileNotFoundError
       ("Model files not found. Run:" ++ NL
        ++ "  1) python3 -m debugassist.build_dataset --total 1200" ++ NL
        ++ "  2) python3 -m debugassist.train" ++ NL))).
Proof.
  intros Hr H. unfold main, classify. rewrite Hr. unfold _load_model.
  destruct H as [H|H]; rewrite H; [|destruct (tfidf_joblib e)]; reflexivity.
Qed.

(** X23. When the playbook file is missing, or holds something that is not a
    dictionary and is not falsy, the request raises and prints nothing.  A
    file that parses to a falsy value (an empty file, null, 0, an empty
    string or list) is read as an empty playbook. *)
Theorem main_playbook_unreadable (e : env Vec) (text : string) (code : option string)
    (top_k : Z) :
  (playbooks_yaml e = None \/ playbooks_yaml e = Some NotDict ->
   Forall (fun ev => is_echo ev = false)
     (trace (main Vec cosine_similarity argsort e text code top_k)) /\
   exists ex, snd (main Vec cosine_similarity argsort e text code top_k) = Raise ex) /\
  (playbooks_yaml e = Some Falsy ->
   main Vec cosine_similarity argsort e text code top_k
   = main Vec cosine_similarity argsort (with_playbooks e (Dict [])) text code top_k).
Proof.
  split.
  - intros H. unfold main.
    pose proof (classify_no_echo e text (combine_inputs text code)) as N.
    destruct (classify Vec e text (combine_inputs text code))
      as [t [[[[family method] conf] cands]|ex]].
    + rewrite bind_ok. unfold trace in *. cbn [fst snd] in *.
      unfold _load_playbooks.
      destruct H as [H|H]; rewrite H; cbn; (split; [|eexists; reflexivity]);
        (apply Forall_app; split; [exact N|repeat constructor]).
    + cbn. split; [exact N|eexists; reflexivity].
  - intros H. unfold main, classify, _load_model, _load_playbooks, similar_cases,
      load_default, with_playbooks.
    cbn [tfidf_joblib clf_joblib playbooks_yaml debug_cases_csv]. rewrite H.
    reflexivity.
Qed.

(** X24. A request that the rules leave undecided and whose top candidate has
    a probability of [LOW_CONF_THRESHOLD] or more, with the model, the
    playbook and the index loaded, the playbook giving its suggestions for
    the family and the query returning: the request prints the header with
    the confidence and the one checklist of the predicted family, then
    loads the index, queries it with the raw input and prints the similar
    cases.  The threshold itself is on this side of the test. *)
Theorem confident_branch (e : env Vec) (text : string) (code : option string)
    (top_k : Z) (v : Vectorizer Vec) (clf : Classifier Vec) (playbooks : Playbooks)
    (family : string) (c : Q) (cands : list (string * Q))
    (suggestions : list string) (idx : RetrievalIndex Vec)
    (similar : list SimilarCase) :
  let raw_input := combine_inputs text code in
  rule_predict text = None ->
  snd (_load_model Vec e) = Ok (v, clf) ->
  snd (_predict_family_ml Vec v clf raw_input) = Ok (family, Some c, cands) ->
  snd (_load_playbooks Vec e) = Ok playbooks ->
  _playbook_suggestions playbooks family raw_input = Ok suggestions ->
  snd (load_default Vec e) = Ok idx ->
  query Vec cosine_similarity argsort idx raw_input top_k = Ok similar ->
  (LOW_CONF_THRESHOLD <= c)%Q ->
  main Vec cosine_similarity argsort e text code top_k =
    ((LoadModel :: Transform (normalize_text raw_input) :: ClfPredict
        :: ClfPredictProba :: LoadPlaybooks
        :: echoes (header_lines family "ml" (Some c)
                   ++ checklist_lines "Fix checklist:" suggestions)
        ++ LoadDefault :: Query raw_input top_k
        :: echoes (similar_lines similar))%list,
     Ok tt) /\
  low_confidence "ml" (Some LOW_CONF_THRESHOLD) = false.
Proof.
  intros raw_input Hr Hm Hml Hp Hs Hl Hq Hconf. split; [|reflexivity].
  destruct (predict_family_ml_conf _ _ _ _ _ _ _ Hml) as [_ Hrun].
  pose proof (classify_ml Vec e text raw_input v clf _ _ Hr Hm Hrun) as Hc.
  cbn [fst snd] in Hc.
  rewrite (main_after_classify Vec cosine_similarity argsort e text code top_k
             _ _ _ _ _ _ Hc Hp _ eq_refl).
  rewrite (low_confidence_above c Hconf). fold raw_input.
  rewrite (single_branch Vec cosine_similarity argsort e raw_input top_k
             playbooks family suggestions Hs).
  rewrite (similar_cases_lines Vec cosine_similarity argsort e raw_input top_k
             idx similar Hl Hq).
  unfold trace. cbn [fst snd app]. rewrite echoes_app, <- !app_assoc. reflexivity.
Qed.

(** X25. On the rules path a request reads no model file: with the playbook
    and the index loaded, the playbook giving its suggestions for the
    family and the query returning, it loads the playbook, prints the
    header without a confidence and the checklist, loads the index, queries
    it with the raw input, prints the similar cases and returns. *)
Theorem main_rules_complete (e : env Vec) (text : string) (code : option string)
    (top_k : Z) (family : string) (playbooks : Playbooks)
    (suggestions : list string) (idx : RetrievalIndex Vec)
    (similar : list SimilarCase) :
  let raw_input := combine_inputs text code in
  rule_predict text = Some family ->
  snd (_load_playbooks Vec e) = Ok playbooks ->
  _playbook_suggestions playbooks family raw_input = Ok suggestions ->
  snd (load_default Vec e) = Ok idx ->
  query Vec cosine_similarity argsort idx raw_input top_k = Ok similar ->
  main Vec cosine_similarity argsort e text code top_k =
    ((LoadPlaybooks
        :: echoes (header_lines family "rules" None
                   ++ checklist_lines "Fix checklist:" suggestions)
        ++ LoadDefault :: Query raw_input top_k
        :: echoes (similar_lines similar))%list,
     Ok tt).
Proof.
  intros raw_input Hr Hp Hs Hl Hq.
  pose proof (classify_rules Vec e text raw_input family Hr) as Hc.
  rewrite (main_after_classify Vec cosine_similarity argsort e text code top_k
             _ _ _ _ _ _ Hc Hp _ eq_refl).
  change (low_confidence "rules" None) with false. cbv iota. fold raw_input.
  rewrite (single_branch Vec cosine_similarity argsort e raw_input top_k
             playbooks family suggestions Hs).
  rewrite (similar_cases_lines Vec cosine_similarity argsort e raw_input top_k
             idx similar Hl Hq).
  unfold trace. cbn [fst snd app]. rewrite echoes_app, <- !app_assoc. reflexivity.
Qed.
End RequestFacts.

Lemma main_model_missing_witness :
  rule_predict "it broke again" = None /\
  trace (main string same_text argsort_stable (env_without true false false)
           "it broke again" None 3) = [LoadModel].
Proof.
  split; [vm_compute; reflexivity|].
  rewrite (main_model_missing string same_text argsort_stable
             (env_without true false false) "it broke again" None 3).
  - reflexivity.
  - vm_compute. reflexivity.
  - left. reflexivity.
Defined.

Lemma main_playbook_unreadable_witness :
  Forall (fun ev => is_echo ev = false)
    (trace (main string same_text argsort_stable
              (with_playbooks (sample_env sample_clf) NotDict)
              "KeyError: 'user_id'" None 3)) /\
  exists ex, snd (main string same_text argsort_stable
                    (with_playbooks (sample_env sample_clf) NotDict)
                    "KeyError: 'user_id'" None 3) = Raise ex.
Proof.
  apply (main_playbook_unreadable string same_text argsort_stable
           (with_playbooks (sample_env sample_clf) NotDict)
           "KeyError: 'user_id'" None 3).
  right. reflexivity.
Defined.

Lemma confident_branch_witness :
  main string same_text argsort_stable (sample_env sure_clf)
    "it broke again" None 1
  = ([ LoadModel; Transform "it broke again"; ClfPredict; ClfPredictProba;
       LoadPlaybooks;
       Echo EmptyString;
       Echo "       * DebugAssist *";
       Echo "==============================";
       Echo (NL ++ "Predicted family: key_error   (via ml, confidence=0.90)");
       Echo (NL ++ "Fix checklist:");
       Echo "  - Check that the key exists.";
       LoadDefault; Query "it broke again" 1;
       Echo (NL ++ "Similar solved cases:");
       Echo (NL ++ "  #1  score=0.000  label=key_error  id=c2");
       Echo "     error: KeyError: 'user_id'";
       Echo "     fix:   Check the key first.";
       Echo EmptyString ],
     Ok tt).
Proof.
  destruct (confident_branch string same_text argsort_stable (sample_env sure_clf)
              "it broke again" None 1 text_vectorizer sure_clf sample_playbooks
              "key_error" (9#10)%Q
              [("key_error", (9#10)%Q); ("index_error", (1#10)%Q)]
              ["Check that the key exists."]
              (__init__ two_cases text_vectorizer)
              [ {| id := "c2"; error_family := "key_error";
                   error_text := "KeyError: 'user_id'";
                   fix_text := "Check the key first."; score := 0 |} ]) as [H _].
  - vm_compute. reflexivity.
  - reflexivity.
  - vm_compute. reflexivity.
  - reflexivity.
  - apply (sample_suggestions "key_error").
  - reflexivity.
  - vm_compute. reflexivity.
  - vm_compute. discriminate.
  - rewrite H. vm_compute. reflexivity.
Defined.

Lemma main_rules_complete_witness :
  main string same_text argsort_stable (env_without true false false)
    "KeyError: 'user_id'" None 1
  = ([ LoadPlaybooks;
       Echo EmptyString;
       Echo "       * DebugAssist *";
       Echo "==============================";
       Echo (NL ++ "Predicted family: key_error   (via rules)");
       Echo (NL ++ "Fix checklist:");
       Echo "  - Check that the key exists.";
       LoadDefault ],
     Raise (FileNotFoundError
              "Vectorizer not found at models/tfidf.joblib. Run train.py first."))
  /\
  main string same_text argsort_stable
    (with_playbooks (sample_env sample_clf_no_proba) (Dict sample_playbooks))
    "KeyError: 'user_id'" None 1
  = ([ LoadPlaybooks;
       Echo EmptyString;
       Echo "       * DebugAssist *";
       Echo "==============================";
       Echo (NL ++ "Predicted family: key_error   (via rules)");
       Echo (NL ++ "Fix checklist:");
       Echo "  - Check that the key exists.";
       LoadDefault; Query "KeyError: 'user_id'" 1;
       Echo (NL ++ "Similar solved cases:");
       Echo (NL ++ "  #1  score=1.000  label=key_error  id=c2");
       Echo "     error: KeyError: 'user_id'";
       Echo "     fix:   Check the key first.";
       Echo EmptyString ],
     Ok tt).
Proof.
  split; [vm_compute; reflexivity|].
  rewrite (main_rules_complete string same_text argsort_stable
             (with_playbooks (sample_env sample_clf_no_proba) (Dict sample_playbooks))
             "KeyError: 'user_id'" None 1 "key_error" sample_playbooks
             ["Check that the key exists."]
             (__init__ two_cases text_vectorizer)
             [ {| id := "c2"; error_family := "key_error";
                  error_text := "KeyError: 'user_id'";
                  fix_text := "Check the key first."; score := 1 |} ]).
  - vm_compute. reflexivity.
  - vm_compute. reflexivity.
  - reflexivity.
  - vm_compute. reflexivity.
  - reflexivity.
  - vm_compute. reflexivity.
Defined.

(** ** Joining the error text and the code *)

Lemma rstrip_empty_blank : forall s, rstrip s = EmptyString -> blank s = true.
Proof.
  induction s as [|c t IH]; intros H; [reflexivity|].
  cbn [rstrip] in H. cbn [blank].
  destruct (rstrip t) eqn:R; [|discriminate].
  destruct (isspace c); [|discriminate]. rewrite IH; reflexivity.
Qed.

Lemma lstrip_blank_inv : forall s, blank (lstrip s) = true -> blank s = true.
Proof.
  induction s as [|c t IH]; intros H; [reflexivity|].
  cbn [lstrip] in H. cbn [blank].
  destruct (isspace c) eqn:C; [apply IH; exact H|].
  cbn [blank] in H. rewrite C in H. discriminate.
Qed.

Lemma strip_empty_iff s : strip s = EmptyString <-> blank s = true.
Proof.
  split; [|apply strip_blank].
  intros H. apply lstrip_blank_inv, rstrip_empty_blank. exact H.
Qed.

Lemma combine_inputs_cases (error_text code : string) :
  combine_inputs error_text None = error_text /\
  combine_inputs error_text (Some code) =
    if blank code then error_text
    else error_text ++ String newline "<CODE>" ++ String newline code.
Proof.
  split; [reflexivity|]. unfold combine_inputs.
  destruct (blank code) eqn:B.
  - rewrite (strip_blank code B). cbn. rewrite andb_false_r. reflexivity.
  - assert (S : (strip code =? EmptyString) = false).
    { destruct (strip code =? EmptyString) eqn:E; [|reflexivity].
      apply String.eqb_eq in E. apply strip_empty_iff in E. congruence. }
    assert (N : (code =? EmptyString) = false) by (destruct code; [discriminate|reflexivity]).
    rewrite S, N. reflexivity.
Qed.

(** X26. A blank code snippet changes nothing in a request: the program runs
    as it does without one. *)
Theorem main_blank_code (Vec : Type) (cosine_similarity : Vec -> Vec -> Q)
    (argsort : list Q -> list nat) (e : env Vec) (text code : string) (top_k : Z) :
  blank code = true ->
  main Vec cosine_similarity argsort e text (Some code) top_k
  = main Vec cosine_similarity argsort e text None top_k.
Proof.
  intros B. unfold main.
  destruct (combine_inputs_cases text code) as [E1 E2].
  rewrite E1, E2, B. reflexivity.
Qed.

Lemma main_blank_code_witness :
  main string same_text argsort_stable (sample_env sample_clf)
    "KeyError: 'user_id'" (Some "   ") 3
  = main string same_text argsort_stable (sample_env sample_clf)
      "KeyError: 'user_id'" None 3.
Proof.
  apply (main_blank_code string same_text argsort_stable (sample_env sample_clf)
           "KeyError: 'user_id'" "   " 3).
  reflexivity.
Defined.

(** ** The data set builder *)

Lemma sanitize_fix_collapse s : _sanitize_fix s = strip (collapse false s).
Proof.
  unfold _sanitize_fix. change (compile (plus (Cls isspace))) with _WHITESPACE_RE.
  unfold sub. rewrite sub_whitespace by lia. reflexivity.
Qed.

(** X27. A sanitized fix text has no whitespace at either end and only single
    spaces inside, and sanitizing it again changes nothing. *)
Theorem sanitize_fix_tidy (fix_text : string) :
  tidy (_sanitize_fix fix_text) = true /\
  strip (_sanitize_fix fix_text) = _sanitize_fix fix_text /\
  _sanitize_fix (_sanitize_fix fix_text) = _sanitize_fix fix_text.
Proof.
  rewrite !sanitize_fix_collapse.
  assert (T : tidy (strip (collapse false fix_text)) = true)
    by apply tidy_rstrip, tidy_lstrip, collapse_tidy.
  split; [exact T|]. split; [apply strip_strip|].
  rewrite (collapse_fixed _ T). apply strip_strip.
Qed.

Lemma increment_map (g : string -> Z) key : forall fams0,
  NoDup fams0 -> In key fams0 ->
  increment key (map (fun fam => (fam, g fam)) fams0)
  = inr (map (fun fam => (fam, if fam =? key then (g fam + 1)%Z else g fam)) fams0).
Proof.
  induction fams0 as [|k l IH]; intros N H; [destruct H|].
  inversion N as [|? ? Nk Nl]; subst. cbn [map increment].
  destruct (k =? key) eqn:E.
  - apply String.eqb_eq in E. subst k. f_equal. f_equal.
    apply map_ext_in. intros f Hf.
    destruct (f =? key) eqn:Ef; [|reflexivity].
    apply String.eqb_eq in Ef. subst f. contradiction.
  - destruct H as [->|H]; [rewrite String.eqb_refl in E; discriminate|].
    rewrite (IH Nl H). reflexivity.
Qed.

Lemma distribute_map (fams fams0 : list string) : NoDup fams0 ->
  forall idx (g : string -> Z),
  (forall i, In i idx -> exists fam, nth_error fams i = Some fam /\ In fam fams0) ->
  distribute fams idx (map (fun fam => (fam, g fam)) fams0)
  = inr (map (fun fam =>
           (fam, (g fam + Z.of_nat (count_occ string_dec
                                      (map (fun i => nth i fams EmptyString) idx) fam))%Z))
           fams0).
Proof.
  intros N. induction idx as [|i idx IH]; intros g H.
  - cbn [distribute map count_occ]. f_equal. apply map_ext. intros f.
    rewrite Z.add_0_r. reflexivity.
  - cbn [distribute]. destruct (H i (or_introl eq_refl)) as (fam & Ei & Hin).
    rewrite Ei, (increment_map g fam fams0 N Hin).
    rewrite IH by (intros j Hj; apply H; right; exact Hj).
    f_equal. apply map_ext. intros f. f_equal. cbn [map].
    rewrite (nth_error_nth _ _ _ Ei). cbn [count_occ].
    destruct (string_dec fam f) as [->|D].
    + rewrite String.eqb_refl. lia.
    + destruct (f =? fam) eqn:E; [apply String.eqb_eq in E; congruence|]. lia.
Qed.

Lemma firstn_map_nth {A} (d : A) (l : list A) : forall n, (n <= List.length l)%nat ->
  map (fun i => nth i l d) (seq 0 n) = firstn n l.
Proof.
  intros n. revert l. induction n as [|n IH]; intros l H; [reflexivity|].
  destruct l as [|a l]; [simpl in H; lia|].
  cbn [firstn seq map nth]. f_equal. rewrite <- seq_shift, map_map.
  apply IH. simpl in H. lia.
Qed.

Lemma count_occ_sum_skip (x : string) (l G : list string) : ~ In x G ->
  fold_right Z.add 0%Z (map (fun fam => Z.of_nat (count_occ string_dec (x :: l) fam)) G)
  = fold_right Z.add 0%Z (map (fun fam => Z.of_nat (count_occ string_dec l fam)) G).
Proof.
  intros Hn. f_equal. apply map_ext_in. intros fam Hf.
  rewrite count_occ_cons_neq; [reflexivity|]. intros ->. contradiction.
Qed.

Lemma count_occ_sum (fams0 : list string) : NoDup fams0 ->
  forall l, (forall x, In x l -> In x fams0) ->
  fold_right Z.add 0%Z (map (fun fam => Z.of_nat (count_occ string_dec l fam)) fams0)
  = Z.of_nat (List.length l).
Proof.
  intros N. induction l as [|x l IH]; intros H.
  - cbn [count_occ List.length]. clear. induction fams0 as [|a F IHF]; [reflexivity|].
    cbn [map fold_right]. rewrite IHF. reflexivity.
  - cbn [List.length]. rewrite Nat2Z.inj_succ.
    rewrite <- IH by (intros y Hy; apply H; right; exact Hy).
    assert (Hx : In x fams0) by (apply H; left; reflexivity).
    clear IH H. revert N Hx.
    induction fams0 as [|f F IHF]; intros N Hx; [destruct Hx|].
    inversion N as [|? ? Nf NF]; subst. cbn [map fold_right].
    destruct (string_dec x f) as [->|D].
    + rewrite (count_occ_sum_skip f l F Nf), count_occ_cons_eq by reflexivity. lia.
    + destruct Hx as [->|Hx]; [congruence|].
      rewrite (IHF NF Hx), count_occ_cons_neq by exact D. lia.
Qed.

Lemma plan_size_map (g : string -> Z) (fams0 : list string) :
  plan_size (map (fun fam => (fam, g fam)) fams0)
  = fold_right Z.add 0%Z (map g fams0).
Proof. unfold plan_size. rewrite map_map. reflexivity. Qed.

Lemma sum_add (g h : string -> Z) (l : list string) :
  fold_right Z.add 0%Z (map (fun x => (g x + h x)%Z) l)
  = (fold_right Z.add 0%Z (map g l) + fold_right Z.add 0%Z (map h l))%Z.
Proof. induction l as [|a l IH]; cbn [map fold_right]; [reflexivity|]. rewrite IH. lia. Qed.

Lemma sum_const (c : Z) (l : list string) :
  fold_right Z.add 0%Z (map (fun _ => c) l) = (c * Z.of_nat (List.length l))%Z.
Proof.
  induction l as [|a l IH]; [cbn; lia|].
  cbn [map fold_right List.length]. rewrite IH. lia.
Qed.

Lemma error_families_nodup : NoDup ERROR_FAMILIES.
Proof.
  unfold ERROR_FAMILIES.
  repeat (constructor; [simpl; intuition discriminate|]). constructor.
Qed.

Section PlanFacts.
Variable shuffle : list string -> list string.
Hypothesis shuffle_permutes : forall l, Permutation (shuffle l) l.

Lemma plan_counts_total_eq (total : Z) : (0 < total)%Z ->
  let base := (total / 10)%Z in
  let extra := firstn (Z.to_nat (total mod 10)) (shuffle ERROR_FAMILIES) in
  _plan_counts shuffle (Some total) None
  = inr (map (fun fam => (fam, (base + Z.of_nat (count_occ string_dec extra fam))%Z))
           ERROR_FAMILIES).
Proof.
  intros Ht base extra. unfold _plan_counts.
  destruct (total <=? 0)%Z eqn:E; [apply Z.leb_le in E; lia|].
  change (Z.of_nat (List.length ERROR_FAMILIES)) with 10%Z. cbv zeta.
  pose proof (Z.mod_pos_bound total 10 ltac:(lia)) as B.
  pose proof (Permutation_length (shuffle_permutes ERROR_FAMILIES)) as Len.
  change (List.length ERROR_FAMILIES) with 10%nat in Len.
  rewrite (distribute_map _ _ error_families_nodup).
  - rewrite (firstn_map_nth EmptyString) by lia. reflexivity.
  - intros i Hi. apply in_seq in Hi.
    destruct (nth_error (shuffle ERROR_FAMILIES) i) as [fam|] eqn:Ei.
    + exists fam. split; [reflexivity|].
      apply (Permutation_in _ (shuffle_permutes ERROR_FAMILIES)).
      eapply nth_error_In. exact Ei.
    + apply nth_error_None in Ei. lia.
Qed.

(** X28. A plan for a total is as even as it can be: it has every family
    once, in the order of [ERROR_FAMILIES], its counts add up to the total,
    each count is the tenth of the total rounded down or one more, and the
    families with one more are the first of the shuffled list, as many as
    the remainder. *)
Theorem plan_counts_total (total : Z) :
  (0 < total)%Z ->
  exists counts,
    _plan_counts shuffle (Some total) None = inr counts /\
    map fst counts = ERROR_FAMILIES /\
    plan_size counts = total /\
    forall fam n, In (fam, n) counts ->
      if existsb (String.eqb fam)
           (firstn (Z.to_nat (total mod 10)) (shuffle ERROR_FAMILIES))
      then n = (total / 10 + 1)%Z else n = (total / 10)%Z.
Proof.
  intros Ht. eexists. split; [apply (plan_counts_total_eq total Ht)|].
  set (extra := firstn (Z.to_nat (total mod 10)) (shuffle ERROR_FAMILIES)).
  pose proof (Z.mod_pos_bound total 10 ltac:(lia)) as B.
  pose proof (shuffle_permutes ERROR_FAMILIES) as P.
  pose proof (Permutation_length P) as Len.
  change (List.length ERROR_FAMILIES) with 10%nat in Len.
  assert (Nx : NoDup extra).
  { assert (N : NoDup (shuffle ERROR_FAMILIES))
      by (apply (Permutation_NoDup (Permutation_sym P)), error_families_nodup).
    unfold extra. revert N. generalize (shuffle ERROR_FAMILIES).
    generalize (Z.to_nat (total mod 10)).
    induction n as [|n IH]; intros [|x l] N; simpl; try constructor.
    - inversion N; subst. intros H. apply in_firstn in H. contradiction.
    - inversion N; subst. apply IH. assumption. }
  split; [|split].
  - rewrite map_map. cbn [fst]. apply map_id.
  - rewrite plan_size_map, sum_add, sum_const.
    rewrite (count_occ_sum _ error_families_nodup).
    + unfold extra. rewrite length_firstn, Len.
      change (List.length ERROR_FAMILIES) with 10%nat.
      rewrite Nat.min_l by lia. rewrite Z2Nat.id by lia.
      pose proof (Z.div_mod total 10 ltac:(lia)). lia.
    + intros x Hx. apply in_firstn in Hx. apply (Permutation_in _ P Hx).
  - intros fam n H. apply in_map_iff in H. destruct H as (f & E & _).
    injection E as <- <-.
    destruct (existsb (String.eqb f) extra) eqn:X.
    + apply existsb_exists in X. destruct X as (y & Hy & Ey).
      apply String.eqb_eq in Ey. subst y.
      apply (NoDup_count_occ' string_dec) in Hy; [|exact Nx]. rewrite Hy. reflexivity.
    + assert (Hn : ~ In f extra).
      { intros Hin. assert (existsb (String.eqb f) extra = true)
          by (apply existsb_exists; exists f; split; [exact Hin|apply String.eqb_refl]).
        congruence. }
      apply (count_occ_not_In string_dec) in Hn. rewrite Hn. lia.
Qed.

(** X29. [_plan_counts] gives a plan exactly when one of the two options is
    given and is positive; otherwise it raises [BadParameter], and nothing
    else in any case. *)
Theorem plan_counts_errors (total per_class : option Z) :
  if plan_request_ok total per_class
  then exists counts, _plan_counts shuffle total per_class = inr counts /\
         map fst counts = ERROR_FAMILIES
  else exists msg, _plan_counts shuffle total per_class = inl (BadParameter msg).
Proof.
  destruct total as [t|], per_class as [p|]; cbn [plan_request_ok];
    try (eexists; reflexivity).
  - destruct (0 <? t)%Z eqn:E.
    + apply Z.ltb_lt in E. eexists. split; [apply (plan_counts_total_eq t E)|].
      rewrite map_map. cbn [fst]. apply map_id.
    + apply Z.ltb_ge in E. apply Z.leb_le in E. unfold _plan_counts. rewrite E.
      eexists; reflexivity.
  - unfold _plan_counts. destruct (0 <? p)%Z eqn:E.
    + apply Z.ltb_lt in E. destruct (p <=? 0)%Z eqn:E'; [apply Z.leb_le in E'; lia|].
      eexists. split; [reflexivity|]. rewrite map_map. apply map_id.
    + apply Z.ltb_ge in E. apply Z.leb_le in E. rewrite E. eexists; reflexivity.
Qed.
End PlanFacts.

Lemma plan_counts_total_witness :
  exists counts,
    _plan_counts (@rev string) (Some 23%Z) None = inr counts /\
    map fst counts = ERROR_FAMILIES /\
    plan_size counts = 23%Z /\
    forall fam n, In (fam, n) counts ->
      if existsb (String.eqb fam)
           (firstn (Z.to_nat (23 mod 10)) (rev ERROR_FAMILIES))
      then n = (23 / 10 + 1)%Z else n = (23 / 10)%Z.
Proof.
  apply (plan_counts_total (@rev string)
           (fun l => Permutation_sym (Permutation_rev l)) 23%Z).
  lia.
Defined.

Lemma plan_counts_errors_witness :
  exists msg, _plan_counts (@rev string) (Some 0%Z) None = inl (BadParameter msg).
Proof.
  apply (plan_counts_errors (@rev string)
           (fun l => Permutation_sym (Permutation_rev l)) (Some 0%Z) None).
Defined.

(** ** Truncated tracebacks *)

Lemma all_chars_lstrip_chars q p : forall s,
  all_chars q s = true -> all_chars q (lstrip_chars p s) = true.
Proof.
  induction s as [|c t IH]; intros H; [reflexivity|].
  cbn [lstrip_chars]. destruct (p c); [|exact H].
  cbn [all_chars] in H. apply andb_true_iff in H. apply IH, H.
Qed.

Lemma all_chars_rstrip_chars q p : forall s,
  all_chars q s = true -> all_chars q (rstrip_chars p s) = true.
Proof.
  induction s as [|c t IH]; intros H; [reflexivity|].
  cbn [all_chars] in H. apply andb_true_iff in H. destruct H as [Hc Ht].
  cbn [rstrip_chars]. specialize (IH Ht).
  destruct (rstrip_chars p t) as [|c' r].
  - destruct (p c); [reflexivity|]. cbn [all_chars]. rewrite Hc. reflexivity.
  - cbn [all_chars] in *. rewrite Hc. exact IH.
Qed.

Lemma rstrip_chars_last p : forall s pv c,
  last_char pv (rstrip_chars p s) = Some c ->
  p c = false \/ (rstrip_chars p s = EmptyString /\ pv = Some c).
Proof.
  induction s as [|c0 t IH]; intros pv c H.
  - right. split; [reflexivity|exact H].
  - cbn [rstrip_chars] in *. destruct (rstrip_chars p t) as [|c' r] eqn:R.
    + destruct (p c0) eqn:P.
      * right. split; [reflexivity|exact H].
      * left. cbn [last_char] in H. congruence.
    + cbn [last_char] in H. destruct (IH (Some c0) c H) as [L|[E _]]; [left; exact L|discriminate].
Qed.

Lemma splitlines_empty : forall s, splitlines s = [] -> s = EmptyString.
Proof.
  intros [|c t] H; [reflexivity|]. cbn [splitlines] in H.
  destruct (islinebreak c); [discriminate|]. destruct (splitlines t); discriminate.
Qed.

Lemma join_cons sep x rest :
  rest <> [] -> join sep (x :: rest) = x ++ sep ++ join sep rest.
Proof. destruct rest; [congruence|reflexivity]. Qed.

Lemma join_app sep : forall a b, a <> [] -> b <> [] ->
  join sep (a ++ b)%list = join sep a ++ sep ++ join sep b.
Proof.
  induction a as [|x a IH]; intros b Ha Hb; [congruence|].
  destruct a as [|y a].
  - cbn [app]. rewrite join_cons by exact Hb. reflexivity.
  - change ((x :: y :: a) ++ b)%list with (x :: ((y :: a) ++ b))%list.
    rewrite join_cons by discriminate. rewrite IH by (discriminate || exact Hb).
    rewrite (join_cons sep x (y :: a)) by discriminate.
    rewrite !append_assoc. reflexivity.
Qed.

Lemma join_splitlines : forall s,
  newline_breaks_only s = true -> last_char None s <> Some newline ->
  join (String newline EmptyString) (splitlines s) = s.
Proof.
  induction s as [|c t IH]; intros O L; [reflexivity|].
  unfold newline_breaks_only in *. cbn [all_chars] in O.
  apply andb_true_iff in O. destruct O as [Oc Ot].
  assert (Lt : t <> EmptyString -> last_char None t <> Some newline).
  { intros Ne. destruct t as [|c' t']; [congruence|]. exact L. }
  cbn [splitlines]. destruct (islinebreak c) eqn:B.
  - cbn [implb] in Oc. unfold isnewline in Oc. apply Ascii.eqb_eq in Oc. subst c.
    destruct t as [|c' t']; [exfalso; apply L; reflexivity|].
    change ((newline =? CR)%char) with false. cbn [andb].
    rewrite join_cons.
    + rewrite IH; [reflexivity|exact Ot|apply Lt; discriminate].
    + intros E. apply splitlines_empty in E. discriminate.
  - destruct t as [|c' t']; [reflexivity|].
    specialize (IH Ot (Lt ltac:(discriminate))).
    destruct (splitlines (String c' t')) as [|l ls] eqn:S;
      [apply splitlines_empty in S; discriminate|].
    destruct ls as [|l' ls]; cbn [join] in *; rewrite <- IH; reflexivity.
Qed.

Lemma last_char_nl s : last_char None (s ++ String newline EmptyString) = Some newline.
Proof. rewrite last_char_app. reflexivity. Qed.

Lemma skipn_last {A} (d : A) : forall l, l <> [] ->
  skipn (List.length l - 1) l = [last l d].
Proof.
  induction l as [|a l IH]; intros H; [congruence|].
  destruct l as [|b l]; [reflexivity|].
  replace (List.length (a :: b :: l) - 1)%nat with (S (List.length (b :: l) - 1))
    by (simpl; lia).
  cbn [skipn]. rewrite IH by discriminate. reflexivity.
Qed.

Lemma join_skipn (ls : list string) (k : nat) :
  (0 < k < List.length ls)%nat ->
  join (String newline EmptyString) ls
  = (join (String newline EmptyString) (firstn k ls) ++ String newline EmptyString)
      ++ join (String newline EmptyString) (skipn k ls).
Proof.
  intros H. rewrite <- (firstn_skipn k ls) at 1.
  rewrite join_app.
  - rewrite !append_assoc. reflexivity.
  - intros E. apply (f_equal (@List.length string)) in E.
    rewrite length_firstn in E. simpl in E. lia.
  - intros E. apply (f_equal (@List.length string)) in E.
    rewrite length_skipn in E. simpl in E. lia.
Qed.

(** X30. [_maybe_truncate] only drops whole lines from the top: in a trace
    whose line boundaries are newlines, the result is the trace without its
    outer newlines, or that text from the start of one of its lines on, and
    it is never empty unless that text is. *)
Theorem maybe_truncate_keeps_tail (r : Q) (trace : string) :
  newline_breaks_only trace = true ->
  exists dropped,
    strip_chars isnewline trace = dropped ++ _maybe_truncate r trace /\
    (dropped = EmptyString \/ last_char None dropped = Some newline) /\
    (strip_chars isnewline trace <> EmptyString ->
     _maybe_truncate r trace <> EmptyString).
Proof.
  intros O. set (s := strip_chars isnewline trace).
  assert (Os : newline_breaks_only s = true)
    by apply all_chars_rstrip_chars, all_chars_lstrip_chars, O.
  assert (Ls : last_char None s <> Some newline).
  { intros E. apply rstrip_chars_last in E. destruct E as [E|[_ E]]; discriminate. }
  pose proof (join_splitlines s Os Ls) as J.
  assert (Whole : exists dropped, s = dropped ++ s /\
            (dropped = EmptyString \/ last_char None dropped = Some newline) /\
            (s <> EmptyString -> s <> EmptyString)).
  { exists EmptyString. auto. }
  assert (Tail : forall k, (0 < k < List.length (splitlines s))%nat ->
            exists dropped,
              s = dropped ++ join (String newline EmptyString) (skipn k (splitlines s)) /\
              (dropped = EmptyString \/ last_char None dropped = Some newline) /\
              (s <> EmptyString ->
               join (String newline EmptyString) (skipn k (splitlines s)) <> EmptyString)).
  { intros k Hk. pose proof (join_skipn (splitlines s) k Hk) as E. rewrite J in E.
    eexists. split; [exact E|]. split; [right; apply last_char_nl|].
    intros _ Z. rewrite Z in E. apply Ls. rewrite E.
    rewrite last_char_app. cbn [last_char]. apply last_char_nl. }
  unfold _maybe_truncate. fold s. cbv zeta.
  destruct (List.length (splitlines s) <=? 3)%nat eqn:Len; [exact Whole|].
  apply Nat.leb_gt in Len.
  destruct (lt_float r lit_0_20).
  { destruct (Tail (List.length (splitlines s) - 1)%nat ltac:(lia)) as (d & E & Hd & Hn).
    rewrite (skipn_last EmptyString) in E, Hn
      by (intros Z; rewrite Z in Len; simpl in Len; lia).
    cbn [join] in E, Hn. exists d. auto. }
  destruct (lt_float r lit_0_40); [apply Tail; lia|].
  destruct (lt_float r lit_0_55 && prefix "Traceback" (hd EmptyString (splitlines s)));
    [|exact Whole].
  destruct (splitlines s) as [|l0 ls] eqn:S; [simpl in Len; lia|].
  apply (Tail 1%nat). simpl in *. lia.
Qed.

Lemma maybe_truncate_keeps_tail_witness :
  exists dropped,
    strip_chars isnewline sample_trace = dropped ++ _maybe_truncate (1#10) sample_trace /\
    (dropped = EmptyString \/ last_char None dropped = Some newline) /\
    (strip_chars isnewline sample_trace <> EmptyString ->
     _maybe_truncate (1#10) sample_trace <> EmptyString).
Proof.
  apply (maybe_truncate_keeps_tail (1#10) sample_trace).
  vm_compute. reflexivity.
Defined.
